(** * Tetris game core: rules engine of [projects/tetris-game]

    A shallow embedding of the game core ([game.js]), the piece catalogue
    and SRS kick tables, and the keyboard dispatch of the controls module,
    followed by the properties of the rules that the specification states.

    Conventions of the embedding
    - JavaScript arrays are lists; an index that is negative or past the end
      reads [undefined], modelled by [None] ([at_]).
    - Integers that can go negative (positions, offsets, directions) are [Z];
      array indices produced by loops are [nat].
    - Timers hold millisecond values that are not integers in general
      (a drop interval is [frames / 60 * 1000]); they are exact rationals [Q].
    - Presentation code (canvas, DOM, audio, localStorage) is left out: it
      never writes a field of the rules engine. *)

From Stdlib Require Import ZArith QArith Qround Lia String List.
From stdpp Require Import base list strings sorting.

Local Open Scope string_scope.
Local Open Scope Z_scope.

(** ** Constants *)

Definition COLS : Z := 10.
Definition ROWS : Z := 20.
Definition HIDDEN_ROWS : Z := 2.

Inductive GAME_STATE := MENU | PLAYING | PAUSED | GAMEOVER.

Definition GAME_STATE_eqb (a b : GAME_STATE) : bool :=
  match a, b with
  | MENU, MENU | PLAYING, PLAYING | PAUSED, PAUSED | GAMEOVER, GAMEOVER => true
  | _, _ => false
  end.

(** ** Piece catalogue *)

(** The keys of the [TETROMINOS] object. *)
Module Kind.
Inductive t := I | L | J | O | T | S | Z.
End Kind.

Record Tetromino := {
  id : string;
  shape : list (list Z);
  color : string;
  border : string;
  size : Z
}.

Definition TETROMINOS (k : Kind.t) : Tetromino :=
  match k with
  | Kind.I => {| id := "I";
                 shape := [[0; 0; 0; 0]; [1; 1; 1; 1]; [0; 0; 0; 0]; [0; 0; 0; 0]];
                 color := "#00f0f0"; border := "#00aaaa"; size := 4 |}
  | Kind.J => {| id := "J";
                 shape := [[1; 0; 0]; [1; 1; 1]; [0; 0; 0]];
                 color := "#0000f0"; border := "#0000aa"; size := 3 |}
  | Kind.L => {| id := "L";
                 shape := [[0; 0; 1]; [1; 1; 1]; [0; 0; 0]];
                 color := "#f0a000"; border := "#aa7700"; size := 3 |}
  | Kind.O => {| id := "O";
                 shape := [[1; 1]; [1; 1]];
                 color := "#f0f000"; border := "#aaaa00"; size := 2 |}
  | Kind.S => {| id := "S";
                 shape := [[0; 1; 1]; [1; 1; 0]; [0; 0; 0]];
                 color := "#00f000"; border := "#00aa00"; size := 3 |}
  | Kind.T => {| id := "T";
                 shape := [[0; 1; 0]; [1; 1; 1]; [0; 0; 0]];
                 color := "#a000f0"; border := "#7700aa"; size := 3 |}
  | Kind.Z => {| id := "Z";
                 shape := [[1; 1; 0]; [0; 1; 1]; [0; 0; 0]];
                 color := "#f00000"; border := "#aa0000"; size := 3 |}
  end.

(** ** SRS wall-kick tables

    The source keys the tables by the string ["from-to"]; the embedding
    keys them by the pair of integers the string is built from. *)

Definition KICKS_JLTSZ (from to : Z) : option (list (Z * Z)) :=
  match from, to with
  | 0, 1 => Some [(0, 0); (-1, 0); (-1, -1); (0, 2); (-1, 2)]
  | 1, 0 => Some [(0, 0); (1, 0); (1, 1); (0, -2); (1, -2)]
  | 1, 2 => Some [(0, 0); (1, 0); (1, 1); (0, -2); (1, -2)]
  | 2, 1 => Some [(0, 0); (-1, 0); (-1, -1); (0, 2); (-1, 2)]
  | 2, 3 => Some [(0, 0); (1, 0); (1, 1); (0, -2); (1, -2)]
  | 3, 2 => Some [(0, 0); (-1, 0); (-1, -1); (0, 2); (-1, 2)]
  | 3, 0 => Some [(0, 0); (-1, 0); (-1, -1); (0, 2); (-1, 2)]
  | 0, 3 => Some [(0, 0); (1, 0); (1, 1); (0, -2); (1, -2)]
  | _, _ => None
  end.

Definition KICKS_I (from to : Z) : option (list (Z * Z)) :=
  match from, to with
  | 0, 1 => Some [(0, 0); (-2, 0); (1, 0); (-2, 1); (1, -2)]
  | 1, 0 => Some [(0, 0); (2, 0); (-1, 0); (2, -1); (-1, 2)]
  | 1, 2 => Some [(0, 0); (-1, 0); (2, 0); (-1, 2); (2, -1)]
  | 2, 1 => Some [(0, 0); (1, 0); (-2, 0); (1, -2); (-2, 1)]
  | 2, 3 => Some [(0, 0); (2, 0); (-1, 0); (2, 1); (-1, -2)]
  | 3, 2 => Some [(0, 0); (-2, 0); (1, 0); (-2, -1); (1, 2)]
  | 3, 0 => Some [(0, 0); (1, 0); (-2, 0); (1, -2); (-2, 1)]
  | 0, 3 => Some [(0, 0); (-1, 0); (2, 0); (-1, 2); (2, -1)]
  | _, _ => None
  end.

(** [%] of JavaScript truncates towards zero: [Z.rem]. *)
Definition getKickData (type : string) (rotationIndex direction : Z) : list (Z * Z) :=
  let nextState := Z.rem (rotationIndex + direction + 4) 4 in
  if String.eqb type "O" then [(0, 0)]
  else if String.eqb type "I" then default [(0, 0)] (KICKS_I rotationIndex nextState)
  else default [(0, 0)] (KICKS_JLTSZ rotationIndex nextState).

(** ** Arrays and the grid *)

(** A grid cell holds the number [0] or the colour string of a locked piece. *)
Inductive cell := Zero | Colour (c : string).

Definition isZero (v : cell) : bool :=
  match v with Zero => true | Colour _ => false end.

#[global] Instance cell_eq_dec : EqDecision cell.
Proof. solve_decision. Defined.

(** [a[i]] for an integer [i]: [undefined] outside the array. *)
Definition at_ {A} (l : list A) (i : Z) : option A :=
  if i <? 0 then None else l !! Z.to_nat i.

(** [Array(ROWS).fill().map(() => Array(COLS).fill(0))] *)
Definition createGrid : list (list cell) :=
  replicate (Z.to_nat ROWS) (replicate (Z.to_nat COLS) Zero).

(** ** The active piece *)

Record Player := {
  pos : Z * Z;                 (* (x, y) of the matrix's top-left corner *)
  matrix : list (list Z);
  tetromino : Tetromino;
  rotationIndex : Z
}.

Definition setPos (p : Z * Z) (pl : Player) : Player :=
  {| pos := p; matrix := matrix pl; tetromino := tetromino pl;
     rotationIndex := rotationIndex pl |}.
Definition setMatrix (m : list (list Z)) (pl : Player) : Player :=
  {| pos := pos pl; matrix := m; tetromino := tetromino pl;
     rotationIndex := rotationIndex pl |}.
Definition setTetromino (t : Tetromino) (pl : Player) : Player :=
  {| pos := pos pl; matrix := matrix pl; tetromino := t;
     rotationIndex := rotationIndex pl |}.
Definition setRotationIndex (r : Z) (pl : Player) : Player :=
  {| pos := pos pl; matrix := matrix pl; tetromino := tetromino pl;
     rotationIndex := r |}.

(** ** Collision

    The test of the inner [if] of [collide] for the grid cell at row [r],
    column [c]: the row is [undefined], the cell is [undefined], or the cell
    is not [0]. *)
Definition blocked (arena : list (list cell)) (r c : Z) : bool :=
  match at_ arena r with
  | None => true
  | Some row =>
      match at_ row c with
      | None => true
      | Some v => negb (isZero v)
      end
  end.

(** Inner loop of [collide]: cells [x, x+1, ...] of one matrix row that
    lands on grid row [r]. *)
Fixpoint collideCells (arena : list (list cell)) (cells : list Z)
    (x : nat) (r ox : Z) : bool :=
  match cells with
  | [] => false
  | v :: rest =>
      (negb (v =? 0) && blocked arena r (Z.of_nat x + ox))
      || collideCells arena rest (S x) r ox
  end.

(** Outer loop of [collide]: matrix rows [y, y+1, ...]. *)
Fixpoint collideRows (arena : list (list cell)) (rows : list (list Z))
    (y : nat) (o : Z * Z) : bool :=
  match rows with
  | [] => false
  | row :: rest =>
      collideCells arena row 0 (Z.of_nat y + o.2) o.1
      || collideRows arena rest (S y) o
  end.

Definition collide (arena : list (list cell)) (player : Player) : bool :=
  collideRows arena (matrix player) 0 (pos player).

(** ** Rotation of the piece matrix *)

Section Matrix.
Context {A : Type}.

Definition cellAt (m : list (list A)) (r c : nat) : option A :=
  row ← m !! r; row !! c.

Definition setCell (m : list (list A)) (r c : nat) (v : A) : list (list A) :=
  alter (<[c := v]>) r m.

(** [[m[x][y], m[y][x]] = [m[y][x], m[x][y]]].  Piece matrices are square,
    so both cells exist; on a ragged matrix the source would read and store
    [undefined], which a list of cells cannot hold, and the embedding
    leaves such a matrix as it is.  Every statement about [rotate] below
    assumes a square matrix. *)
Definition swapCells (m : list (list A)) (x y : nat) : list (list A) :=
  match cellAt m y x, cellAt m x y with
  | Some a, Some b => setCell (setCell m x y a) y x b
  | _, _ => m
  end.

(** The two nested [for] loops of [rotate]: for each [y], for each [x < y]. *)
Definition transposeRow (m : list (list A)) (y : nat) : list (list A) :=
  foldl (fun m x => swapCells m x y) m (seq 0 y).

Definition transpose (m : list (list A)) : list (list A) :=
  foldl transposeRow m (seq 0 (length m)).

Definition rotate (m : list (list A)) (dir : Z) : list (list A) :=
  let t := transpose m in
  if 0 <? dir then map reverse t else reverse t.
End Matrix.

(** ** The game object

    The fields of [Game] that the rules read or write.  [lockDelay] and
    [maxLockMoves] are set once by the constructor and never written again:
    they are constants here.  [random] and [randomCalls] stand for
    [Math.random]: the [k]-th call of the session draws [random k]. *)

Definition lockDelay : Q := 500.
Definition maxLockMoves : Z := 15.

Record Game := {
  grid : list (list cell);
  score : Z;
  level : Z;
  lines : Z;
  highScore : Z;
  state : GAME_STATE;
  dropCounter : Q;
  dropInterval : Q;
  lastTime : Q;
  lockTimer : Q;
  isLocking : bool;
  lockMoves : Z;
  player : Player;
  bag : list Tetromino;
  nextPiece : option Tetromino;
  holdPiece : option Tetromino;
  canHold : bool;
  clearingLines : list nat;
  clearAnimationFrame : Z;
  isAnimatingClear : bool;
  random : nat -> nat;
  randomCalls : nat
}.

Definition set_grid (v : list (list cell)) (g : Game) : Game :=
  {| grid := v; score := score g; level := level g; lines := lines g;
     highScore := highScore g; state := state g; dropCounter := dropCounter g;
     dropInterval := dropInterval g; lastTime := lastTime g; lockTimer := lockTimer g;
     isLocking := isLocking g; lockMoves := lockMoves g; player := player g;
     bag := bag g; nextPiece := nextPiece g; holdPiece := holdPiece g;
     canHold := canHold g; clearingLines := clearingLines g;
     clearAnimationFrame := clearAnimationFrame g;
     isAnimatingClear := isAnimatingClear g; random := random g;
     randomCalls := randomCalls g |}.
Definition set_score (v : Z) (g : Game) : Game :=
  {| grid := grid g; score := v; level := level g; lines := lines g;
     highScore := highScore g; state := state g; dropCounter := dropCounter g;
     dropInterval := dropInterval g; lastTime := lastTime g; lockTimer := lockTimer g;
     isLocking := isLocking g; lockMoves := lockMoves g; player := player g;
     bag := bag g; nextPiece := nextPiece g; holdPiece := holdPiece g;
     canHold := canHold g; clearingLines := clearingLines g;
     clearAnimationFrame := clearAnimationFrame g;
     isAnimatingClear := isAnimatingClear g; random := random g;
     randomCalls := randomCalls g |}.
Definition set_level (v : Z) (g : Game) : Game :=
  {| grid := grid g; score := score g; level := v; lines := lines g;
     highScore := highScore g; state := state g; dropCounter := dropCounter g;
     dropInterval := dropInterval g; lastTime := lastTime g; lockTimer := lockTimer g;
     isLocking := isLocking g; lockMoves := lockMoves g; player := player g;
     bag := bag g; nextPiece := nextPiece g; holdPiece := holdPiece g;
     canHold := canHold g; clearingLines := clearingLines g;
     clearAnimationFrame := clearAnimationFrame g;
     isAnimatingClear := isAnimatingClear g; random := random g;
     randomCalls := randomCalls g |}.
Definition set_lines (v : Z) (g : Game) : Game :=
  {| grid := grid g; score := score g; level := level g; lines := v;
     highScore := highScore g; state := state g; dropCounter := dropCounter g;
     dropInterval := dropInterval g; lastTime := lastTime g; lockTimer := lockTimer g;
     isLocking := isLocking g; lockMoves := lockMoves g; player := player g;
     bag := bag g; nextPiece := nextPiece g; holdPiece := holdPiece g;
     canHold := canHold g; clearingLines := clearingLines g;
     clearAnimationFrame := clearAnimationFrame g;
     isAnimatingClear := isAnimatingClear g; random := random g;
     randomCalls := randomCalls g |}.
Definition set_highScore (v : Z) (g : Game) : Game :=
  {| grid := grid g; score := score g; level := level g; lines := lines g;
     highScore := v; state := state g; dropCounter := dropCounter g;
     dropInterval := dropInterval g; lastTime := lastTime g; lockTimer := lockTimer g;
     isLocking := isLocking g; lockMoves := lockMoves g; player := player g;
     bag := bag g; nextPiece := nextPiece g; holdPiece := holdPiece g;
     canHold := canHold g; clearingLines := clearingLines g;
     clearAnimationFrame := clearAnimationFrame g;
     isAnimatingClear := isAnimatingClear g; random := random g;
     randomCalls := randomCalls g |}.
Definition set_state (v : GAME_STATE) (g : Game) : Game :=
  {| grid := grid g; score := score g; level := level g; lines := lines g;
     highScore := highScore g; state := v; dropCounter := dropCounter g;
     dropInterval := dropInterval g; lastTime := lastTime g; lockTimer := lockTimer g;
     isLocking := isLocking g; lockMoves := lockMoves g; player := player g;
     bag := bag g; nextPiece := nextPiece g; holdPiece := holdPiece g;
     canHold := canHold g; clearingLines := clearingLines g;
     clearAnimationFrame := clearAnimationFrame g;
     isAnimatingClear := isAnimatingClear g; random := random g;
     randomCalls := randomCalls g |}.
Definition set_dropCounter (v : Q) (g : Game) : Game :=
  {| grid := grid g; score := score g; level := level g; lines := lines g;
     highScore := highScore g; state := state g; dropCounter := v;
     dropInterval := dropInterval g; lastTime := lastTime g; lockTimer := lockTimer g;
     isLocking := isLocking g; lockMoves := lockMoves g; player := player g;
     bag := bag g; nextPiece := nextPiece g; holdPiece := holdPiece g;
     canHold := canHold g; clearingLines := clearingLines g;
     clearAnimationFrame := clearAnimationFrame g;
     isAnimatingClear := isAnimatingClear g; random := random g;
     randomCalls := randomCalls g |}.
Definition set_dropInterval (v : Q) (g : Game) : Game :=
  {| grid := grid g; score := score g; level := level g; lines := lines g;
     highScore := highScore g; state := state g; dropCounter := dropCounter g;
     dropInterval := v; lastTime := lastTime g; lockTimer := lockTimer g;
     isLocking := isLocking g; lockMoves := lockMoves g; player := player g;
     bag := bag g; nextPiece := nextPiece g; holdPiece := holdPiece g;
     canHold := canHold g; clearingLines := clearingLines g;
     clearAnimationFrame := clearAnimationFrame g;
     isAnimatingClear := isAnimatingClear g; random := random g;
     randomCalls := randomCalls g |}.
Definition set_lastTime (v : Q) (g : Game) : Game :=
  {| grid := grid g; score := score g; level := level g; lines := lines g;
     highScore := highScore g; state := state g; dropCounter := dropCounter g;
     dropInterval := dropInterval g; lastTime := v; lockTimer := lockTimer g;
     isLocking := isLocking g; lockMoves := lockMoves g; player := player g;
     bag := bag g; nextPiece := nextPiece g; holdPiece := holdPiece g;
     canHold := canHold g; clearingLines := clearingLines g;
     clearAnimationFrame := clearAnimationFrame g;
     isAnimatingClear := isAnimatingClear g; random := random g;
     randomCalls := randomCalls g |}.
Definition set_lockTimer (v : Q) (g : Game) : Game :=
  {| grid := grid g; score := score g; level := level g; lines := lines g;
     highScore := highScore g; state := state g; dropCounter := dropCounter g;
     dropInterval := dropInterval g; lastTime := lastTime g; lockTimer := v;
     isLocking := isLocking g; lockMoves := lockMoves g; player := player g;
     bag := bag g; nextPiece := nextPiece g; holdPiece := holdPiece g;
     canHold := canHold g; clearingLines := clearingLines g;
     clearAnimationFrame := clearAnimationFrame g;
     isAnimatingClear := isAnimatingClear g; random := random g;
     randomCalls := randomCalls g |}.
Definition set_isLocking (v : bool) (g : Game) : Game :=
  {| grid := grid g; score := score g; level := level g; lines := lines g;
     highScore := highScore g; state := state g; dropCounter := dropCounter g;
     dropInterval := dropInterval g; lastTime := lastTime g; lockTimer := lockTimer g;
     isLocking := v; lockMoves := lockMoves g; player := player g; bag := bag g;
     nextPiece := nextPiece g; holdPiece := holdPiece g; canHold := canHold g;
     clearingLines := clearingLines g; clearAnimationFrame := clearAnimationFrame g;
     isAnimatingClear := isAnimatingClear g; random := random g;
     randomCalls := randomCalls g |}.
Definition set_lockMoves (v : Z) (g : Game) : Game :=
  {| grid := grid g; score := score g; level := level g; lines := lines g;
     highScore := highScore g; state := state g; dropCounter := dropCounter g;
     dropInterval := dropInterval g; lastTime := lastTime g; lockTimer := lockTimer g;
     isLocking := isLocking g; lockMoves := v; player := player g; bag := bag g;
     nextPiece := nextPiece g; holdPiece := holdPiece g; canHold := canHold g;
     clearingLines := clearingLines g; clearAnimationFrame := clearAnimationFrame g;
     isAnimatingClear := isAnimatingClear g; random := random g;
     randomCalls := randomCalls g |}.
Definition set_player (v : Player) (g : Game) : Game :=
  {| grid := grid g; score := score g; level := level g; lines := lines g;
     highScore := highScore g; state := state g; dropCounter := dropCounter g;
     dropInterval := dropInterval g; lastTime := lastTime g; lockTimer := lockTimer g;
     isLocking := isLocking g; lockMoves := lockMoves g; player := v; bag := bag g;
     nextPiece := nextPiece g; holdPiece := holdPiece g; canHold := canHold g;
     clearingLines := clearingLines g; clearAnimationFrame := clearAnimationFrame g;
     isAnimatingClear := isAnimatingClear g; random := random g;
     randomCalls := randomCalls g |}.
Definition set_bag (v : list Tetromino) (g : Game) : Game :=
  {| grid := grid g; score := score g; level := level g; lines := lines g;
     highScore := highScore g; state := state g; dropCounter := dropCounter g;
     dropInterval := dropInterval g; lastTime := lastTime g; lockTimer := lockTimer g;
     isLocking := isLocking g; lockMoves := lockMoves g; player := player g; bag := v;
     nextPiece := nextPiece g; holdPiece := holdPiece g; canHold := canHold g;
     clearingLines := clearingLines g; clearAnimationFrame := clearAnimationFrame g;
     isAnimatingClear := isAnimatingClear g; random := random g;
     randomCalls := randomCalls g |}.
Definition set_nextPiece (v : option Tetromino) (g : Game) : Game :=
  {| grid := grid g; score := score g; level := level g; lines := lines g;
     highScore := highScore g; state := state g; dropCounter := dropCounter g;
     dropInterval := dropInterval g; lastTime := lastTime g; lockTimer := lockTimer g;
     isLocking := isLocking g; lockMoves := lockMoves g; player := player g;
     bag := bag g; nextPiece := v; holdPiece := holdPiece g; canHold := canHold g;
     clearingLines := clearingLines g; clearAnimationFrame := clearAnimationFrame g;
     isAnimatingClear := isAnimatingClear g; random := random g;
     randomCalls := randomCalls g |}.
Definition set_holdPiece (v : option Tetromino) (g : Game) : Game :=
  {| grid := grid g; score := score g; level := level g; lines := lines g;
     highScore := highScore g; state := state g; dropCounter := dropCounter g;
     dropInterval := dropInterval g; lastTime := lastTime g; lockTimer := lockTimer g;
     isLocking := isLocking g; lockMoves := lockMoves g; player := player g;
     bag := bag g; nextPiece := nextPiece g; holdPiece := v; canHold := canHold g;
     clearingLines := clearingLines g; clearAnimationFrame := clearAnimationFrame g;
     isAnimatingClear := isAnimatingClear g; random := random g;
     randomCalls := randomCalls g |}.
Definition set_canHold (v : bool) (g : Game) : Game :=
  {| grid := grid g; score := score g; level := level g; lines := lines g;
     highScore := highScore g; state := state g; dropCounter := dropCounter g;
     dropInterval := dropInterval g; lastTime := lastTime g; lockTimer := lockTimer g;
     isLocking := isLocking g; lockMoves := lockMoves g; player := player g;
     bag := bag g; nextPiece := nextPiece g; holdPiece := holdPiece g; canHold := v;
     clearingLines := clearingLines g; clearAnimationFrame := clearAnimationFrame g;
     isAnimatingClear := isAnimatingClear g; random := random g;
     randomCalls := randomCalls g |}.
Definition set_clearingLines (v : list nat) (g : Game) : Game :=
  {| grid := grid g; score := score g; level := level g; lines := lines g;
     highScore := highScore g; state := state g; dropCounter := dropCounter g;
     dropInterval := dropInterval g; lastTime := lastTime g; lockTimer := lockTimer g;
     isLocking := isLocking g; lockMoves := lockMoves g; player := player g;
     bag := bag g; nextPiece := nextPiece g; holdPiece := holdPiece g;
     canHold := canHold g; clearingLines := v;
     clearAnimationFrame := clearAnimationFrame g;
     isAnimatingClear := isAnimatingClear g; random := random g;
     randomCalls := randomCalls g |}.
Definition set_clearAnimationFrame (v : Z) (g : Game) : Game :=
  {| grid := grid g; score := score g; level := level g; lines := lines g;
     highScore := highScore g; state := state g; dropCounter := dropCounter g;
     dropInterval := dropInterval g; lastTime := lastTime g; lockTimer := lockTimer g;
     isLocking := isLocking g; lockMoves := lockMoves g; player := player g;
     bag := bag g; nextPiece := nextPiece g; holdPiece := holdPiece g;
     canHold := canHold g; clearingLines := clearingLines g; clearAnimationFrame := v;
     isAnimatingClear := isAnimatingClear g; random := random g;
     randomCalls := randomCalls g |}.
Definition set_isAnimatingClear (v : bool) (g : Game) : Game :=
  {| grid := grid g; score := score g; level := level g; lines := lines g;
     highScore := highScore g; state := state g; dropCounter := dropCounter g;
     dropInterval := dropInterval g; lastTime := lastTime g; lockTimer := lockTimer g;
     isLocking := isLocking g; lockMoves := lockMoves g; player := player g;
     bag := bag g; nextPiece := nextPiece g; holdPiece := holdPiece g;
     canHold := canHold g; clearingLines := clearingLines g;
     clearAnimationFrame := clearAnimationFrame g; isAnimatingClear := v;
     random := random g; randomCalls := randomCalls g |}.
Definition set_randomCalls (v : nat) (g : Game) : Game :=
  {| grid := grid g; score := score g; level := level g; lines := lines g;
     highScore := highScore g; state := state g; dropCounter := dropCounter g;
     dropInterval := dropInterval g; lastTime := lastTime g; lockTimer := lockTimer g;
     isLocking := isLocking g; lockMoves := lockMoves g; player := player g;
     bag := bag g; nextPiece := nextPiece g; holdPiece := holdPiece g;
     canHold := canHold g; clearingLines := clearingLines g;
     clearAnimationFrame := clearAnimationFrame g;
     isAnimatingClear := isAnimatingClear g; random := random g; randomCalls := v |}.

(** ** 7-bag randomizer *)

(** [[a[i], a[j]] = [a[j], a[i]]]: both reads first, then the write to
    [a[i]], then the write to [a[j]].  The shuffle only uses indices inside
    the array; otherwise the list is left as it is. *)
Definition swapAt {A} (l : list A) (i j : nat) : list A :=
  match l !! i, l !! j with
  | Some a, Some b => <[j := a]> (<[i := b]> l)
  | _, _ => l
  end.

(** The Fisher-Yates loop [for (i = pieces.length - 1; i > 0; i--)].
    [Math.random()] lies in [[0, 1)], so [Math.floor(Math.random() * (i + 1))]
    ranges over exactly [0 .. i]; the [k]-th draw is [rnd k mod (i + 1)].
    Returns the shuffled array and the number of draws made so far. *)
Fixpoint shuffle (rnd : nat -> nat) (calls : nat) (pieces : list Kind.t)
    (i : nat) : list Kind.t * nat :=
  match i with
  | O => (pieces, calls)
  | S i' =>
      let j := (rnd calls mod (i + 1))%nat in
      shuffle rnd (S calls) (swapAt pieces i j) i'
  end.

Definition pieces : list Kind.t :=
  [Kind.I; Kind.L; Kind.J; Kind.O; Kind.T; Kind.S; Kind.Z].

Definition fillBag (g : Game) : Game :=
  let '(shuffled, calls) :=
    shuffle (random g) (randomCalls g) pieces (length pieces - 1) in
  set_randomCalls calls (set_bag (map TETROMINOS shuffled) g).

(** [bag.pop()]: the last element, [undefined] ([None]) on an empty array. *)
Definition getNextFromBag (g : Game) : option Tetromino * Game :=
  let g1 := match bag g with [] => fillBag g | _ => g end in
  (last (bag g1), set_bag (removelast (bag g1)) g1).

(** ** Drop interval (NES-style frame table) *)

Definition framesTable (level : Z) : option Z :=
  match level with
  | 0 => Some 48 | 1 => Some 48 | 2 => Some 43 | 3 => Some 38 | 4 => Some 33
  | 5 => Some 28 | 6 => Some 23 | 7 => Some 18 | 8 => Some 13 | 9 => Some 8
  | 10 => Some 6 | 11 => Some 5 | 12 => Some 5 | 13 => Some 5 | 14 => Some 4
  | 15 => Some 4 | 16 => Some 4 | 17 => Some 3 | 18 => Some 3 | 19 => Some 3
  | _ => None
  end.

Definition getDropInterval (level : Z) : Q :=
  let frames := default (if 19 <? level then 2 else 4) (framesTable level) in
  ((inject_Z frames / 60) * 1000)%Q.

(** ** Spawning *)

(** [Math.floor(COLS / 2) - Math.floor(matrix[0].length / 2)].  Every
    catalogue shape has a first row. *)
Definition spawnX (m : list (list Z)) : Z :=
  COLS / 2 - Z.of_nat (length (default [] (head m))) / 2.

Definition gameOver (g : Game) : Game :=
  let g1 := set_state GAMEOVER g in
  if score g1 >? highScore g1 then set_highScore (score g1) g1 else g1.

(** The piece object as [playerReset] and the swap branch of [hold] leave
    it: a fresh copy of the shape, centred on the top row, rotation 0. *)
Definition spawnPiece (t : Tetromino) : Player :=
  {| pos := (spawnX (shape t), 0); matrix := shape t; tetromino := t;
     rotationIndex := 0 |}.

(** [this.nextPiece || this.getNextFromBag()] yields a piece: [nextPiece]
    is a piece or the bag hands one out ([getNextFromBag_defined] below), so
    the [None] branch, where the source would fail reading [.shape] of
    [undefined], is never taken. *)
Definition playerReset (g : Game) : Game :=
  let '(t, g1) :=
    match nextPiece g with
    | Some t => (Some t, g)
    | None => getNextFromBag g
    end in
  match t with
  | None => g1
  | Some t =>
      let g2 := set_player (spawnPiece t) g1 in
      let '(n, g3) := getNextFromBag g2 in
      let g4 := set_nextPiece n g3 in
      let g5 := set_lockMoves 0 (set_lockTimer 0%Q (set_isLocking false g4)) in
      if collide (grid g5) (player g5) then gameOver g5 else g5
  end.

(** ** Player actions *)

Definition movedBy (dx dy : Z) (pl : Player) : Player :=
  setPos ((pos pl).1 + dx, (pos pl).2 + dy) pl.

(** Gravity drop, called by the game loop. *)
Definition playerDrop (g : Game) : Game :=
  let g1 := set_player (movedBy 0 1 (player g)) g in
  let g2 :=
    if collide (grid g1) (player g1) then
      let g' := set_player (movedBy 0 (-1) (player g1)) g1 in
      if negb (isLocking g') then set_lockTimer 0%Q (set_isLocking true g') else g'
    else set_lockTimer 0%Q (set_isLocking false g1) in
  set_dropCounter 0%Q g2.

(** Manual soft drop (down key). *)
Definition manualDrop (g : Game) : Game :=
  let g1 := set_player (movedBy 0 1 (player g)) g in
  let g2 :=
    if collide (grid g1) (player g1) then
      let g' := set_player (movedBy 0 (-1) (player g1)) g1 in
      if negb (isLocking g') then set_lockTimer 0%Q (set_isLocking true g') else g'
    else set_lockTimer 0%Q (set_isLocking false (set_score (score g1 + 1) g1)) in
  set_dropCounter 0%Q g2.

(** Move piece horizontally. *)
Definition playerMove (dir : Z) (g : Game) : Game :=
  let g1 := set_player (movedBy dir 0 (player g)) g in
  if collide (grid g1) (player g1) then
    set_player (movedBy (- dir) 0 (player g1)) g1
  else if isLocking g1 && (lockMoves g1 <? maxLockMoves) then
    set_lockMoves (lockMoves g1 + 1) (set_lockTimer 0%Q g1)
  else g1.

(** The [for (const [offsetX, offsetY] of kicks)] loop of [playerRotate],
    entered with the matrix already rotated: the first offset whose position
    does not collide is kept, and [None] stands for [success === false]. *)
Fixpoint tryKicks (arena : list (list cell)) (pl : Player)
    (kicks : list (Z * Z)) : option Player :=
  match kicks with
  | [] => None
  | (offsetX, offsetY) :: rest =>
      let pl' := movedBy offsetX (- offsetY) pl in
      if negb (collide arena pl') then Some pl' else tryKicks arena pl rest
  end.

(** Rotate piece with SRS wall kicks. *)
Definition playerRotate (dir : Z) (g : Game) : Game :=
  let currentRotation := rotationIndex (player g) in
  let rotated := setMatrix (rotate (matrix (player g)) dir) (player g) in
  let kicks := getKickData (id (tetromino rotated)) currentRotation dir in
  match tryKicks (grid g) rotated kicks with
  | Some pl' =>
      let g1 :=
        set_player (setRotationIndex (Z.rem (currentRotation + dir + 4) 4) pl') g in
      if isLocking g1 && (lockMoves g1 <? maxLockMoves) then
        set_lockMoves (lockMoves g1 + 1) (set_lockTimer 0%Q g1)
      else g1
  | None =>
      set_player (setMatrix (rotate (matrix rotated) (- dir)) rotated) g
  end.

(** Hold current piece. *)
Definition holdTetromino (g : Game) : Game :=
  if negb (canHold g) || negb (GAME_STATE_eqb (state g) PLAYING) then g
  else
    let g1 :=
      match holdPiece g with
      | None => playerReset (set_holdPiece (Some (tetromino (player g))) g)
      | Some held =>
          let temp := tetromino (player g) in
          set_player (spawnPiece held) (set_holdPiece (Some temp) g)
      end in
    set_canHold false g1.

Definition togglePause (g : Game) : Game :=
  match state g with
  | PLAYING => set_state PAUSED g
  | PAUSED => set_state PLAYING g
  | _ => g
  end.

(** ** Merge, sweep and line clear *)

(** What a handler that writes into the grid may end in. *)
Inductive stored :=
| Stored (arena : list (list cell))      (* every write done *)
| TypeError (arena : list (list cell))   (* [arena[r]] is [undefined]: the
                                            assignment throws; earlier writes stay *)
| OffRow.                                (* a column outside the row: see [storeCell] *)

(** [arena[r][c] = v].  A missing row makes the assignment throw.  A column
    outside the row would grow the JavaScript array or attach a property to
    it, after which the grid is no longer a table of cells; the embedding
    stops there with [OffRow], and [merge_in_bounds] below shows that the
    game never gets there. *)
Definition storeCell (arena : list (list cell)) (r c : Z) (v : cell) : stored :=
  match at_ arena r with
  | None => TypeError arena
  | Some row =>
      if (0 <=? c) && (c <? Z.of_nat (length row))
      then Stored (<[Z.to_nat r := <[Z.to_nat c := v]> row]> arena)
      else OffRow
  end.

(** [row.forEach((value, x) => ...)] of [merge]. *)
Fixpoint mergeCells (arena : list (list cell)) (cells : list Z)
    (x : nat) (r ox : Z) (colour : string) : stored :=
  match cells with
  | [] => Stored arena
  | v :: rest =>
      if v =? 0 then mergeCells arena rest (S x) r ox colour
      else
        match storeCell arena r (Z.of_nat x + ox) (Colour colour) with
        | Stored arena' => mergeCells arena' rest (S x) r ox colour
        | stop => stop
        end
  end.

(** [player.matrix.forEach((row, y) => ...)] of [merge]. *)
Fixpoint mergeRows (arena : list (list cell)) (rows : list (list Z))
    (y : nat) (o : Z * Z) (colour : string) : stored :=
  match rows with
  | [] => Stored arena
  | row :: rest =>
      match mergeCells arena row 0 (Z.of_nat y + o.2) o.1 colour with
      | Stored arena' => mergeRows arena' rest (S y) o colour
      | stop => stop
      end
  end.

Definition merge (arena : list (list cell)) (player : Player) : stored :=
  mergeRows arena (matrix player) 0 (pos player) (color (tetromino player)).

(** [row.every(cell => cell !== 0)] *)
Definition isFull (row : list cell) : bool :=
  forallb (fun c => negb (isZero c)) row.

(** The loop [for (y = grid.length - 1; y >= 0; y--)] of [arenaSweep],
    about to visit rows [y - 1], [y - 2], ..., [0]. *)
Fixpoint sweepFrom (arena : list (list cell)) (y : nat) : list nat :=
  match y with
  | O => []
  | S y' =>
      match arena !! y' with
      | Some row => if isFull row then y' :: sweepFrom arena y' else sweepFrom arena y'
      | None => sweepFrom arena y'
      end
  end.

Definition arenaSweep (g : Game) : Game :=
  let g1 := set_clearingLines (sweepFrom (grid g) (length (grid g))) g in
  match clearingLines g1 with
  | [] => g1
  | _ => set_clearAnimationFrame 0 (set_isAnimatingClear true g1)
  end.

(** [lineScores[rowCount] || 100] *)
Definition lineScores (rowCount : nat) : Z :=
  match rowCount with
  | 1%nat => 100 | 2%nat => 300 | 3%nat => 500 | 4%nat => 800
  | _ => 100
  end.

(** [Array(COLS).fill(0)] *)
Definition emptyRow : list cell := replicate (Z.to_nat COLS) Zero.

(** [clearingLines.sort((a, b) => b - a)]: [a] stays before [b] when
    [b - a <= 0], which gives descending order. *)
Definition staysBefore (a b : nat) : Prop := (b <= a)%nat.

#[global] Instance staysBefore_dec : RelDecision staysBefore :=
  fun a b => decide (b <= a)%nat.

Definition sortDescending (l : list nat) : list nat :=
  merge_sort staysBefore l.

(** The body of the [for (const y of this.clearingLines)] loop:
    [grid.splice(y, 1); grid.unshift(Array(COLS).fill(0))]. *)
Definition clearRow (arena : list (list cell)) (y : nat) : list (list cell) :=
  emptyRow :: delete y arena.

(** Complete line clear after animation. *)
Definition completeClear (g : Game) : Game :=
  let rowCount := length (clearingLines g) in
  let g1 := set_clearingLines (sortDescending (clearingLines g)) g in
  let g2 := set_grid (foldl clearRow (grid g1) (clearingLines g1)) g1 in
  let g3 := set_lines (lines g2 + Z.of_nat rowCount) g2 in
  let g4 := set_score (score g3 + lineScores rowCount * level g3) g3 in
  let newLevel := lines g4 / 10 + 1 in
  let g5 :=
    if newLevel >? level g4
    then set_dropInterval (getDropInterval newLevel) (set_level newLevel g4)
    else g4 in
  set_isAnimatingClear false (set_clearingLines [] g5).

(** ** Handlers that may not return *)

Inductive outcome :=
| Returns (g : Game)     (* ran to completion *)
| Throws (g : Game)      (* aborted by a [TypeError]; the writes made so far stay *)
| OffGrid                (* a write outside a grid row ([OffRow]) *)
| Diverges.              (* the [while] loop of the hard drop never ends *)

(** Lock piece and spawn new one. *)
Definition lockPiece (g : Game) : outcome :=
  match merge (grid g) (player g) with
  | Stored arena =>
      Returns (playerReset (set_canHold true (arenaSweep (set_grid arena g))))
  | TypeError arena => Throws (set_grid arena g)
  | OffRow => OffGrid
  end.

(** [while (!collide(grid, player)) { player.pos.y++; dropped++; }] with a
    bound on the number of advances; [None] when the bound is used up. *)
Fixpoint dropLoop (fuel : nat) (arena : list (list cell)) (pl : Player)
    (dropped : Z) : option (Player * Z) :=
  if collide arena pl then Some (pl, dropped)
  else
    match fuel with
    | O => None
    | S fuel' => dropLoop fuel' arena (movedBy 0 1 pl) (dropped + 1)
    end.

(** Hard drop (space key).  One advance per grid row is enough for the loop
    to meet the floor whenever the matrix has an occupied cell
    ([dropLoop_enough_fuel]); with no occupied cell the source loops for
    ever ([dropLoop_blank]). *)
Definition playerHardDrop (g : Game) : outcome :=
  match dropLoop (length (grid g)) (grid g) (player g) 0 with
  | None => Diverges
  | Some (pl, dropped) =>
      let g1 := set_player (movedBy 0 (-1) pl) g in
      let g2 := set_score (score g1 + Z.max 0 (dropped - 1) * 2) g1 in
      lockPiece g2
  end.

(** ** Game loop *)

(** One call of [update(time)]. *)
Definition update (time : Q) (g : Game) : outcome :=
  let deltaTime := (time - lastTime g)%Q in
  let g1 := set_lastTime time g in
  if GAME_STATE_eqb (state g1) PLAYING then
    if isAnimatingClear g1 then
      let g2 := set_clearAnimationFrame (clearAnimationFrame g1 + 1) g1 in
      if 18 <=? clearAnimationFrame g2 then Returns (completeClear g2) else Returns g2
    else
      let g2 := set_dropCounter (dropCounter g1 + deltaTime)%Q g1 in
      let g3 :=
        if negb (Qle_bool (dropCounter g2) (dropInterval g2)) then playerDrop g2
        else g2 in
      if isLocking g3 then
        let g4 := set_lockTimer (lockTimer g3 + deltaTime)%Q g3 in
        if Qle_bool lockDelay (lockTimer g4) then lockPiece g4 else Returns g4
      else Returns g3
  else Returns g1.

(** ** Session *)

Definition start (startLevel : Z) (g : Game) : Game :=
  let g1 := set_grid createGrid g in
  let g2 := set_level startLevel (set_lines 0 (set_score 0 g1)) in
  let g3 := set_dropInterval (getDropInterval (level g2)) g2 in
  let g4 := set_canHold true (set_holdPiece None (set_bag [] g3)) in
  let g5 := set_clearingLines [] (set_isAnimatingClear false g4) in
  let g6 := fillBag g5 in
  let '(n, g7) := getNextFromBag g6 in
  let g8 := playerReset (set_nextPiece n g7) in
  set_state PLAYING g8.

Definition reset (g : Game) : Game :=
  let g1 := set_level 1 (set_lines 0 (set_score 0 (set_grid createGrid g))) in
  let g2 := set_bag [] (set_holdPiece None g1) in
  set_clearingLines [] (set_isAnimatingClear false g2).

(** ** Keyboard dispatch of the controls module

    The [keydown] listener of [setupKeyboardControls]; [slider] is the value
    of the level slider that the start button reads. *)
Definition keydown (keyCode : Z) (slider : Z) (g : Game) : outcome :=
  match state g with
  | MENU => if keyCode =? 13 then Returns (start slider g) else Returns g
  | PAUSED =>
      if (keyCode =? 80) || (keyCode =? 27) then Returns (togglePause g)
      else Returns g
  | GAMEOVER => if keyCode =? 82 then Returns (start 1 (reset g)) else Returns g
  | PLAYING =>
      match keyCode with
      | 37 => Returns (playerMove (-1) g)
      | 39 => Returns (playerMove 1 g)
      | 40 => Returns (manualDrop g)
      | 38 | 88 => Returns (playerRotate 1 g)
      | 90 | 17 => Returns (playerRotate (-1) g)
      | 32 => playerHardDrop g
      | 67 => Returns (holdTetromino g)
      | 80 | 27 => Returns (togglePause g)
      | _ => Returns g
      end
  end.

(** * Vocabulary of the properties *)

(** ** Matrices, grids and positions *)

(** An [n] by [n] matrix, as every catalogue shape is. *)
Definition square {A} (n : nat) (m : list (list A)) : Prop :=
  length m = n /\ Forall (fun row => length row = n) m.

(** The matrix has a non-zero value at row [r], column [c]. *)
Definition occupied (m : list (list Z)) (r c : nat) : Prop :=
  exists v, cellAt m r c = Some v /\ v <> 0.

(** The grid is a table of [ROWS] rows of [COLS] cells. *)
Definition gridOk (arena : list (list cell)) : Prop :=
  length arena = Z.to_nat ROWS /\
  Forall (fun row => length row = Z.to_nat COLS) arena.

(** [arena[r][c]], [None] when the row or the cell is [undefined]. *)
Definition gridAt (arena : list (list cell)) (r c : Z) : option cell :=
  row ← at_ arena r; at_ row c.

(** The outcome of a sequence of writes into a [ROWS] by [COLS] grid whose
    columns are all inside the grid: the grid keeps its dimensions, and a
    [TypeError] is only met under condition [P]. *)
Definition writesOk (res : stored) (P : Prop) : Prop :=
  match res with
  | Stored arena => gridOk arena
  | TypeError arena => gridOk arena /\ P
  | OffRow => False
  end.

(** The piece [k] rows below where it is. *)
Definition fallenBy (k : nat) (pl : Player) : Player :=
  setPos ((pos pl).1, (pos pl).2 + Z.of_nat k) pl.

(** ** Operations seen from outside *)

(** The kick offset that the loop of [playerRotate] settles on: the first
    candidate whose position is free ([tryKicks] returns the piece moved
    by it, see [tryKicks_firstFit]). *)
Fixpoint firstFit (arena : list (list cell)) (pl : Player)
    (kicks : list (Z * Z)) : option (Z * Z) :=
  match kicks with
  | [] => None
  | kick :: rest =>
      if negb (collide arena (movedBy kick.1 (- kick.2) pl)) then Some kick
      else firstFit arena pl rest
  end.

(** The offset that [playerRotate dir] applies in state [g]; [None] when
    every candidate collides and the rotation fails. *)
Definition rotationFit (dir : Z) (g : Game) : option (Z * Z) :=
  firstFit (grid g)
    (setMatrix (rotate (matrix (player g)) dir) (player g))
    (getKickData (id (tetromino (player g))) (rotationIndex (player g)) dir).

(** [n] consecutive calls of [getNextFromBag]: the pieces handed out, in
    order, and the game afterwards. *)
Fixpoint draws (n : nat) (g : Game) : list (option Tetromino) * Game :=
  match n with
  | O => ([], g)
  | S n' =>
      let '(t, g1) := getNextFromBag g in
      let '(ts, g2) := draws n' g1 in
      (t :: ts, g2)
  end.

(** Moves and rotations requested while a piece is in play. *)
Inductive input := Move (dir : Z) | Rotate (dir : Z).

Definition applyInput (g : Game) (i : input) : Game :=
  match i with
  | Move dir => playerMove dir g
  | Rotate dir => playerRotate dir g
  end.

Definition applyInputs (inputs : list input) (g : Game) : Game :=
  foldl applyInput g inputs.

(** The game after a key press (the state that the handler leaves, also
    when it throws). *)
Definition pressKey (keyCode : Z) (g : Game) : Game :=
  match keydown keyCode 1 g with
  | Returns g' | Throws g' => g'
  | _ => g
  end.

(** ** The line clear that the specification describes

    Follows the words of the specification, not the code: the listed rows
    are removed, the remaining rows keep their order, and as many empty rows
    as were removed are put on top. *)
Definition keptRows (arena : list (list cell)) (rows : list nat) : list (list cell) :=
  (filter (fun p => p.1 ∉ rows) (zip (seq 0 (length arena)) arena)).*2.

Definition expectedClear (arena : list (list cell)) (rows : list nat)
  : list (list cell) :=
  replicate (length rows) emptyRow ++ keptRows arena rows.

(** ** Reachable states *)

(** The core operations, in any order and with any arguments: the methods
    that the controls and the game loop call, the steps of the game loop on
    their own ([OpPlayerDrop], [OpLockPiece], [OpCompleteClear]), a key press
    dispatched by the controls, and the end of the start countdown, which
    sets the state to [PLAYING].  Rotations are requested with [dir = 1]
    ([clockwise]) or [dir = -1], as the controls do. *)
Inductive op :=
| OpStart (startLevel : Z)
| OpReset
| OpPlayerMove (dir : Z)
| OpPlayerRotate (clockwise : bool)
| OpManualDrop
| OpPlayerDrop
| OpPlayerHardDrop
| OpHoldTetromino
| OpTogglePause
| OpUpdate (time : Q)
| OpLockPiece
| OpCompleteClear
| OpKeyDown (keyCode slider : Z)
| OpCountdownEnd.

Definition perform (o : op) (g : Game) : outcome :=
  match o with
  | OpStart startLevel => Returns (start startLevel g)
  | OpReset => Returns (reset g)
  | OpPlayerMove dir => Returns (playerMove dir g)
  | OpPlayerRotate clockwise => Returns (playerRotate (if clockwise then 1 else -1) g)
  | OpManualDrop => Returns (manualDrop g)
  | OpPlayerDrop => Returns (playerDrop g)
  | OpPlayerHardDrop => playerHardDrop g
  | OpHoldTetromino => Returns (holdTetromino g)
  | OpTogglePause => Returns (togglePause g)
  | OpUpdate time => update time g
  | OpLockPiece => lockPiece g
  | OpCompleteClear => Returns (completeClear g)
  | OpKeyDown keyCode slider => keydown keyCode slider g
  | OpCountdownEnd => Returns (set_state PLAYING g)
  end.

(** The states of a session: what [start] leaves, from any earlier object,
    and what any operation leaves from there, whether it returns or throws. *)
Inductive reachable : Game -> Prop :=
| reach_start g0 startLevel : reachable (start startLevel g0)
| reach_returns g o g' :
    reachable g -> perform o g = Returns g' -> reachable g'
| reach_throws g o g' :
    reachable g -> perform o g = Throws g' -> reachable g'.

(** A piece object of the catalogue. *)
Definition catalogue (t : Tetromino) : Prop := exists k, t = TETROMINOS k.

(** The active piece: a square matrix with an occupied cell, every occupied
    cell over a column of the grid. *)
Definition pieceOk (pl : Player) : Prop :=
  (exists n, square n (matrix pl)) /\
  (exists r c, occupied (matrix pl) r c) /\
  (forall r c, occupied (matrix pl) r c ->
               0 <= Z.of_nat c + (pos pl).1 < COLS).

(** The session around the piece: the grid is a table, the rows listed for
    clearing are rows of the grid, and the queue, the hold slot and the bag
    hold catalogue pieces. *)
Definition sessionOk (g : Game) : Prop :=
  gridOk (grid g) /\
  Forall (fun y => (y < length (grid g))%nat) (clearingLines g) /\
  (forall t, nextPiece g = Some t -> catalogue t) /\
  (forall t, holdPiece g = Some t -> catalogue t) /\
  Forall catalogue (bag g).

(** What every reachable state satisfies. *)
Definition invariant (g : Game) : Prop :=
  sessionOk g /\ pieceOk (player g) /\ catalogue (tetromino (player g)).

(** ** Concrete sessions used as inputs *)

(** The object that the constructor leaves.  The constructor leaves the
    piece unset and [start] overwrites it, so any piece will do here. *)
Definition newGame (rnd : nat -> nat) : Game :=
  {| grid := createGrid; score := 0; level := 1; lines := 0; highScore := 0;
     state := MENU; dropCounter := 0%Q; dropInterval := 1000%Q;
     lastTime := 0%Q; lockTimer := 0%Q; isLocking := false; lockMoves := 0;
     player := spawnPiece (TETROMINOS Kind.I); bag := []; nextPiece := None;
     holdPiece := None; canHold := true; clearingLines := [];
     clearAnimationFrame := 0; isAnimatingClear := false;
     random := rnd; randomCalls := 0%nat |}.

(** A session started at level 1 in which every random draw is 0: the
    first piece is the I piece at [(3, 0)], the next one is Z. *)
Definition started : Game := start 1 (newGame (fun _ => 0%nat)).

(** The empty grid with grey blocks stored at the listed (row, column)s. *)
Definition withBlocks (blocks : list (nat * nat)) : list (list cell) :=
  foldl (fun arena b => setCell arena b.1 b.2 (Colour "#808080")) createGrid blocks.

(** The I piece lying on row 10, columns 3..6, with blocks around it that
    leave room to stand it up but none to turn it further. *)
Definition caged : Game :=
  set_grid (withBlocks [(11, 4); (11, 6); (9, 4); (12, 6)]%nat)
    (set_player (setPos (3, 9) (player started)) started).

(** [started] played to the end from the keyboard: ten hard drops, the T
    piece shifted one column to the right and hard-dropped.  The O piece
    that spawns next collides at [(4, 0)], so the game is over. *)
Definition toppedOut : Game :=
  pressKey 32 (pressKey 39 (Nat.iter 10 (pressKey 32) started)).

(** [started] after 19 gravity steps: the I piece rests on the floor at
    [(3, 18)] and the last step has armed the lock delay. *)
Definition grounded : Game := Nat.iter 19 playerDrop started.

(** [grounded] after fifteen successful moves, right and left in turn: the
    move-reset counter has reached its cap. *)
Definition capped : Game :=
  applyInputs
    [Move 1; Move (-1); Move 1; Move (-1); Move 1; Move (-1); Move 1; Move (-1);
     Move 1; Move (-1); Move 1; Move (-1); Move 1; Move (-1); Move 1]
    grounded.

(** A grid row filled from column [from] to column [to] (exclusive). *)
Definition filledRow (from to : nat) : list cell :=
  replicate from Zero ++ replicate (to - from) (Colour "#808080")
  ++ replicate (Z.to_nat COLS - to) Zero.

(** A stack whose rows 14 and 17 lack only column 9, with rows 15 and 16
    open at columns 0 and 9 and a single block on row 13. *)
Definition stack : list (list cell) :=
  replicate 13 emptyRow ++
  [filledRow 4 5; filledRow 0 9; filledRow 1 9; filledRow 1 9; filledRow 0 9;
   filledRow 1 10; filledRow 1 10].

(** The first piece of [started], the I piece, over that stack, stood
    upright and moved to the right edge: it hangs above column 9, and a hard
    drop puts it on rows 14..17, completing rows 14 and 17 at once. *)
Definition aboveStack : Game :=
  applyInputs [Rotate 1; Move 1; Move 1; Move 1; Move 1] (set_grid stack started).




(** ** Vocabulary of the further properties *)

(** The offsets of a kick list turned round: what undoes a kick. *)
Definition oppositeKicks (kicks : list (Z * Z)) : list (Z * Z) :=
  (fun kick => (- kick.1, - kick.2)) <$> kicks.

(** The shape turned clockwise [k] times. *)
Definition turned (k : nat) (m : list (list Z)) : list (list Z) :=
  Nat.iter k (fun m => rotate m 1) m.

(** [matrix[r][c] !== 0] as a test, [false] where the matrix has no such
    cell. *)
Definition filledAt (m : list (list Z)) (r c : Z) : bool :=
  match row ← at_ m r; at_ row c with
  | Some v => negb (v =? 0)
  | None => false
  end.

(** Row numbers from the bottom of the grid upwards. *)
Definition descending (rows : list nat) : Prop :=
  StronglySorted (fun a b => (b < a)%nat) rows.

(** The frames of the game loop at the listed times, one after the other;
    a frame that does not return ends the run. *)
Fixpoint runFrames (times : list Q) (g : Game) : outcome :=
  match times with
  | [] => Returns g
  | time :: rest =>
      match update time g with
      | Returns g' => runFrames rest g'
      | stop => stop
      end
  end.

(** The counters and the queue of a session agree with its piece: the
    move-reset counter is within its cap, the rotation index says how far
    the matrix is turned from the catalogue shape, a next piece is queued
    and the bag holds no kind twice. *)
Definition consistent (g : Game) : Prop :=
  0 <= lockMoves g <= maxLockMoves /\
  (exists k, (k < 4)%nat /\ rotationIndex (player g) = Z.of_nat k /\
             matrix (player g) = turned k (shape (tetromino (player g)))) /\
  is_Some (nextPiece g) /\
  NoDup (id <$> bag g).

(** The high score across an operation: it does not drop, and a game that
    has just ended has its score counted in. *)
Definition highScoreKept (g g' : Game) : Prop :=
  highScore g <= highScore g' /\
  (state g' = GAMEOVER -> state g <> GAMEOVER -> score g' <= highScore g').

(** * Facts about the embedding *)

(** ** Square matrices and rotation *)

Section MatrixFacts.
Context {A : Type}.
Implicit Types (m : list (list A)) (n i j r c x y : nat).

Lemma cellAt_square n m i j :
  square n m -> (i < n)%nat -> (j < n)%nat -> is_Some (cellAt m i j).
Proof.
  intros [Hl Hr] Hi Hj. unfold cellAt.
  destruct (lookup_lt_is_Some_2 m i) as [row Hrow]; [lia|].
  rewrite Hrow. simpl. apply lookup_lt_is_Some_2.
  rewrite Forall_lookup in Hr. rewrite (Hr _ _ Hrow). lia.
Qed.

Lemma cellAt_outside n m i j :
  square n m -> (n <= i)%nat \/ (n <= j)%nat -> cellAt m i j = None.
Proof.
  intros [Hl Hr] Hij. unfold cellAt.
  destruct (m !! i) as [row|] eqn:Hrow; [|done]. simpl.
  apply lookup_ge_None. rewrite Forall_lookup in Hr. rewrite (Hr _ _ Hrow).
  apply lookup_lt_Some in Hrow. lia.
Qed.

(** Two square matrices with the same cells are the same list of rows. *)
Lemma square_ext n m1 m2 :
  square n m1 -> square n m2 ->
  (forall i j, (i < n)%nat -> (j < n)%nat -> cellAt m1 i j = cellAt m2 i j) ->
  m1 = m2.
Proof.
  intros H1 H2 Hc. apply list_eq. intros i.
  destruct (decide (i < n)%nat) as [Hi|Hi].
  - destruct H1 as [Hl1 Hr1], H2 as [Hl2 Hr2].
    destruct (lookup_lt_is_Some_2 m1 i) as [r1 Hr1i]; [lia|].
    destruct (lookup_lt_is_Some_2 m2 i) as [r2 Hr2i]; [lia|].
    rewrite Hr1i, Hr2i. f_equal. apply list_eq. intros j.
    rewrite Forall_lookup in Hr1, Hr2.
    destruct (decide (j < n)%nat) as [Hj|Hj].
    + specialize (Hc i j Hi Hj). unfold cellAt in Hc.
      rewrite Hr1i, Hr2i in Hc. exact Hc.
    + rewrite !(proj2 (lookup_ge_None _ _)); [done| |].
      * rewrite (Hr2 _ _ Hr2i). lia.
      * rewrite (Hr1 _ _ Hr1i). lia.
  - destruct H1 as [Hl1 _], H2 as [Hl2 _].
    rewrite !(proj2 (lookup_ge_None _ _)); [done|lia|lia].
Qed.

Lemma setCell_square n m r c v : square n m -> square n (setCell m r c v).
Proof.
  intros [Hl Hr]. split.
  - unfold setCell. by rewrite length_alter.
  - unfold setCell. rewrite Forall_lookup in Hr. apply Forall_lookup.
    intros i row. rewrite list_lookup_alter. case_decide.
    + subst. destruct (m !! i) as [row'|] eqn:E; [|done]. simpl.
      intros [= <-]. rewrite length_insert. eauto.
    + eauto.
Qed.

Lemma cellAt_setCell n m r c v i j :
  square n m -> (r < n)%nat -> (c < n)%nat ->
  cellAt (setCell m r c v) i j =
  if decide (i = r /\ j = c) then Some v else cellAt m i j.
Proof.
  intros Hsq Hr Hc. unfold cellAt, setCell.
  rewrite list_lookup_alter.
  destruct Hsq as [Hl Hrows]. rewrite Forall_lookup in Hrows.
  destruct (decide (r = i)) as [->|Hne].
  - destruct (m !! i) as [row|] eqn:E.
    + simpl. rewrite list_lookup_insert. rewrite (Hrows _ _ E).
      repeat case_decide; try done; lia.
    + apply lookup_ge_None in E. lia.
  - case_decide; [lia|done].
Qed.

Lemma swapCells_square n m x y : square n m -> square n (swapCells m x y).
Proof.
  intros H. unfold swapCells.
  destruct (cellAt m y x), (cellAt m x y); auto using setCell_square.
Qed.

(** A swap exchanges the cells [(x, y)] and [(y, x)] and leaves the others. *)
Lemma cellAt_swapCells n m x y i j :
  square n m -> (x < n)%nat -> (y < n)%nat ->
  cellAt (swapCells m x y) i j =
  if decide (i = x /\ j = y) then cellAt m y x
  else if decide (i = y /\ j = x) then cellAt m x y
  else cellAt m i j.
Proof.
  intros Hsq Hx Hy. unfold swapCells.
  destruct (cellAt_square n m y x Hsq Hy Hx) as [a Ha].
  destruct (cellAt_square n m x y Hsq Hx Hy) as [b Hb].
  rewrite Ha, Hb.
  rewrite (cellAt_setCell n); [|by apply setCell_square|done|done].
  rewrite (cellAt_setCell n); [|done|done|done].
  repeat case_decide; try done; try lia.
  all: destruct_and?; simplify_eq; congruence.
Qed.


Lemma transposeRow_steps n m y t :
  square n m -> (y < n)%nat -> (t <= y)%nat ->
  let m' := foldl (fun m x => swapCells m x y) m (seq 0 t) in
  square n m' /\
  forall i j,
    cellAt m' i j =
    if decide (j = y /\ (i < t)%nat) then cellAt m y i
    else if decide (i = y /\ (j < t)%nat) then cellAt m j y
    else cellAt m i j.
Proof.
  intros Hsq Hy. induction t as [|t IH]; intros Ht; cbv zeta.
  - split; [done|]. intros i j. simpl. repeat case_decide; try done; lia.
  - rewrite seq_S, foldl_app. simpl.
    destruct IH as [Hsq' Hcells]; [lia|]. split.
    + by apply swapCells_square.
    + intros i j. rewrite (cellAt_swapCells n); [|done|lia|done].
      rewrite !Hcells.
      repeat case_decide; try done; try lia; f_equal; lia.
Qed.

Lemma transposeRow_square n m y :
  square n m -> (y < n)%nat -> square n (transposeRow m y).
Proof. intros Hsq Hy. by apply (transposeRow_steps n m y y). Qed.

Lemma cellAt_transposeRow n m y i j :
  square n m -> (y < n)%nat ->
  cellAt (transposeRow m y) i j =
  if decide (j = y /\ (i < y)%nat) then cellAt m y i
  else if decide (i = y /\ (j < y)%nat) then cellAt m j y
  else cellAt m i j.
Proof. intros Hsq Hy. by apply (transposeRow_steps n m y y). Qed.

Lemma transpose_steps n m k :
  square n m -> (k <= n)%nat ->
  let m' := foldl transposeRow m (seq 0 k) in
  square n m' /\
  forall i j,
    cellAt m' i j =
    if decide ((i < k)%nat /\ (j < k)%nat) then cellAt m j i else cellAt m i j.
Proof.
  intros Hsq. induction k as [|k IH]; intros Hk; cbv zeta.
  - split; [done|]. intros i j. simpl. repeat case_decide; try done; lia.
  - rewrite seq_S, foldl_app. simpl.
    destruct IH as [Hsq' Hcells]; [lia|]. split.
    + by apply transposeRow_square.
    + intros i j. rewrite (cellAt_transposeRow n); [|done|lia].
      rewrite !Hcells.
      repeat case_decide; try done; try lia; f_equal; lia.
Qed.

Lemma transpose_square n m : square n m -> square n (transpose m).
Proof.
  intros Hsq. unfold transpose. rewrite (proj1 Hsq).
  by apply (transpose_steps n m n).
Qed.

(** The in-place loops compute the transposed matrix. *)
Lemma cellAt_transpose n m i j :
  square n m -> (i < n)%nat -> (j < n)%nat ->
  cellAt (transpose m) i j = cellAt m j i.
Proof.
  intros Hsq Hi Hj. unfold transpose. rewrite (proj1 Hsq).
  destruct (transpose_steps n m n Hsq) as [_ ->]; [lia|].
  case_decide; [done|lia].
Qed.

Lemma rotate_square n m dir : square n m -> square n (rotate m dir).
Proof.
  intros Hsq. apply transpose_square in Hsq. destruct Hsq as [Hl Hr].
  unfold rotate. case_match; split.
  - by rewrite length_map.
  - apply Forall_fmap. eapply Forall_impl; [exact Hr|].
    intros row Hrow. simpl. by rewrite length_reverse.
  - by rewrite length_reverse.
  - by apply Forall_reverse.
Qed.

(** Clockwise: new cell [(i, j)] is old cell [(n - 1 - j, i)]. *)
Lemma cellAt_rotate_cw n m dir i j :
  square n m -> 0 < dir -> (i < n)%nat -> (j < n)%nat ->
  cellAt (rotate m dir) i j = cellAt m (n - 1 - j) i.
Proof.
  intros Hsq Hd Hi Hj. unfold rotate.
  rewrite (proj2 (Z.ltb_lt 0 dir) Hd).
  rewrite <- (cellAt_transpose n m); [|done|done|lia].
  pose proof (transpose_square n m Hsq) as [Hl Hr].
  unfold cellAt. rewrite list_lookup_fmap.
  destruct (transpose m !! i) as [row|] eqn:E; [|done]. simpl.
  rewrite Forall_lookup in Hr. specialize (Hr _ _ E).
  rewrite reverse_lookup; [|lia]. f_equal. lia.
Qed.

(** Counter-clockwise: new cell [(i, j)] is old cell [(j, n - 1 - i)]. *)
Lemma cellAt_rotate_ccw n m dir i j :
  square n m -> dir <= 0 -> (i < n)%nat -> (j < n)%nat ->
  cellAt (rotate m dir) i j = cellAt m j (n - 1 - i).
Proof.
  intros Hsq Hd Hi Hj. unfold rotate.
  rewrite (proj2 (Z.ltb_ge 0 dir) Hd).
  rewrite <- (cellAt_transpose n m); [|done|lia|done].
  pose proof (transpose_square n m Hsq) as [Hl Hr].
  unfold cellAt. rewrite reverse_lookup; [|lia].
  rewrite Hl. do 2 f_equal. lia.
Qed.

(** Turning back undoes a turn. *)
Lemma rotate_back n m dir :
  square n m -> dir <> 0 -> rotate (rotate m dir) (- dir) = m.
Proof.
  intros Hsq Hd. apply (square_ext n); [by do 2 apply rotate_square|done|].
  intros i j Hi Hj.
  destruct (decide (0 < dir)) as [Hpos|Hneg].
  - rewrite (cellAt_rotate_ccw n); [|by apply rotate_square|lia|done|done].
    rewrite (cellAt_rotate_cw n); [|done|done|done|lia]. f_equal. lia.
  - rewrite (cellAt_rotate_cw n); [|by apply rotate_square|lia|done|done].
    rewrite (cellAt_rotate_ccw n); [|done|lia|lia|done]. f_equal. lia.
Qed.

(** Four turns in one direction restore the matrix. *)
Lemma rotate_four n m dir :
  square n m -> rotate (rotate (rotate (rotate m dir) dir) dir) dir = m.
Proof.
  intros Hsq. apply (square_ext n); [by do 4 apply rotate_square|done|].
  intros i j Hi Hj.
  destruct (decide (0 < dir)) as [Hpos|Hneg].
  - rewrite (cellAt_rotate_cw n); [|by do 3 apply rotate_square|done|done|done].
    rewrite (cellAt_rotate_cw n); [|by do 2 apply rotate_square|done|lia|done].
    rewrite (cellAt_rotate_cw n); [|by apply rotate_square|done|lia|lia].
    rewrite (cellAt_rotate_cw n); [|done|done|lia|lia].
    f_equal; lia.
  - rewrite (cellAt_rotate_ccw n); [|by do 3 apply rotate_square|lia|done|done].
    rewrite (cellAt_rotate_ccw n); [|by do 2 apply rotate_square|lia|done|lia].
    rewrite (cellAt_rotate_ccw n); [|by apply rotate_square|lia|lia|lia].
    rewrite (cellAt_rotate_ccw n); [|done|lia|lia|lia].
    f_equal; lia.
Qed.

End MatrixFacts.

(** ** Collision *)

Lemma collideCells_true arena cells x r ox :
  collideCells arena cells x r ox = true <->
  exists k v, cells !! k = Some v /\ v <> 0 /\
              blocked arena r (Z.of_nat (x + k) + ox) = true.
Proof.
  revert x. induction cells as [|v rest IH]; intros x; simpl.
  - split; [done|]. by intros (k & w & Hk & _).
  - rewrite orb_true_iff, andb_true_iff, negb_true_iff, Z.eqb_neq, IH. split.
    + intros [[Hv Hb]|(k & w & Hk & Hw & Hb)].
      * exists 0%nat, v. by rewrite Nat.add_0_r.
      * exists (S k), w. by rewrite Nat.add_succ_r.
    + intros ([|k] & w & Hk & Hw & Hb); simpl in Hk.
      * left. injection Hk as ->. by rewrite Nat.add_0_r in Hb.
      * right. exists k, w. by rewrite Nat.add_succ_r in Hb.
Qed.

Lemma collideRows_true arena rows y o :
  collideRows arena rows y o = true <->
  exists r c, occupied rows r c /\
              blocked arena (Z.of_nat (y + r) + o.2) (Z.of_nat c + o.1) = true.
Proof.
  revert y. induction rows as [|row rest IH]; intros y; simpl.
  - split; [done|]. by intros (r & c & (v & Hv & _) & _).
  - rewrite orb_true_iff, collideCells_true, IH. split.
    + intros [(k & v & Hk & Hv & Hb)|(r & c & (v & Hc & Hv) & Hb)].
      * exists 0%nat, k. split; [by exists v|]. by rewrite Nat.add_0_r.
      * exists (S r), c. split; [by exists v|]. by rewrite Nat.add_succ_r.
    + intros ([|r] & c & (v & Hc & Hv) & Hb).
      * left. exists c, v. by rewrite Nat.add_0_r in Hb.
      * right. exists r, c. split; [by exists v|]. by rewrite Nat.add_succ_r in Hb.
Qed.

(** [collide] answers [true] exactly when an occupied cell of the matrix
    lands on a blocked grid position. *)
Lemma collide_true arena pl :
  collide arena pl = true <->
  exists r c, occupied (matrix pl) r c /\
              blocked arena (Z.of_nat r + (pos pl).2) (Z.of_nat c + (pos pl).1) = true.
Proof. unfold collide. by rewrite collideRows_true. Qed.

Lemma collide_false arena pl :
  collide arena pl = false <->
  forall r c, occupied (matrix pl) r c ->
              blocked arena (Z.of_nat r + (pos pl).2) (Z.of_nat c + (pos pl).1) = false.
Proof.
  rewrite <- not_true_iff_false, collide_true. split.
  - intros Hn r c Hocc. apply not_true_iff_false. intros Hb. apply Hn. eauto.
  - intros Hall (r & c & Hocc & Hb). rewrite (Hall r c Hocc) in Hb. done.
Qed.

(** ** The grid as a table *)

Lemma at_Some {A} (l : list A) i :
  is_Some (at_ l i) <-> 0 <= i < Z.of_nat (length l).
Proof.
  unfold at_. destruct (Z.ltb_spec i 0).
  - split; [by intros [? ?]|lia].
  - rewrite lookup_lt_is_Some. lia.
Qed.

Lemma gridAt_Some arena r c :
  gridOk arena -> (is_Some (gridAt arena r c) <-> 0 <= r < ROWS /\ 0 <= c < COLS).
Proof.
  intros [Hl Hr]. unfold gridAt.
  destruct (at_ arena r) as [row|] eqn:E; simpl.
  - assert (Hin : is_Some (at_ arena r)) by (by rewrite E).
    apply at_Some in Hin. rewrite at_Some.
    assert (length row = Z.to_nat COLS) as ->.
    { unfold at_ in E. case_match; [done|].
      rewrite Forall_lookup in Hr. eauto. }
    rewrite Hl in Hin. unfold ROWS, COLS in *. lia.
  - split; [by intros [? ?]|]. intros [Hr' _].
    assert (Hin : is_Some (at_ arena r)) by (apply at_Some; unfold ROWS in *; lia).
    rewrite E in Hin. by destruct Hin.
Qed.

Lemma blocked_true arena r c :
  gridOk arena ->
  (blocked arena r c = true <->
   c < 0 \/ COLS <= c \/ r < 0 \/ ROWS <= r \/
   exists colour, gridAt arena r c = Some (Colour colour)).
Proof.
  intros Hok. pose proof (gridAt_Some arena r c Hok) as Hin.
  unfold blocked, gridAt in *.
  destruct (at_ arena r) as [row|]; simpl in *.
  - destruct (at_ row c) as [[|colour]|]; simpl.
    + split; [done|]. intros Hc.
      assert (0 <= r < ROWS /\ 0 <= c < COLS) by (apply Hin; eauto).
      destruct Hc as [?|[?|[?|[?|[? ?]]]]]; try lia; done.
    + split; [|done]. intros _. do 4 right. eauto.
    + split; [|done]. intros _.
      destruct (decide (0 <= r < ROWS /\ 0 <= c < COLS)) as [Hd|Hd].
      * apply Hin in Hd. by destruct Hd.
      * lia.
  - split; [|done]. intros _.
    destruct (decide (0 <= r < ROWS /\ 0 <= c < COLS)) as [Hd|Hd].
    + apply Hin in Hd. by destruct Hd.
    + lia.
Qed.

(** C2 (as amended): on a [ROWS] by [COLS] grid, [collide] returns [true]
    if and only if some occupied cell of the matrix maps to a column outside
    [[0, COLS)], or to a row outside [[0, ROWS)] -- below the floor or above
    row 0 alike --, or onto a grid cell that holds a colour. *)
Theorem collide_iff_cell_out_or_taken arena pl :
  gridOk arena ->
  (collide arena pl = true <->
   exists r c, occupied (matrix pl) r c /\
     let gr := Z.of_nat r + (pos pl).2 in
     let gc := Z.of_nat c + (pos pl).1 in
     gc < 0 \/ COLS <= gc \/ gr < 0 \/ ROWS <= gr \/
     exists colour, gridAt arena gr gc = Some (Colour colour)).
Proof.
  intros Hok. rewrite collide_true. cbv zeta.
  split; intros (r & c & Hocc & H); exists r, c; (split; [done|]);
    by apply (blocked_true _ _ _ Hok).
Qed.

Lemma collide_iff_cell_out_or_taken_witness :
  gridOk createGrid /\
  (collide createGrid (setPos (4, 19) (spawnPiece (TETROMINOS Kind.O))) = true <->
   exists r c,
     occupied (matrix (setPos (4, 19) (spawnPiece (TETROMINOS Kind.O)))) r c /\
     let gr := Z.of_nat r + 19 in
     let gc := Z.of_nat c + 4 in
     gc < 0 \/ COLS <= gc \/ gr < 0 \/ ROWS <= gr \/
     exists colour, gridAt createGrid gr gc = Some (Colour colour)).
Proof.
  assert (Hok : gridOk createGrid) by (split; [reflexivity | repeat constructor]).
  split; [exact Hok|].
  exact (collide_iff_cell_out_or_taken createGrid
           (setPos (4, 19) (spawnPiece (TETROMINOS Kind.O))) Hok).
Defined.

(** C2 as stated fails: on the empty grid the O piece placed one row above
    the top collides, although none of its cells is outside the columns,
    at or below row [ROWS], or on a taken cell. *)
Lemma collide_above_top_counterexample :
  let arena := createGrid in
  let pl := setPos (4, -1) (spawnPiece (TETROMINOS Kind.O)) in
  collide arena pl = true /\
  ~ (exists r c, occupied (matrix pl) r c /\
       let gr := Z.of_nat r + (pos pl).2 in
       let gc := Z.of_nat c + (pos pl).1 in
       gc < 0 \/ COLS <= gc \/ ROWS <= gr \/
       exists colour, gridAt arena gr gc = Some (Colour colour)).
Proof.
  cbv zeta. split; [reflexivity|].
  intros (r & c & (v & Hv & _) & H).
  assert (r < 2 /\ c < 2)%nat as [Hr Hc].
  { destruct r as [|[|r]], c as [|[|c]]; simpl in Hv; try done; lia. }
  simpl in H. unfold COLS, ROWS in H.
  destruct H as [?|[?|[?|[colour H]]]]; try lia.
  destruct r as [|[|r]], c as [|[|c]]; try lia; vm_compute in H; done.
Qed.

(** ** Rotation with wall kicks *)

Lemma tryKicks_firstFit arena pl kicks :
  tryKicks arena pl kicks =
  (fun kick => movedBy kick.1 (- kick.2) pl) <$> firstFit arena pl kicks.
Proof.
  induction kicks as [|[kx ky] rest IH]; simpl; [done|].
  by destruct (collide arena (movedBy kx (- ky) pl)).
Qed.

Lemma firstFit_None arena pl kicks :
  firstFit arena pl kicks = None <->
  forall kick, kick ∈ kicks ->
    collide arena (movedBy kick.1 (- kick.2) pl) = true.
Proof.
  induction kicks as [|kick rest IH]; simpl.
  - split; [|done]. intros _ kick Hin. by apply elem_of_nil in Hin.
  - destruct (collide arena (movedBy kick.1 (- kick.2) pl)) eqn:E; simpl.
    + rewrite IH. split.
      * intros Hrest k [->|Hin]%elem_of_cons; auto.
      * intros Hall k Hin. apply Hall. by right.
    + split; [done|]. intros Hall.
      rewrite Hall in E; [done|by left].
Qed.

(** A rotation that finds no free candidate leaves the game as it was. *)
Lemma playerRotate_fails dir g n :
  square n (matrix (player g)) -> dir <> 0 ->
  rotationFit dir g = None -> playerRotate dir g = g.
Proof.
  intros Hsq Hd Hfit. unfold playerRotate, rotationFit in *. simpl in *.
  rewrite tryKicks_firstFit, Hfit. simpl.
  rewrite (rotate_back n) by done.
  by destruct g as [? ? ? ? ? ? ? ? ? ? ? ? [] ? ? ? ? ? ? ? ? ?].
Qed.

(** A rotation that finds a free candidate keeps the turned matrix, moves
    by the offset and steps the rotation state. *)
Lemma playerRotate_succeeds dir g kick :
  rotationFit dir g = Some kick ->
  player (playerRotate dir g) =
    setRotationIndex (Z.rem (rotationIndex (player g) + dir + 4) 4)
      (movedBy kick.1 (- kick.2)
         (setMatrix (rotate (matrix (player g)) dir) (player g))) /\
  grid (playerRotate dir g) = grid g.
Proof.
  intros Hfit. unfold playerRotate, rotationFit in *. simpl in *.
  rewrite tryKicks_firstFit, Hfit. simpl.
  by destruct (isLocking g && (lockMoves g <? maxLockMoves)).
Qed.

(** C6: if every kick candidate of the requested rotation collides,
    [playerRotate] changes nothing: matrix, position and rotation state (and
    every other field of the game) are as before the call. *)
Theorem playerRotate_all_kicks_collide_noop g dir n :
  square n (matrix (player g)) ->
  dir = 1 \/ dir = -1 ->
  (forall kick,
     kick ∈ getKickData (id (tetromino (player g))) (rotationIndex (player g)) dir ->
     collide (grid g)
       (movedBy kick.1 (- kick.2)
          (setMatrix (rotate (matrix (player g)) dir) (player g))) = true) ->
  playerRotate dir g = g.
Proof.
  intros Hsq Hd Hall. apply (playerRotate_fails dir g n); [done|lia|].
  by apply firstFit_None.
Qed.

Lemma playerRotate_all_kicks_collide_noop_witness :
  let g := playerRotate 1 caged in
  square 4 (matrix (player g)) /\
  (1 = 1 \/ 1 = -1) /\
  (forall kick,
     kick ∈ getKickData (id (tetromino (player g))) (rotationIndex (player g)) 1 ->
     collide (grid g)
       (movedBy kick.1 (- kick.2)
          (setMatrix (rotate (matrix (player g)) 1) (player g))) = true) /\
  playerRotate 1 g = g.
Proof.
  cbv zeta.
  assert (Hsq : square 4 (matrix (player (playerRotate 1 caged)))).
  { split; [reflexivity|]. vm_compute. repeat constructor. }
  assert (Hall : forall kick,
     kick ∈ getKickData (id (tetromino (player (playerRotate 1 caged))))
              (rotationIndex (player (playerRotate 1 caged))) 1 ->
     collide (grid (playerRotate 1 caged))
       (movedBy kick.1 (- kick.2)
          (setMatrix (rotate (matrix (player (playerRotate 1 caged))) 1)
             (player (playerRotate 1 caged)))) = true).
  { intros kick Hin. vm_compute in Hin.
    repeat (apply elem_of_cons in Hin as [->|Hin]; [vm_compute; reflexivity|]).
    by apply elem_of_nil in Hin. }
  split; [exact Hsq|]. split; [left; reflexivity|]. split; [exact Hall|].
  exact (playerRotate_all_kicks_collide_noop (playerRotate 1 caged) 1 4
           Hsq (or_introl eq_refl) Hall).
Defined.

Lemma rotationIndex_four r dir :
  0 <= r < 4 -> dir = 1 \/ dir = -1 ->
  Z.rem (Z.rem (Z.rem (Z.rem (r + dir + 4) 4 + dir + 4) 4 + dir + 4) 4 + dir + 4) 4 = r.
Proof.
  intros Hr [-> | ->];
    assert (r = 0 \/ r = 1 \/ r = 2 \/ r = 3) as [-> | [-> | [-> | ->]]] by lia;
    reflexivity.
Qed.

(** C7 (as amended): four calls of [playerRotate] in one direction, each of
    which finds a free kick candidate, restore the matrix and the rotation
    state; if each of them settled on the (0,0) candidate the position is
    restored too.  (When the first call finds no candidate, all four change
    nothing.) *)
Theorem four_rotations_restore g dir n :
  square n (matrix (player g)) ->
  dir = 1 \/ dir = -1 ->
  0 <= rotationIndex (player g) < 4 ->
  let g1 := playerRotate dir g in
  let g2 := playerRotate dir g1 in
  let g3 := playerRotate dir g2 in
  let g4 := playerRotate dir g3 in
  (is_Some (rotationFit dir g) -> is_Some (rotationFit dir g1) ->
   is_Some (rotationFit dir g2) -> is_Some (rotationFit dir g3) ->
   matrix (player g4) = matrix (player g) /\
   rotationIndex (player g4) = rotationIndex (player g) /\
   (rotationFit dir g = Some (0, 0) -> rotationFit dir g1 = Some (0, 0) ->
    rotationFit dir g2 = Some (0, 0) -> rotationFit dir g3 = Some (0, 0) ->
    pos (player g4) = pos (player g))) /\
  (rotationFit dir g = None -> g4 = g).
Proof.
  intros Hsq Hd Hr g1 g2 g3 g4. split.
  - intros [k0 H0] [k1 H1] [k2 H2] [k3 H3].
    destruct (playerRotate_succeeds dir g k0 H0) as [P1 _].
    destruct (playerRotate_succeeds dir g1 k1 H1) as [P2 _].
    destruct (playerRotate_succeeds dir g2 k2 H2) as [P3 _].
    destruct (playerRotate_succeeds dir g3 k3 H3) as [P4 _].
    fold g1 in P1. fold g2 in P2. fold g3 in P3. fold g4 in P4.
    split; [|split].
    + rewrite P4, P3, P2, P1. simpl. by apply (rotate_four n).
    + rewrite P4, P3, P2, P1. simpl. by apply rotationIndex_four.
    + intros E0 E1 E2 E3.
      assert (k0 = (0, 0)) as -> by congruence.
      assert (k1 = (0, 0)) as -> by congruence.
      assert (k2 = (0, 0)) as -> by congruence.
      assert (k3 = (0, 0)) as -> by congruence.
      rewrite P4, P3, P2, P1. simpl.
      destruct (pos (player g)) as [x y]. simpl. f_equal; lia.
  - intros Hnone.
    assert (Hd' : dir <> 0) by lia.
    assert (E1 : playerRotate dir g = g) by (by apply (playerRotate_fails dir g n)).
    subst g4 g3 g2 g1. by rewrite !E1.
Qed.

Lemma four_rotations_restore_witness :
  let g := started in
  let g1 := playerRotate 1 g in
  let g2 := playerRotate 1 g1 in
  let g3 := playerRotate 1 g2 in
  let g4 := playerRotate 1 g3 in
  square 4 (matrix (player g)) /\ (1 = 1 \/ 1 = -1) /\
  0 <= rotationIndex (player g) < 4 /\
  is_Some (rotationFit 1 g) /\ is_Some (rotationFit 1 g1) /\
  is_Some (rotationFit 1 g2) /\ is_Some (rotationFit 1 g3) /\
  matrix (player g4) = matrix (player g) /\
  rotationIndex (player g4) = rotationIndex (player g).
Proof.
  cbv zeta.
  assert (Hsq : square 4 (matrix (player started))).
  { split; [reflexivity|]. vm_compute. repeat constructor. }
  assert (Hr : 0 <= rotationIndex (player started) < 4).
  { assert (rotationIndex (player started) = 0) as -> by (vm_compute; reflexivity).
    lia. }
  assert (H0 : is_Some (rotationFit 1 started)) by (vm_compute; eexists; reflexivity).
  assert (H1 : is_Some (rotationFit 1 (playerRotate 1 started))) by (vm_compute; eexists; reflexivity).
  assert (H2 : is_Some (rotationFit 1 (playerRotate 1 (playerRotate 1 started))))
    by (vm_compute; eexists; reflexivity).
  assert (H3 : is_Some (rotationFit 1
                 (playerRotate 1 (playerRotate 1 (playerRotate 1 started)))))
    by (vm_compute; eexists; reflexivity).
  pose proof (four_rotations_restore started 1 4 Hsq (or_introl eq_refl) Hr) as [T _].
  destruct (T H0 H1 H2 H3) as (Tm & Tr & _).
  split; [exact Hsq|]. split; [left; reflexivity|]. split; [exact Hr|].
  split; [exact H0|]. split; [exact H1|]. split; [exact H2|].
  split; [exact H3|]. split; [exact Tm|exact Tr].
Defined.

(** C7 as stated fails: in [caged] the first clockwise rotation fits and the
    next three find no free candidate, so four calls leave the I piece
    standing, in rotation state 1. *)
Lemma four_rotations_counterexample :
  let g4 := playerRotate 1 (playerRotate 1 (playerRotate 1 (playerRotate 1 caged))) in
  collide (grid caged) (player caged) = false /\
  matrix (player g4) <> matrix (player caged) /\
  rotationIndex (player g4) <> rotationIndex (player caged).
Proof. cbv zeta. vm_compute. repeat split; discriminate. Qed.

(** ** The 7-bag *)

Lemma insert_head_Permutation {A} (l : list A) j b x :
  l !! j = Some b -> b :: <[j := x]> l ≡ₚ x :: l.
Proof.
  revert j. induction l as [|y t IH]; intros [|j] Hj; simpl in *; try done.
  - injection Hj as ->. apply perm_swap.
  - rewrite perm_swap. rewrite (IH j Hj). apply perm_swap.
Qed.

Lemma swapAt_Permutation {A} (l : list A) i j : swapAt l i j ≡ₚ l.
Proof.
  unfold swapAt.
  destruct (l !! i) as [a|] eqn:Hi; [|done].
  destruct (l !! j) as [b|] eqn:Hj; [|done].
  revert i j Hi Hj. induction l as [|y t IH]; intros [|i] [|j] Hi Hj;
    simpl in *; try done.
  - by simplify_eq.
  - injection Hi as ->. by apply insert_head_Permutation.
  - injection Hj as ->. by apply insert_head_Permutation.
  - by rewrite (IH i j).
Qed.

Lemma shuffle_Permutation rnd calls l i : (shuffle rnd calls l i).1 ≡ₚ l.
Proof.
  revert calls l. induction i as [|i IH]; intros calls l; simpl; [done|].
  rewrite IH. apply swapAt_Permutation.
Qed.

(** Each refill is a permutation of the seven catalogue pieces. *)
Lemma fillBag_Permutation g : bag (fillBag g) ≡ₚ TETROMINOS <$> pieces.
Proof.
  unfold fillBag.
  pose proof (shuffle_Permutation (random g) (randomCalls g) pieces
                (length pieces - 1)) as Hp.
  destruct (shuffle _ _ _ _) as [shuffled calls]. simpl in *.
  by rewrite Hp.
Qed.

(** With pieces in the bag a draw takes the last one and does not refill. *)
Lemma getNextFromBag_nonempty g :
  bag g <> [] ->
  getNextFromBag g = (last (bag g), set_bag (removelast (bag g)) g).
Proof.
  intros Hne. unfold getNextFromBag.
  destruct (bag g) eqn:E; [by destruct Hne|]. simpl. by rewrite E.
Qed.

(** Drawing as many pieces as the bag holds hands them out from the last to
    the first and leaves the bag empty, without a refill. *)
Lemma draws_S n g :
  draws (S n) g =
  (let '(t, g1) := getNextFromBag g in
   let '(ts, g2) := draws n g1 in (t :: ts, g2)).
Proof. reflexivity. Qed.

Lemma draws_whole_bag l : forall g,
  bag g = l ->
  draws (length l) g = (Some <$> reverse l, set_bag [] g).
Proof.
  induction l as [|x l IH] using rev_ind; intros g Hbag.
  - simpl. f_equal. rewrite <- Hbag. by destruct g.
  - rewrite length_app, Nat.add_comm. cbn [length Nat.add]. rewrite draws_S.
    rewrite getNextFromBag_nonempty by (rewrite Hbag; by destruct l).
    rewrite Hbag, last_snoc, removelast_last.
    rewrite (IH (set_bag l g)) by done.
    by rewrite reverse_snoc.
Qed.

Lemma getNextFromBag_defined g : is_Some (getNextFromBag g).1.
Proof.
  unfold getNextFromBag. simpl. apply last_is_Some.
  destruct (bag g) as [|t l] eqn:E; [|by rewrite E].
  pose proof (fillBag_Permutation g) as Hp.
  apply Permutation_length in Hp. by destruct (bag (fillBag g)).
Qed.

(** C8: seven consecutive draws that start at a bag boundary (the bag is
    empty) hand out each of the seven kinds exactly once, whatever the random
    draws are: a refill is a permutation of the seven catalogue pieces, a draw
    refills only when the bag is empty, and after the seven draws the bag is
    empty again. *)
Theorem seven_draws_one_of_each g :
  bag (fillBag g) ≡ₚ TETROMINOS <$> pieces /\
  (bag g <> [] ->
   getNextFromBag g = (last (bag g), set_bag (removelast (bag g)) g)) /\
  (bag g = [] ->
   exists ds,
     (draws 7 g).1 = Some <$> ds /\
     ds ≡ₚ TETROMINOS <$> pieces /\
     id <$> ds ≡ₚ ["I"; "L"; "J"; "O"; "T"; "S"; "Z"] /\
     bag (draws 7 g).2 = []).
Proof.
  split; [apply fillBag_Permutation|].
  split; [apply getNextFromBag_nonempty|].
  intros Hempty.
  pose proof (fillBag_Permutation g) as Hp.
  assert (Hlen : length (bag (fillBag g)) = 7%nat)
    by (by rewrite (Permutation_length Hp)).
  assert (Hd : draws 7 g =
               (Some <$> reverse (bag (fillBag g)), set_bag [] (fillBag g))).
  { rewrite <- Hlen.
    destruct (bag (fillBag g)) as [|t l] eqn:E; [done|].
    rewrite <- E in *.
    transitivity (draws (length (bag (fillBag g))) (fillBag g)).
    - rewrite Hlen, !draws_S.
      assert (getNextFromBag g = getNextFromBag (fillBag g)) as ->; [|done].
      unfold getNextFromBag. rewrite Hempty.
      destruct (bag (fillBag g)) eqn:E'; [done|]. cbv beta iota zeta.
      by rewrite E'.
    - by apply draws_whole_bag. }
  exists (reverse (bag (fillBag g))). rewrite Hd. simpl.
  assert (Hr : reverse (bag (fillBag g)) ≡ₚ TETROMINOS <$> pieces)
    by (by rewrite reverse_Permutation).
  split; [done|]. split; [done|]. split; [by rewrite Hr|done].
Qed.

Lemma seven_draws_one_of_each_witness :
  bag (newGame (fun k => k)) = [] /\
  exists ds,
    (draws 7 (newGame (fun k => k))).1 = Some <$> ds /\
    ds ≡ₚ TETROMINOS <$> pieces /\
    id <$> ds ≡ₚ ["I"; "L"; "J"; "O"; "T"; "S"; "Z"] /\
    bag (draws 7 (newGame (fun k => k))).2 = [].
Proof.
  split; [reflexivity|].
  exact (proj2 (proj2 (seven_draws_one_of_each (newGame (fun k => k)))) eq_refl).
Defined.

(** ** Hard drop *)

(** Fields that spawning leaves alone. *)
Lemma fillBag_frame g :
  grid (fillBag g) = grid g /\ score (fillBag g) = score g /\
  player (fillBag g) = player g.
Proof. unfold fillBag. by destruct (shuffle _ _ _ _). Qed.

Lemma getNextFromBag_frame g :
  grid (getNextFromBag g).2 = grid g /\ score (getNextFromBag g).2 = score g /\
  player (getNextFromBag g).2 = player g.
Proof.
  unfold getNextFromBag. simpl.
  destruct (bag g); [apply fillBag_frame|done].
Qed.

Lemma playerReset_frame g :
  grid (playerReset g) = grid g /\ score (playerReset g) = score g.
Proof.
  unfold playerReset.
  destruct (nextPiece g) as [t|].
  - destruct (getNextFromBag (set_player (spawnPiece t) g)) as [n g3] eqn:E.
    pose proof (getNextFromBag_frame (set_player (spawnPiece t) g)) as (Hg & Hs & _).
    rewrite E in Hg, Hs. simpl in *.
    unfold gameOver. repeat case_match; simpl; by rewrite ?Hg, ?Hs.
  - destruct (getNextFromBag g) as [[t|] g1] eqn:E1;
      pose proof (getNextFromBag_frame g) as (Hg1 & Hs1 & _);
      rewrite E1 in Hg1, Hs1; simpl in *; [|done].
    destruct (getNextFromBag (set_player (spawnPiece t) g1)) as [n g3] eqn:E.
    pose proof (getNextFromBag_frame (set_player (spawnPiece t) g1)) as (Hg & Hs & _).
    rewrite E in Hg, Hs. simpl in *.
    unfold gameOver. repeat case_match; simpl; by rewrite ?Hg, ?Hs, ?Hg1, ?Hs1.
Qed.

Lemma arenaSweep_frame g :
  grid (arenaSweep g) = grid g /\ score (arenaSweep g) = score g.
Proof. unfold arenaSweep. simpl. by destruct (sweepFrom _ _). Qed.

Lemma fallenBy_back k pl : movedBy 0 (-1) (fallenBy (S k) pl) = fallenBy k pl.
Proof. unfold movedBy, fallenBy, setPos. simpl. do 2 f_equal; lia. Qed.

Lemma fallenBy_0 pl : fallenBy 0 pl = pl.
Proof.
  destruct pl as [[x y] m t r]. unfold fallenBy, setPos. simpl.
  by rewrite Z.add_0_r.
Qed.

(** Falling [k] rows from one row down is falling [S k] rows. *)
Lemma fallenBy_shift k pl : fallenBy k (movedBy 0 1 pl) = fallenBy (S k) pl.
Proof. unfold movedBy, fallenBy, setPos. simpl. do 2 f_equal; lia. Qed.

(** What the [while] loop returns: the first colliding position below the
    start, and the number of advances made to get there. *)
Lemma dropLoop_spec arena fuel : forall pl d pl' d',
  dropLoop fuel arena pl d = Some (pl', d') ->
  exists k : nat,
    pl' = fallenBy k pl /\ d' = d + Z.of_nat k /\
    collide arena (fallenBy k pl) = true /\
    forall j, (j < k)%nat -> collide arena (fallenBy j pl) = false.
Proof.
  assert (Hstop : forall pl d pl' d',
            collide arena pl = true -> Some (pl, d) = Some (pl', d') ->
            exists k : nat,
              pl' = fallenBy k pl /\ d' = d + Z.of_nat k /\
              collide arena (fallenBy k pl) = true /\
              forall j, (j < k)%nat -> collide arena (fallenBy j pl) = false).
  { intros pl d pl' d' E [= <- <-]. exists 0%nat. rewrite fallenBy_0.
    split; [done|]. split; [lia|]. split; [done|]. intros j Hj. lia. }
  induction fuel as [|fuel IH]; intros pl d pl' d'; simpl;
    destruct (collide arena pl) eqn:E; [by apply Hstop|done|by apply Hstop|].
  intros H. apply IH in H as (k & -> & -> & Hc & Hfree).
  exists (S k). rewrite fallenBy_shift in *.
  split; [done|]. split; [lia|]. split; [done|].
  intros [|j] Hj; [by rewrite fallenBy_0|].
  rewrite <- fallenBy_shift. apply Hfree. lia.
Qed.

Lemma blocked_outside arena r c :
  r < 0 \/ Z.of_nat (length arena) <= r -> blocked arena r c = true.
Proof.
  intros Hr. unfold blocked.
  destruct (at_ arena r) eqn:E; [|done].
  assert (Hs : is_Some (at_ arena r)) by eauto.
  apply at_Some in Hs. lia.
Qed.

(** With an occupied cell in the matrix the loop meets the floor: one
    advance per grid row below the cell is enough. *)
Lemma dropLoop_runs arena r c fuel : forall pl d,
  occupied (matrix pl) r c ->
  Z.of_nat (length arena) - (Z.of_nat r + (pos pl).2) <= Z.of_nat fuel ->
  is_Some (dropLoop fuel arena pl d).
Proof.
  induction fuel as [|fuel IH]; intros pl d Hocc Hfuel; simpl;
    destruct (collide arena pl) eqn:E; eauto.
  - rewrite collide_false in E. specialize (E r c Hocc).
    rewrite blocked_outside in E; [done|lia].
  - apply IH; [done|]. simpl. lia.
Qed.

Lemma dropLoop_enough_fuel arena pl d :
  (exists r c, occupied (matrix pl) r c) ->
  is_Some (dropLoop (length arena) arena pl d).
Proof.
  intros (r & c & Hocc).
  destruct (collide arena pl) eqn:E.
  - destruct (length arena); simpl; rewrite E; eauto.
  - apply (dropLoop_runs arena r c); [done|].
    rewrite collide_false in E. specialize (E r c Hocc).
    destruct (Z.ltb_spec (Z.of_nat r + (pos pl).2) 0) as [Hneg|Hpos]; [|lia].
    rewrite blocked_outside in E; [done|lia].
Qed.

(** With no occupied cell nothing ever collides and the loop runs out of
    any bound. *)
Lemma dropLoop_blank arena fuel : forall pl d,
  (forall r c, ~ occupied (matrix pl) r c) ->
  dropLoop fuel arena pl d = None.
Proof.
  induction fuel as [|fuel IH]; intros pl d Hblank; simpl.
  - destruct (collide arena pl) eqn:E; [|done].
    apply collide_true in E as (r & c & Hocc & _). by destruct (Hblank r c).
  - destruct (collide arena pl) eqn:E.
    + apply collide_true in E as (r & c & Hocc & _). by destruct (Hblank r c).
    + by apply IH.
Qed.

(** ** Merging the piece into the grid *)

Lemma gridOk_at arena r :
  gridOk arena ->
  (0 <= r < ROWS ->
   exists row, at_ arena r = Some row /\ Z.of_nat (length row) = COLS) /\
  (~ (0 <= r < ROWS) -> at_ arena r = None).
Proof.
  intros [Hl Hr]. split.
  - intros Hin. destruct (proj2 (at_Some arena r)) as [row Hrow].
    { rewrite Hl. unfold ROWS in *. lia. }
    exists row. split; [done|].
    unfold at_ in Hrow. case_match; [done|].
    rewrite Forall_lookup in Hr. rewrite (Hr _ _ Hrow). done.
  - intros Hout. destruct (at_ arena r) eqn:E; [|done].
    assert (Hs : is_Some (at_ arena r)) by eauto.
    apply at_Some in Hs. rewrite Hl in Hs. unfold ROWS in *. lia.
Qed.

Lemma gridOk_insert arena i row :
  gridOk arena -> length row = Z.to_nat COLS -> gridOk (<[i := row]> arena).
Proof.
  intros [Hl Hr] Hrow. split; [by rewrite length_insert|].
  by apply Forall_insert.
Qed.

Lemma storeCell_ok arena r c v :
  gridOk arena -> 0 <= c < COLS ->
  writesOk (storeCell arena r c v) (~ (0 <= r < ROWS)).
Proof.
  intros Hok Hc. unfold storeCell.
  destruct (gridOk_at arena r Hok) as [Hin Hout].
  destruct (decide (0 <= r < ROWS)) as [Hr|Hr].
  - destruct (Hin Hr) as (row & -> & Hlen).
    replace ((0 <=? c) && (c <? Z.of_nat (length row))) with true by lia.
    simpl. apply gridOk_insert; [done|]. rewrite length_insert. lia.
  - rewrite (Hout Hr). simpl. done.
Qed.

Lemma mergeCells_ok colour r ox cells : forall arena x,
  gridOk arena ->
  (forall k v, cells !! k = Some v -> v <> 0 ->
               0 <= Z.of_nat (x + k) + ox < COLS) ->
  writesOk (mergeCells arena cells x r ox colour)
    (~ (0 <= r < ROWS) /\ exists k v, cells !! k = Some v /\ v <> 0).
Proof.
  induction cells as [|v rest IH]; intros arena x Hok Hcols; simpl; [done|].
  assert (Hrest : forall a', gridOk a' ->
            writesOk (mergeCells a' rest (S x) r ox colour)
              (~ (0 <= r < ROWS) /\ exists k v0, (v :: rest) !! k = Some v0 /\ v0 <> 0)).
  { intros a' Hok'. specialize (IH a' (S x) Hok').
    destruct (mergeCells a' rest (S x) r ox colour); simpl in *.
    - apply IH. intros k w Hk Hw. specialize (Hcols (S k) w Hk Hw). lia.
    - destruct IH as (? & ? & k & w & Hk & Hw).
      { intros k w Hk Hw. specialize (Hcols (S k) w Hk Hw). lia. }
      split; [done|]. split; [done|]. by exists (S k), w.
    - apply IH. intros k w Hk Hw. specialize (Hcols (S k) w Hk Hw). lia. }
  destruct (Z.eqb_spec v 0) as [->|Hv]; [by apply Hrest|].
  pose proof (storeCell_ok arena r (Z.of_nat x + ox) (Colour colour) Hok) as Hs.
  destruct (storeCell arena r (Z.of_nat x + ox) (Colour colour)); simpl in *.
  - apply Hrest, Hs. specialize (Hcols 0%nat v eq_refl Hv). lia.
  - destruct Hs as [? ?]; [specialize (Hcols 0%nat v eq_refl Hv); lia|].
    split; [done|]. split; [done|]. by exists 0%nat, v.
  - apply Hs. specialize (Hcols 0%nat v eq_refl Hv). lia.
Qed.

Lemma mergeRows_ok colour o rows : forall arena y,
  gridOk arena ->
  (forall r c, occupied rows r c -> 0 <= Z.of_nat c + o.1 < COLS) ->
  writesOk (mergeRows arena rows y o colour)
    (exists r c, occupied rows r c /\ ~ (0 <= Z.of_nat (y + r) + o.2 < ROWS)).
Proof.
  induction rows as [|row rest IH]; intros arena y Hok Hcols; simpl; [done|].
  pose proof (mergeCells_ok colour (Z.of_nat y + o.2) o.1 row arena 0 Hok) as Hrow.
  destruct (mergeCells arena row 0 (Z.of_nat y + o.2) o.1 colour); simpl in *.
  - assert (Hok' : gridOk arena0).
    { apply Hrow. intros k v Hk Hv. apply (Hcols 0%nat k). by exists v. }
    specialize (IH arena0 (S y) Hok').
    destruct (mergeRows arena0 rest (S y) o colour); simpl in *.
    + apply IH. intros r c Hocc. apply (Hcols (S r) c Hocc).
    + destruct IH as (? & r & c & Hocc & Hout).
      { intros r c Hocc. apply (Hcols (S r) c Hocc). }
      split; [done|]. exists (S r), c. split; [done|].
      by rewrite Nat.add_succ_r.
    + apply IH. intros r c Hocc. apply (Hcols (S r) c Hocc).
  - destruct Hrow as (? & Hout & k & v & Hk & Hv).
    { intros k v Hk Hv. apply (Hcols 0%nat k). by exists v. }
    split; [done|]. exists 0%nat, k. split; [by exists v|].
    by rewrite Nat.add_0_r.
  - apply Hrow. intros k v Hk Hv. apply (Hcols 0%nat k). by exists v.
Qed.

(** Merging a piece whose occupied cells are inside the columns keeps the
    grid a [ROWS] by [COLS] table; it throws only if an occupied cell is on
    a row outside the grid. *)
Lemma merge_in_bounds arena pl :
  gridOk arena ->
  (forall r c, occupied (matrix pl) r c -> 0 <= Z.of_nat c + (pos pl).1 < COLS) ->
  writesOk (merge arena pl)
    (exists r c, occupied (matrix pl) r c /\
                 ~ (0 <= Z.of_nat r + (pos pl).2 < ROWS)).
Proof. intros Hok Hcols. by apply (mergeRows_ok _ _ _ arena 0%nat). Qed.

(** A piece that does not collide has every occupied cell inside the grid. *)
Lemma free_inside arena pl r c :
  gridOk arena -> collide arena pl = false -> occupied (matrix pl) r c ->
  0 <= Z.of_nat r + (pos pl).2 < ROWS /\ 0 <= Z.of_nat c + (pos pl).1 < COLS.
Proof.
  intros Hok Hfree Hocc. rewrite collide_false in Hfree.
  specialize (Hfree r c Hocc).
  apply not_true_iff_false in Hfree. rewrite (blocked_true _ _ _ Hok) in Hfree.
  lia.
Qed.

(** Merging a piece that does not collide stores all of it. *)
Lemma merge_free arena pl :
  gridOk arena -> collide arena pl = false ->
  exists merged, merge arena pl = Stored merged /\ gridOk merged.
Proof.
  intros Hok Hfree.
  pose proof (merge_in_bounds arena pl Hok) as Hm.
  destruct (merge arena pl) as [merged|merged|]; simpl in Hm.
  - exists merged. split; [done|]. apply Hm.
    intros r c Hocc. by apply (free_inside arena pl r c Hok Hfree).
  - destruct Hm as (_ & r & c & Hocc & Hout).
    { intros r c Hocc. by apply (free_inside arena pl r c Hok Hfree). }
    destruct Hout. by apply (free_inside arena pl r c Hok Hfree).
  - destruct Hm. intros r c Hocc. by apply (free_inside arena pl r c Hok Hfree).
Qed.

(** On the empty grid every freshly spawned piece is free down to 18 rows
    below the top and collides one row further. *)
Lemma spawn_falls_18 kind (j : nat) :
  collide createGrid (fallenBy j (spawnPiece (TETROMINOS kind))) =
  if decide (j <= 18)%nat then false else true.
Proof.
  case_decide as Hj.
  - do 19 (destruct j as [|j]; [by destruct kind|]). lia.
  - apply collide_true.
    assert (Hocc : exists c, occupied (matrix (spawnPiece (TETROMINOS kind))) 1 c).
    { destruct kind; first [by exists 0%nat, 1 | by exists 1%nat, 1]. }
    destruct Hocc as [c Hocc]. exists 1%nat, c. split; [done|].
    apply blocked_outside. right. simpl. lia.
Qed.

(** C3 (as amended): from a position that does not collide, [playerHardDrop]
    moves the piece down to the lowest row it can reach without colliding,
    locks it there at once ([lockPiece] runs to completion on the landed
    piece), and adds exactly 2 points per row the piece descended -- that is
    [2 * max(0, dropped - 1)] where [dropped] counts the advances of the loop
    including the last one, which collides and is stepped back.  For a piece
    spawned at row 0 of the empty grid the award is
    [2 * (ROWS - 1 - startRow - 1)]. *)
Theorem hardDrop_lands_locks_scores g :
  gridOk (grid g) ->
  collide (grid g) (player g) = false ->
  (exists r c, occupied (matrix (player g)) r c) ->
  exists (fallen : nat) (g' : Game),
    (forall j, (j <= fallen)%nat ->
               collide (grid g) (fallenBy j (player g)) = false) /\
    collide (grid g) (fallenBy (S fallen) (player g)) = true /\
    let landed :=
      set_score (score g + 2 * Z.of_nat fallen)
        (set_player (fallenBy fallen (player g)) g) in
    playerHardDrop g = lockPiece landed /\
    lockPiece landed = Returns g' /\
    merge (grid g) (fallenBy fallen (player g)) = Stored (grid g') /\
    score g' = score g + 2 * Z.of_nat fallen /\
    (forall kind,
       grid g = createGrid -> player g = spawnPiece (TETROMINOS kind) ->
       2 * Z.of_nat fallen = 2 * (ROWS - 1 - (pos (player g)).2 - 1)).
Proof.
  intros Hok Hfree Hocc.
  destruct (dropLoop_enough_fuel (grid g) (player g) 0 Hocc) as [[pl' d'] Hloop].
  destruct (dropLoop_spec _ _ _ _ _ _ Hloop) as (k & -> & -> & Hhit & Hfreek).
  destruct k as [|fallen]; [by rewrite fallenBy_0, Hfree in Hhit|].
  assert (Hland : collide (grid g) (fallenBy fallen (player g)) = false)
    by (apply Hfreek; lia).
  destruct (merge_free _ _ Hok Hland) as (merged & Hmerge & _).
  set (landed := set_score (score g + 2 * Z.of_nat fallen)
                   (set_player (fallenBy fallen (player g)) g)).
  exists fallen,
    (playerReset (set_canHold true (arenaSweep (set_grid merged landed)))).
  split; [intros j Hj; apply Hfreek; lia|]. split; [done|].
  cbv zeta. fold landed.
  assert (Hlock : lockPiece landed =
            Returns (playerReset (set_canHold true (arenaSweep (set_grid merged landed))))).
  { unfold lockPiece. simpl. by rewrite Hmerge. }
  split.
  { unfold playerHardDrop. rewrite Hloop, fallenBy_back. simpl.
    unfold landed. do 2 f_equal. lia. }
  split; [done|].
  pose proof (playerReset_frame (set_canHold true (arenaSweep (set_grid merged landed))))
    as [Hg Hs].
  pose proof (arenaSweep_frame (set_grid merged landed)) as [Hg' Hs'].
  split; [|split].
  - rewrite Hg. simpl. rewrite Hg'. done.
  - rewrite Hs. simpl. rewrite Hs'. done.
  - intros kind Hgrid Hpl. rewrite Hgrid, Hpl in *.
    pose proof (spawn_falls_18 kind (S fallen)) as H19.
    pose proof (spawn_falls_18 kind fallen) as H18.
    rewrite Hhit in H19. rewrite Hland in H18.
    repeat case_decide; try done. simpl. unfold ROWS. lia.
Qed.

Lemma hardDrop_lands_locks_scores_witness :
  let g := started in
  gridOk (grid g) /\
  collide (grid g) (player g) = false /\
  (exists r c, occupied (matrix (player g)) r c) /\
  exists (fallen : nat) (g' : Game),
    (forall j, (j <= fallen)%nat ->
               collide (grid g) (fallenBy j (player g)) = false) /\
    collide (grid g) (fallenBy (S fallen) (player g)) = true /\
    let landed :=
      set_score (score g + 2 * Z.of_nat fallen)
        (set_player (fallenBy fallen (player g)) g) in
    playerHardDrop g = lockPiece landed /\
    lockPiece landed = Returns g' /\
    merge (grid g) (fallenBy fallen (player g)) = Stored (grid g') /\
    score g' = score g + 2 * Z.of_nat fallen /\
    (forall kind,
       grid g = createGrid -> player g = spawnPiece (TETROMINOS kind) ->
       2 * Z.of_nat fallen = 2 * (ROWS - 1 - (pos (player g)).2 - 1)).
Proof.
  cbv zeta.
  assert (Hok : gridOk (grid started)).
  { split; [vm_compute; reflexivity|]. vm_compute. repeat constructor. }
  assert (Hfree : collide (grid started) (player started) = false)
    by (vm_compute; reflexivity).
  assert (Hocc : exists r c, occupied (matrix (player started)) r c).
  { exists 1%nat, 0%nat, 1. split; [vm_compute; reflexivity|discriminate]. }
  split; [exact Hok|]. split; [exact Hfree|]. split; [exact Hocc|].
  exact (hardDrop_lands_locks_scores started Hok Hfree Hocc).
Defined.

(** C3 as stated fails on the score: hard-dropping the first piece of
    [started] on the empty grid takes it 18 rows down (it is free 18 rows
    below its start and collides at 19, and is merged 18 rows down) and adds
    36 points, which is 2 per row descended and not [2 * max(0, 18 - 1)]. *)
Lemma hardDrop_score_counterexample :
  collide (grid started) (player started) = false /\
  collide (grid started) (fallenBy 18 (player started)) = false /\
  collide (grid started) (fallenBy 19 (player started)) = true /\
  match playerHardDrop started with
  | Returns g' =>
      merge (grid started) (fallenBy 18 (player started)) = Stored (grid g') /\
      score g' - score started = 36 /\
      score g' - score started <> 2 * Z.max 0 (18 - 1)
  | _ => False
  end.
Proof. vm_compute. repeat split; discriminate. Qed.

(** ** Lock delay *)

Lemma playerMove_free dir g :
  collide (grid g) (movedBy dir 0 (player g)) = false ->
  playerMove dir g =
  let g1 := set_player (movedBy dir 0 (player g)) g in
  if isLocking g && (lockMoves g <? maxLockMoves)
  then set_lockMoves (lockMoves g + 1) (set_lockTimer 0%Q g1) else g1.
Proof. intros Hfree. unfold playerMove. simpl. by rewrite Hfree. Qed.

Lemma playerMove_blocked dir g :
  collide (grid g) (movedBy dir 0 (player g)) = true ->
  playerMove dir g = g.
Proof.
  intros Hhit. unfold playerMove. simpl. rewrite Hhit.
  destruct g as [? ? ? ? ? ? ? ? ? ? ? ? [[x y] ? ? ?] ? ? ? ? ? ? ? ? ?].
  unfold set_player, movedBy, setPos. simpl. do 3 f_equal; lia.
Qed.

(** The lock fields after a move or a rotation, in terms of whether it
    succeeded. *)
Lemma playerMove_lock dir g :
  let ok := negb (collide (grid g) (movedBy dir 0 (player g))) in
  let reset := ok && isLocking g && (lockMoves g <? maxLockMoves) in
  isLocking (playerMove dir g) = isLocking g /\
  lockTimer (playerMove dir g) = (if reset then 0%Q else lockTimer g) /\
  lockMoves (playerMove dir g) = (if reset then lockMoves g + 1 else lockMoves g).
Proof.
  cbv zeta. destruct (collide (grid g) (movedBy dir 0 (player g))) eqn:E.
  - by rewrite playerMove_blocked.
  - rewrite playerMove_free by done. simpl.
    by destruct (isLocking g && (lockMoves g <? maxLockMoves)).
Qed.

Lemma playerRotate_fits dir g kick :
  rotationFit dir g = Some kick ->
  playerRotate dir g =
  let g1 :=
    set_player
      (setRotationIndex (Z.rem (rotationIndex (player g) + dir + 4) 4)
         (movedBy kick.1 (- kick.2)
            (setMatrix (rotate (matrix (player g)) dir) (player g)))) g in
  if isLocking g && (lockMoves g <? maxLockMoves)
  then set_lockMoves (lockMoves g + 1) (set_lockTimer 0%Q g1) else g1.
Proof.
  intros Hfit. unfold playerRotate, rotationFit in *. simpl in *.
  by rewrite tryKicks_firstFit, Hfit.
Qed.

Lemma playerRotate_lock dir g :
  let ok := bool_decide (is_Some (rotationFit dir g)) in
  let reset := ok && isLocking g && (lockMoves g <? maxLockMoves) in
  isLocking (playerRotate dir g) = isLocking g /\
  lockTimer (playerRotate dir g) = (if reset then 0%Q else lockTimer g) /\
  lockMoves (playerRotate dir g) = (if reset then lockMoves g + 1 else lockMoves g).
Proof.
  cbv zeta. destruct (rotationFit dir g) as [kick|] eqn:E.
  - rewrite bool_decide_eq_true_2 by eauto.
    rewrite (playerRotate_fits dir g kick E). simpl.
    by destruct (isLocking g && (lockMoves g <? maxLockMoves)).
  - rewrite bool_decide_eq_false_2 by (by intros [? ?]).
    unfold playerRotate, rotationFit in *. simpl in *.
    by rewrite tryKicks_firstFit, E.
Qed.

(** Spawning hands out a piece: the branch of [playerReset] without one is
    dead. *)
Lemma playerReset_lock g :
  isLocking (playerReset g) = false /\ lockTimer (playerReset g) = 0%Q /\
  lockMoves (playerReset g) = 0.
Proof.
  assert (Hspawn : forall t g1,
    let g2 := set_player (spawnPiece t) g1 in
    let '(n, g3) := getNextFromBag g2 in
    let g5 := set_lockMoves 0
                (set_lockTimer 0%Q (set_isLocking false (set_nextPiece n g3))) in
    let g6 := if collide (grid g5) (player g5) then gameOver g5 else g5 in
    isLocking g6 = false /\ lockTimer g6 = 0%Q /\ lockMoves g6 = 0).
  { intros t g1. cbv zeta. destruct (getNextFromBag _) as [n g3].
    unfold gameOver. by repeat case_match. }
  unfold playerReset. destruct (nextPiece g) as [t|]; [apply Hspawn|].
  pose proof (getNextFromBag_defined g) as [t Ht].
  destruct (getNextFromBag g) as [t' g1]. simpl in Ht. subst t'. apply Hspawn.
Qed.

Lemma drop_arms g :
  isLocking (playerDrop g) = collide (grid g) (movedBy 0 1 (player g)) /\
  isLocking (manualDrop g) = collide (grid g) (movedBy 0 1 (player g)).
Proof.
  unfold playerDrop, manualDrop. simpl.
  destruct (collide (grid g) (movedBy 0 1 (player g))); simpl; [|done].
  by destruct (isLocking g) eqn:E; simpl; rewrite ?E.
Qed.

(** C4 (as amended): while the lock delay is armed and the move-reset
    counter is under its cap, a successful horizontal move or rotation
    zeroes the lock timer and counts one reset, and the piece stays in the
    locking state ([isLocking] is still set); every spawn by [playerReset]
    resets the lock state; and after a gravity or manual drop step the lock
    delay is armed exactly when the step could not advance the piece. *)
Theorem lock_state_lifecycle g dir :
  (isLocking g = true -> lockMoves g < maxLockMoves ->
   (collide (grid g) (movedBy dir 0 (player g)) = false ->
    isLocking (playerMove dir g) = true /\
    lockTimer (playerMove dir g) = 0%Q /\
    lockMoves (playerMove dir g) = lockMoves g + 1) /\
   (is_Some (rotationFit dir g) ->
    isLocking (playerRotate dir g) = true /\
    lockTimer (playerRotate dir g) = 0%Q /\
    lockMoves (playerRotate dir g) = lockMoves g + 1)) /\
  (isLocking (playerReset g) = false /\
   lockTimer (playerReset g) = 0%Q /\
   lockMoves (playerReset g) = 0) /\
  (isLocking (playerDrop g) = collide (grid g) (movedBy 0 1 (player g)) /\
   isLocking (manualDrop g) = collide (grid g) (movedBy 0 1 (player g))).
Proof.
  split; [|split; [apply playerReset_lock|apply drop_arms]].
  intros Harmed Hcap.
  assert (Hlt : (lockMoves g <? maxLockMoves) = true) by lia.
  split.
  - intros Hfree. pose proof (playerMove_lock dir g) as H. cbv zeta in H.
    by rewrite Hfree, Harmed, Hlt in H.
  - intros Hfit. pose proof (playerRotate_lock dir g) as H. cbv zeta in H.
    by rewrite bool_decide_eq_true_2, Harmed, Hlt in H.
Qed.

Lemma lock_state_lifecycle_witness :
  isLocking grounded = true /\ lockMoves grounded < maxLockMoves /\
  collide (grid grounded) (movedBy 1 0 (player grounded)) = false /\
  isLocking (playerMove 1 grounded) = true /\
  lockTimer (playerMove 1 grounded) = 0%Q /\
  lockMoves (playerMove 1 grounded) = lockMoves grounded + 1.
Proof.
  assert (Harmed : isLocking grounded = true) by (vm_compute; reflexivity).
  assert (Hcap : lockMoves grounded < maxLockMoves) by (vm_compute; reflexivity).
  assert (Hfree : collide (grid grounded) (movedBy 1 0 (player grounded)) = false)
    by (vm_compute; reflexivity).
  split; [exact Harmed|]. split; [exact Hcap|]. split; [exact Hfree|].
  exact (proj1 (proj1 (lock_state_lifecycle grounded 1) Harmed Hcap) Hfree).
Defined.

(** C4 as stated fails: in [grounded] the lock delay is armed and no reset
    has been used; the move to the right succeeds (the piece goes from column
    3 to column 4) and the piece is still in the locking state afterwards. *)
Lemma move_keeps_locking_counterexample :
  isLocking grounded = true /\ lockMoves grounded < maxLockMoves /\
  pos (player grounded) = (3, 18) /\
  pos (player (playerMove 1 grounded)) = (4, 18) /\
  isLocking (playerMove 1 grounded) <> false.
Proof. vm_compute. repeat split; discriminate. Qed.


Lemma movedBy_back pl : movedBy 0 (-1) (movedBy 0 1 pl) = pl.
Proof.
  destruct pl as [[x y] m t r]. unfold movedBy, setPos. simpl.
  do 2 f_equal; lia.
Qed.








(** ** Calls that change nothing *)

Lemma holdTetromino_guard g :
  canHold g = false \/ state g <> PLAYING -> holdTetromino g = g.
Proof.
  intros [Hused|Hst]; unfold holdTetromino.
  - by rewrite Hused.
  - destruct (state g); simpl; rewrite ?orb_true_r; done.
Qed.

(** C9 (as amended): [holdTetromino] changes nothing when hold was already
    used for the current piece or the session is not [PLAYING].  A move has
    no such guard inside the core; it is the keyboard handler of the controls
    that drops the request: while the state is [GAMEOVER] every key other
    than R (82, restart) leaves the game as it is, the arrow keys 37 and 39
    in particular. *)
Theorem invalid_calls_change_nothing g :
  (canHold g = false \/ state g <> PLAYING -> holdTetromino g = g) /\
  (state g = GAMEOVER -> forall keyCode slider,
     keyCode <> 82 -> keydown keyCode slider g = Returns g).
Proof.
  split; [apply holdTetromino_guard|].
  intros Hst keyCode slider Hkey. unfold keydown. rewrite Hst.
  by destruct (Z.eqb_spec keyCode 82).
Qed.

Lemma invalid_calls_change_nothing_witness :
  state toppedOut = GAMEOVER /\ 37 <> 82 /\
  keydown 37 1 toppedOut = Returns toppedOut.
Proof.
  assert (Hst : state toppedOut = GAMEOVER) by (vm_compute; reflexivity).
  assert (Hkey : 37 <> 82) by discriminate.
  split; [exact Hst|]. split; [exact Hkey|].
  exact (proj2 (invalid_calls_change_nothing toppedOut) Hst 37 1 Hkey).
Defined.

(** C9 as stated fails for the move: [toppedOut] is a finished game (state
    [GAMEOVER]) and a call of [playerMove (-1)] still shifts the piece from
    column 4 to column 3. *)
Lemma move_after_gameover_counterexample :
  state toppedOut = GAMEOVER /\
  pos (player toppedOut) = (4, 0) /\
  pos (player (playerMove (-1) toppedOut)) = (3, 0) /\
  playerMove (-1) toppedOut <> toppedOut.
Proof.
  assert (Hpos : pos (player (playerMove (-1) toppedOut)) = (3, 0))
    by (vm_compute; reflexivity).
  assert (Hpos0 : pos (player toppedOut) = (4, 0)) by (vm_compute; reflexivity).
  split; [vm_compute; reflexivity|]. split; [exact Hpos0|]. split; [exact Hpos|].
  intros Heq. rewrite Heq, Hpos0 in Hpos. discriminate Hpos.
Qed.

(** ** Deferred line clear *)

(** C1 (the code departs from the claim): in [aboveStack] a hard drop
    completes rows 14 and 17 at once and the sweep lists them as [17; 14].
    The deferred clear removes row 17, puts an empty row on top -- which
    moves every remaining row one index down -- and then removes index 14,
    which by now holds the former row 13.  The result still has 20 rows, but
    it is not the grid the specification describes: the full former row 14
    is still there (at index 15) and the former row 13, which was not full,
    is gone. *)
Theorem completeClear_two_rows_removes_wrong_row :
  let g1 := pressKey 32 aboveStack in
  let g2 := completeClear g1 in
  playerHardDrop aboveStack = Returns g1 /\
  clearingLines g1 = [17; 14]%nat /\
  isFull <$> (grid g1 !! 14%nat) = Some true /\
  isFull <$> (grid g1 !! 17%nat) = Some true /\
  grid g1 !! 13%nat = Some (filledRow 4 5) /\
  length (grid g2) = 20%nat /\
  grid g2 <> expectedClear (grid g1) (clearingLines g1) /\
  grid g2 !! 15%nat = grid g1 !! 14%nat /\
  (filledRow 4 5 ∉ grid g2) /\
  filledRow 4 5 ∈ expectedClear (grid g1) (clearingLines g1).
Proof.
  cbv zeta.
  split; [vm_compute; reflexivity|]. split; [vm_compute; reflexivity|].
  split; [vm_compute; reflexivity|]. split; [vm_compute; reflexivity|].
  split; [vm_compute; reflexivity|]. split; [vm_compute; reflexivity|].
  split; [vm_compute; discriminate|]. split; [vm_compute; reflexivity|].
  split; refine (bool_decide_unpack _ _); vm_compute; exact I.
Qed.

(** ** The invariant of the session *)

Lemma createGrid_ok : gridOk createGrid.
Proof. split; [reflexivity|repeat constructor]. Qed.

Lemma spawnPiece_ok t : catalogue t -> pieceOk (spawnPiece t).
Proof.
  intros [k ->]. split; [|split].
  - destruct k; first [by exists 4%nat; split; [|repeat constructor]
                      |by exists 3%nat; split; [|repeat constructor]
                      |by exists 2%nat; split; [|repeat constructor]].
  - exists 1%nat, 1%nat, 1. by destruct k.
  - intros r c (v & Hv & _). unfold COLS.
    assert (c < 4)%nat.
    { destruct k; do 4 (destruct r as [|r]; [do 4 (destruct c as [|c]; [lia|]);
        simpl in Hv; try done|]); simpl in Hv; done. }
    destruct k; do 4 (destruct r as [|r]; [do 4 (destruct c as [|c];
      [simpl in *; try done; lia|]); lia|]); simpl in Hv; done.
Qed.

(** The piece stays in order when neither its matrix nor its column moves. *)
Lemma pieceOk_same_column pl pl' :
  pieceOk pl -> matrix pl' = matrix pl -> (pos pl').1 = (pos pl).1 ->
  pieceOk pl'.
Proof. intros (? & ? & ?) Hm Hx. unfold pieceOk. by rewrite Hm, Hx. Qed.

(** A free position puts the piece over columns of the grid. *)
Lemma pieceOk_free arena pl :
  gridOk arena -> (exists n, square n (matrix pl)) ->
  (exists r c, occupied (matrix pl) r c) ->
  collide arena pl = false -> pieceOk pl.
Proof.
  intros Hok Hsq Hocc Hfree. split; [done|]. split; [done|]. intros r c Hrc.
  by destruct (free_inside arena pl r c Hok Hfree Hrc).
Qed.

Lemma occupied_inside n (m : list (list Z)) r c :
  square n m -> occupied m r c -> (r < n)%nat /\ (c < n)%nat.
Proof.
  intros Hsq (v & Hv & _).
  destruct (decide (r < n)%nat); [destruct (decide (c < n)%nat); [done|]|];
    rewrite (cellAt_outside n) in Hv; try done; lia.
Qed.

(** A turned matrix still has an occupied cell. *)
Lemma occupied_rotate n (m : list (list Z)) dir r c :
  square n m -> occupied m r c -> exists r' c', occupied (rotate m dir) r' c'.
Proof.
  intros Hsq Hocc. destruct (occupied_inside n m r c Hsq Hocc) as [Hr Hc].
  destruct Hocc as (v & Hv & Hnz).
  destruct (decide (0 < dir)) as [Hd|Hd].
  - exists c, (n - 1 - r)%nat, v. split; [|done].
    rewrite (cellAt_rotate_cw n); [|done|done|done|lia].
    rewrite <- Hv. f_equal. lia.
  - exists (n - 1 - c)%nat, r, v. split; [|done].
    rewrite (cellAt_rotate_ccw n); [|done|lia|lia|done].
    rewrite <- Hv. f_equal. lia.
Qed.

Lemma firstFit_Some arena pl kicks kick :
  firstFit arena pl kicks = Some kick ->
  collide arena (movedBy kick.1 (- kick.2) pl) = false.
Proof.
  induction kicks as [|k rest IH]; simpl; [done|].
  destruct (collide arena (movedBy k.1 (- k.2) pl)) eqn:E; simpl; [done|].
  by intros [= <-].
Qed.

(** *** The bag *)

Lemma fillBag_shape g :
  exists b c, fillBag g = set_randomCalls c (set_bag b g) /\
              Forall catalogue b /\ b <> [].
Proof.
  pose proof (fillBag_Permutation g) as Hp. unfold fillBag in *.
  destruct (shuffle _ _ _ _) as [shuffled c]. simpl in Hp.
  exists (map TETROMINOS shuffled), c. split; [done|]. split.
  - apply Forall_fmap, Forall_true. intros k. by exists k.
  - intros Hnil. rewrite Hnil in Hp. by apply Permutation_length in Hp.
Qed.

Lemma getNextFromBag_shape g :
  Forall catalogue (bag g) ->
  exists t b c,
    getNextFromBag g = (Some t, set_randomCalls c (set_bag b g)) /\
    catalogue t /\ Forall catalogue b.
Proof.
  intros Hbag.
  assert (Hpop : forall l : list Tetromino, l <> [] -> Forall catalogue l ->
            exists t b, last l = Some t /\ removelast l = b /\
                        catalogue t /\ Forall catalogue b).
  { intros l. induction l as [|x l _] using rev_ind; intros Hne Hl; [done|].
    apply Forall_app in Hl as [Hl Hx]. exists x, l.
    rewrite last_snoc, removelast_last. rewrite Forall_singleton in Hx. done. }
  unfold getNextFromBag. destruct (bag g) as [|x l] eqn:E.
  - destruct (fillBag_shape g) as (b & c & -> & Hb & Hne). simpl.
    destruct (Hpop b Hne Hb) as (t & b' & -> & -> & Ht & Hb').
    exists t, b', c. split; [|done]. by destruct g.
  - cbv zeta. rewrite E.
    destruct (Hpop (x :: l)) as (t & b' & -> & -> & Ht & Hb'); [done|done|].
    exists t, b', (randomCalls g). split; [|done]. by destruct g.
Qed.

(** *** Spawning *)

Lemma sweepFrom_lt arena n : Forall (fun y => (y < n)%nat) (sweepFrom arena n).
Proof.
  induction n as [|n IH]; simpl; [constructor|].
  assert (Hw : Forall (fun y => (y < S n)%nat) (sweepFrom arena n))
    by (eapply Forall_impl; [exact IH|]; simpl; lia).
  repeat case_match; try done. constructor; [lia|done].
Qed.

Lemma gameOver_inv g : invariant g -> invariant (gameOver g).
Proof. unfold gameOver. by case_match. Qed.

Lemma playerReset_inv g : sessionOk g -> invariant (playerReset g).
Proof.
  assert (Hspawn : forall t g1, catalogue t -> sessionOk g1 ->
    invariant
      (let g2 := set_player (spawnPiece t) g1 in
       let '(n, g3) := getNextFromBag g2 in
       let g5 := set_lockMoves 0
                   (set_lockTimer 0%Q (set_isLocking false (set_nextPiece n g3))) in
       if collide (grid g5) (player g5) then gameOver g5 else g5)).
  { intros t g1 Ht (Hgrid & Hlines & Hnext & Hhold & Hbag). cbv zeta.
    destruct (getNextFromBag_shape (set_player (spawnPiece t) g1) Hbag)
      as (n & b & c & -> & Hn & Hb).
    assert (Hinv : invariant
              (set_lockMoves 0 (set_lockTimer 0%Q (set_isLocking false
                 (set_nextPiece (Some n)
                    (set_randomCalls c (set_bag b (set_player (spawnPiece t) g1)))))))).
    { split; [|split; [by apply spawnPiece_ok|done]].
      split; [done|]. split; [done|]. split; [by intros ? [= <-]|]. done. }
    case_match; [by apply gameOver_inv|done]. }
  intros Hs. unfold playerReset.
  destruct (nextPiece g) as [t|] eqn:E.
  - apply Hspawn; [|done]. destruct Hs as (_ & _ & Hnext & _). by apply Hnext.
  - destruct Hs as (Hgrid & Hlines & Hnext & Hhold & Hbag).
    destruct (getNextFromBag_shape g Hbag) as (t & b & c & -> & Ht & Hb).
    apply Hspawn; [done|]. split; [done|]. split; [done|].
    split; [|done]. simpl. by rewrite E.
Qed.

(** *** Each operation keeps the invariant *)

Lemma playerMove_inv dir g : invariant g -> invariant (playerMove dir g).
Proof.
  intros (Hs & Hp & Hc).
  destruct (collide (grid g) (movedBy dir 0 (player g))) eqn:E.
  - by rewrite playerMove_blocked.
  - rewrite playerMove_free by done. cbv zeta.
    assert (Hp' : pieceOk (movedBy dir 0 (player g))).
    { destruct Hp as (Hsq & Hocc & _).
      by apply (pieceOk_free (grid g)); [apply Hs| | |]. }
    by case_match.
Qed.

Lemma playerRotate_inv dir g :
  dir = 1 \/ dir = -1 -> invariant g -> invariant (playerRotate dir g).
Proof.
  intros Hd (Hs & Hp & Hc). destruct Hp as ([n Hsq] & (r & c & Hocc) & Hcols).
  destruct (rotationFit dir g) as [kick|] eqn:E.
  - rewrite (playerRotate_fits dir g kick E). cbv zeta.
    assert (Hp' : pieceOk
              (setRotationIndex (Z.rem (rotationIndex (player g) + dir + 4) 4)
                 (movedBy kick.1 (- kick.2)
                    (setMatrix (rotate (matrix (player g)) dir) (player g))))).
    { apply (pieceOk_free (grid g)); [apply Hs| | |].
      - exists n. by apply rotate_square.
      - by apply (occupied_rotate n _ dir r c).
      - by apply firstFit_Some in E. }
    by case_match.
  - rewrite (playerRotate_fails dir g n); [|done|lia|done].
    split; [done|]. split; [|done]. split; [by exists n|]. by split; [exists r, c|].
Qed.

Lemma playerDrop_inv g : invariant g -> invariant (playerDrop g).
Proof.
  intros (Hs & Hp & Hc). unfold playerDrop. simpl.
  repeat case_match; (split; [done|]); (split; [|exact Hc]);
    (apply (pieceOk_same_column (player g)); [done|done|simpl; lia]).
Qed.

Lemma manualDrop_inv g : invariant g -> invariant (manualDrop g).
Proof.
  intros (Hs & Hp & Hc). unfold manualDrop. simpl.
  repeat case_match; (split; [done|]); (split; [|exact Hc]);
    (apply (pieceOk_same_column (player g)); [done|done|simpl; lia]).
Qed.

Lemma gridOk_length arena : gridOk arena -> length arena = Z.to_nat ROWS.
Proof. by intros [? ?]. Qed.

Lemma lockPiece_inv g :
  invariant g ->
  match lockPiece g with
  | Returns g' | Throws g' => invariant g'
  | OffGrid | Diverges => False
  end.
Proof.
  intros ((Hgrid & Hlines & Hnext & Hhold & Hbag) & Hp & Hc).
  unfold lockPiece.
  pose proof (merge_in_bounds (grid g) (player g) Hgrid (proj2 (proj2 Hp))) as Hm.
  destruct (merge (grid g) (player g)) as [arena|arena|]; simpl in Hm; [| |done].
  - apply playerReset_inv. unfold arenaSweep. simpl.
    pose proof (sweepFrom_lt arena (length arena)) as Hsweep.
    destruct (sweepFrom arena (length arena)) eqn:E;
      (split; [exact Hm|]); (split; [exact Hsweep|]); (split; [exact Hnext|]);
      (split; [exact Hhold|exact Hbag]).
  - destruct Hm as [Harena _]. split; [|done].
    split; [done|]. split; [|done]. simpl.
    by rewrite (gridOk_length _ Harena), <- (gridOk_length _ Hgrid).
Qed.

Lemma playerHardDrop_inv g :
  invariant g ->
  match playerHardDrop g with
  | Returns g' | Throws g' => invariant g'
  | OffGrid | Diverges => False
  end.
Proof.
  intros (Hs & Hp & Hc). unfold playerHardDrop.
  destruct (dropLoop_enough_fuel (grid g) (player g) 0 (proj1 (proj2 Hp)))
    as [[pl' d'] Hloop].
  rewrite Hloop.
  destruct (dropLoop_spec _ _ _ _ _ _ Hloop) as (k & -> & _).
  apply lockPiece_inv. split; [done|]. split; [|done].
  apply (pieceOk_same_column (player g)); [done|done|simpl; lia].
Qed.

Lemma holdTetromino_inv g : invariant g -> invariant (holdTetromino g).
Proof.
  intros ((Hgrid & Hlines & Hnext & Hhold & Hbag) & Hp & Hc).
  unfold holdTetromino. case_match; [done|].
  destruct (holdPiece g) as [held|] eqn:E.
  - split; [|split; [apply spawnPiece_ok; by apply Hhold|by apply Hhold]].
    split; [done|]. split; [done|]. split; [done|]. split; [|done].
    by intros ? [= <-].
  - assert (Hinv : invariant
              (playerReset (set_holdPiece (Some (tetromino (player g))) g))).
    { apply playerReset_inv. split; [done|]. split; [done|]. split; [done|].
      split; [|done]. by intros ? [= <-]. }
    done.
Qed.

Lemma togglePause_inv g : invariant g -> invariant (togglePause g).
Proof. intros H. unfold togglePause. by case_match. Qed.

Lemma clearRow_ok arena y :
  gridOk arena -> (y < length arena)%nat -> gridOk (clearRow arena y).
Proof.
  intros [Hl Hr] Hy. split.
  - unfold clearRow. simpl. rewrite length_delete by (by apply lookup_lt_is_Some).
    lia.
  - constructor; [reflexivity|]. by apply Forall_delete.
Qed.

Lemma clearRows_ok rows : forall arena,
  gridOk arena -> Forall (fun y => (y < length arena)%nat) rows ->
  gridOk (foldl clearRow arena rows).
Proof.
  induction rows as [|y rows IH]; intros arena Hok Hrows; [done|].
  apply Forall_cons in Hrows as [Hy Hrows]. simpl. apply IH.
  - by apply clearRow_ok.
  - by rewrite (gridOk_length _ (clearRow_ok arena y Hok Hy)),
               <- (gridOk_length _ Hok).
Qed.

(** The deferred clear keeps the grid a [ROWS] by [COLS] table. *)
Lemma completeClear_inv g : invariant g -> invariant (completeClear g).
Proof.
  intros ((Hgrid & Hlines & Hnext & Hhold & Hbag) & Hp & Hc).
  assert (Hok : gridOk (foldl clearRow (grid g) (sortDescending (clearingLines g)))).
  { apply clearRows_ok; [done|]. unfold sortDescending.
    by rewrite merge_sort_Permutation. }
  unfold completeClear. simpl. by case_match.
Qed.

Lemma update_inv time g :
  invariant g ->
  match update time g with
  | Returns g' | Throws g' => invariant g'
  | OffGrid | Diverges => False
  end.
Proof.
  intros Hinv. unfold update.
  assert (H1 : invariant (set_lastTime time g)) by done.
  cbv zeta.
  destruct (GAME_STATE_eqb (state (set_lastTime time g)) PLAYING); [|exact H1].
  destruct (isAnimatingClear (set_lastTime time g)).
  - assert (H2 : invariant
              (set_clearAnimationFrame
                 (clearAnimationFrame (set_lastTime time g) + 1)
                 (set_lastTime time g))) by done.
    destruct (18 <=? _); [by apply completeClear_inv|exact H2].
  - set (g2 := set_dropCounter _ _).
    assert (H2 : invariant g2) by done.
    set (g3 := if negb (Qle_bool (dropCounter g2) (dropInterval g2))
               then playerDrop g2 else g2).
    assert (H3 : invariant g3)
      by (unfold g3; destruct (negb _); [by apply playerDrop_inv|done]).
    destruct (isLocking g3); [|exact H3].
    set (g4 := set_lockTimer _ _).
    assert (H4 : invariant g4) by done.
    destruct (Qle_bool lockDelay (lockTimer g4)); [by apply lockPiece_inv|exact H4].
Qed.

Lemma start_inv startLevel g : invariant (start startLevel g).
Proof.
  unfold start. cbv zeta.
  destruct (fillBag_shape
    (set_clearingLines [] (set_isAnimatingClear false
       (set_canHold true (set_holdPiece None (set_bag []
          (set_dropInterval
             (getDropInterval (level (set_level startLevel (set_lines 0
                (set_score 0 (set_grid createGrid g))))))
             (set_level startLevel (set_lines 0
                (set_score 0 (set_grid createGrid g)))))))))))
    as (b & c & -> & Hb & _).
  match goal with |- context [getNextFromBag ?g6] =>
    destruct (getNextFromBag_shape g6 Hb) as (n & b' & c' & -> & Hn & Hb') end.
  assert (Hinv : forall g7, sessionOk g7 ->
            invariant (set_state PLAYING (playerReset g7))).
  { intros g7 H7. by apply playerReset_inv in H7. }
  apply Hinv. split; [apply createGrid_ok|]. split; [constructor|].
  split; [by intros ? [= <-]|]. split; [done|done].
Qed.

Lemma reset_inv g : invariant g -> invariant (reset g).
Proof.
  intros ((Hgrid & Hlines & Hnext & Hhold & Hbag) & Hp & Hc).
  split; [|done]. split; [apply createGrid_ok|]. split; [constructor|].
  split; [done|]. split; [done|constructor].
Qed.

Lemma keydown_inv keyCode slider g :
  invariant g ->
  match keydown keyCode slider g with
  | Returns g' | Throws g' => invariant g'
  | OffGrid | Diverges => False
  end.
Proof.
  intros Hinv. unfold keydown.
  pose proof (playerHardDrop_inv g Hinv) as Hdrop.
  pose proof (playerMove_inv (-1) g Hinv) as Hleft.
  pose proof (playerMove_inv 1 g Hinv) as Hright.
  pose proof (manualDrop_inv g Hinv) as Hdown.
  pose proof (playerRotate_inv 1 g (or_introl eq_refl) Hinv) as Hcw.
  pose proof (playerRotate_inv (-1) g (or_intror eq_refl) Hinv) as Hccw.
  pose proof (holdTetromino_inv g Hinv) as Hhold.
  pose proof (togglePause_inv g Hinv) as Hpause.
  pose proof (start_inv slider g) as Hstart.
  pose proof (start_inv 1 (reset g)) as Hrestart.
  destruct (state g).
  - destruct (keyCode =? 13); [exact Hstart|exact Hinv].
  - destruct keyCode as [|p|p]; [exact Hinv| |exact Hinv].
    do 7 (try (destruct p as [p|p|]; try assumption)).
  - destruct ((keyCode =? 80) || (keyCode =? 27)); [exact Hpause|exact Hinv].
  - destruct (keyCode =? 82); [exact Hrestart|exact Hinv].
Qed.

Lemma perform_inv o g :
  invariant g ->
  match perform o g with
  | Returns g' | Throws g' => invariant g'
  | OffGrid | Diverges => False
  end.
Proof.
  intros Hinv. destruct o as [| | |[]| | | | | | | | | |]; simpl.
  - apply start_inv.
  - by apply reset_inv.
  - by apply playerMove_inv.
  - apply playerRotate_inv; [by left|done].
  - apply playerRotate_inv; [by right|done].
  - by apply manualDrop_inv.
  - by apply playerDrop_inv.
  - by apply playerHardDrop_inv.
  - by apply holdTetromino_inv.
  - by apply togglePause_inv.
  - by apply update_inv.
  - by apply lockPiece_inv.
  - by apply completeClear_inv.
  - by apply keydown_inv.
  - done.
Qed.

Lemma reachable_inv g : reachable g -> invariant g.
Proof.
  induction 1 as [g0 lvl|g o g' _ IH Hop|g o g' _ IH Hop].
  - apply start_inv.
  - pose proof (perform_inv o g IH) as H. by rewrite Hop in H.
  - pose proof (perform_inv o g IH) as H. by rewrite Hop in H.
Qed.

(** C10: in every state reachable after [start] the grid has exactly
    [ROWS = 20] rows of exactly [COLS = 10] cells, and every core operation
    (move, rotate, gravity drop, soft drop, hard drop, hold, lock with its
    merge, the deferred line clear, a frame of the game loop, a key press)
    leaves such a grid, whether it returns or is aborted by the [TypeError]
    of a merge above the top row; no operation writes outside a grid row,
    and the hard drop always ends. *)
Theorem grid_dimensions_invariant g :
  reachable g ->
  ROWS = 20 /\ COLS = 10 /\
  (length (grid g) = 20%nat /\
   Forall (fun row => length row = 10%nat) (grid g)) /\
  forall o,
    match perform o g with
    | Returns g' | Throws g' =>
        length (grid g') = 20%nat /\
        Forall (fun row => length row = 10%nat) (grid g')
    | OffGrid | Diverges => False
    end.
Proof.
  intros Hreach. apply reachable_inv in Hreach as Hinv.
  split; [done|]. split; [done|]. split; [apply Hinv|].
  intros o. pose proof (perform_inv o g Hinv) as Hstep.
  destruct (perform o g) as [g'|g'| |]; try done; apply Hstep.
Qed.

Lemma grid_dimensions_invariant_witness :
  reachable (playerMove 1 started) /\
  length (grid (playerMove 1 started)) = 20%nat /\
  Forall (fun row => length row = 10%nat) (grid (playerMove 1 started)).
Proof.
  assert (Hreach : reachable (playerMove 1 started)).
  { apply (reach_returns started (OpPlayerMove 1)); [|reflexivity].
    apply reach_start. }
  split; [exact Hreach|].
  exact (proj1 (proj2 (proj2 (grid_dimensions_invariant _ Hreach)))).
Defined.

(** * Further properties of the code *)

(** ** Matrix rotation *)

(** X1: on a square matrix the in-place transpose-and-reverse of [rotate]
    computes the quarter turn: clockwise ([dir > 0]) the cell at row [i],
    column [j] comes from row [n - 1 - j], column [i]; counter-clockwise it
    comes from row [j], column [n - 1 - i]; the result is square again. *)
Theorem rotate_quarter_turn {A} n (m : list (list A)) dir i j :
  square n m -> (i < n)%nat -> (j < n)%nat ->
  square n (rotate m dir) /\
  cellAt (rotate m dir) i j =
    if 0 <? dir then cellAt m (n - 1 - j) i else cellAt m j (n - 1 - i).
Proof.
  intros Hsq Hi Hj. split; [by apply rotate_square|].
  destruct (Z.ltb_spec 0 dir).
  - by apply cellAt_rotate_cw.
  - by apply cellAt_rotate_ccw.
Qed.

Lemma rotate_quarter_turn_witness :
  square 3 (shape (TETROMINOS Kind.T)) /\ (0 < 3)%nat /\ (1 < 3)%nat /\
  square 3 (rotate (shape (TETROMINOS Kind.T)) 1) /\
  cellAt (rotate (shape (TETROMINOS Kind.T)) 1) 0 1 =
    if 0 <? 1 then cellAt (shape (TETROMINOS Kind.T)) (3 - 1 - 1) 0
    else cellAt (shape (TETROMINOS Kind.T)) 1 (3 - 1 - 0).
Proof.
  assert (Hsq : square 3 (shape (TETROMINOS Kind.T)))
    by (split; [reflexivity|repeat constructor]).
  assert (H0 : (0 < 3)%nat) by lia.
  assert (H1 : (1 < 3)%nat) by lia.
  split; [exact Hsq|]. split; [exact H0|]. split; [exact H1|].
  exact (rotate_quarter_turn 3 (shape (TETROMINOS Kind.T)) 1 0 1 Hsq H0 H1).
Defined.

(** X2: on a square matrix a turn in one direction followed by a turn in
    the other gives the matrix back, in either order, and four turns in the
    same direction give it back too. *)
Theorem rotate_round_trip {A} n (m : list (list A)) dir :
  square n m -> dir <> 0 ->
  rotate (rotate m dir) (- dir) = m /\
  rotate (rotate m (- dir)) dir = m /\
  rotate (rotate (rotate (rotate m dir) dir) dir) dir = m.
Proof.
  intros Hsq Hd. split; [by apply (rotate_back n)|]. split.
  - rewrite <- (Z.opp_involutive dir) at 2. apply (rotate_back n); [done|lia].
  - by apply (rotate_four n).
Qed.

Lemma rotate_round_trip_witness :
  square 4 (shape (TETROMINOS Kind.I)) /\ 1 <> 0 /\
  rotate (rotate (shape (TETROMINOS Kind.I)) 1) (- 1) = shape (TETROMINOS Kind.I) /\
  rotate (rotate (shape (TETROMINOS Kind.I)) (- 1)) 1 = shape (TETROMINOS Kind.I) /\
  rotate (rotate (rotate (rotate (shape (TETROMINOS Kind.I)) 1) 1) 1) 1 =
    shape (TETROMINOS Kind.I).
Proof.
  assert (Hsq : square 4 (shape (TETROMINOS Kind.I)))
    by (split; [reflexivity|repeat constructor]).
  assert (Hd : 1 <> 0) by discriminate.
  split; [exact Hsq|]. split; [exact Hd|].
  exact (rotate_round_trip 4 (shape (TETROMINOS Kind.I)) 1 Hsq Hd).
Defined.

(** ** Kick tables *)

(** X3: whatever the piece, the rotation state and the direction, the first
    kick candidate is [(0, 0)]; the O piece has no other candidate; for the
    other pieces every transition between rotation states 0..3 by one step
    has five candidates, and the candidates of the transition back are those
    of the transition with both signs changed, in the same order. *)
Theorem kick_data_shape type rotationIndex direction :
  head (getKickData type rotationIndex direction) = Some (0, 0) /\
  getKickData "O" rotationIndex direction = [(0, 0)] /\
  (0 <= rotationIndex < 4 -> direction = 1 \/ direction = -1 -> type <> "O" ->
   length (getKickData type rotationIndex direction) = 5%nat /\
   getKickData type (Z.rem (rotationIndex + direction + 4) 4) (- direction) =
     oppositeKicks (getKickData type rotationIndex direction)).
Proof.
  split; [|split; [done|]].
  - unfold getKickData. repeat case_match; try done.
    + unfold KICKS_I in *. repeat case_match; by simplify_eq.
    + unfold KICKS_JLTSZ in *. repeat case_match; by simplify_eq.
  - intros Hr Hd HO. unfold getKickData.
    destruct (String.eqb_spec type "O"); [done|].
    assert (rotationIndex = 0 \/ rotationIndex = 1 \/ rotationIndex = 2 \/
            rotationIndex = 3) as [-> | [-> | [-> | ->]]] by lia;
      destruct Hd as [-> | ->]; by destruct (String.eqb type "I").
Qed.

Lemma kick_data_shape_witness :
  0 <= 3 < 4 /\ (1 = 1 \/ 1 = -1) /\ "T" <> "O" /\
  length (getKickData "T" 3 1) = 5%nat /\
  getKickData "T" (Z.rem (3 + 1 + 4) 4) (- 1) = oppositeKicks (getKickData "T" 3 1).
Proof.
  assert (Hr : 0 <= 3 < 4) by lia.
  assert (Hd : 1 = 1 \/ 1 = -1) by (left; reflexivity).
  assert (HO : "T" <> "O") by discriminate.
  split; [exact Hr|]. split; [exact Hd|]. split; [exact HO|].
  exact (proj2 (proj2 (kick_data_shape "T" 3 1)) Hr Hd HO).
Defined.

(** ** Moving the piece *)

Lemma kick_head type rotationIndex direction :
  head (getKickData type rotationIndex direction) = Some (0, 0).
Proof.
  unfold getKickData. repeat case_match; try done.
  - unfold KICKS_I in *. repeat case_match; by simplify_eq.
  - unfold KICKS_JLTSZ in *. repeat case_match; by simplify_eq.
Qed.

Lemma collide_setRotationIndex arena r pl :
  collide arena (setRotationIndex r pl) = collide arena pl.
Proof. reflexivity. Qed.

(** X4: a rotation whose turned matrix is free where the piece stands is
    done in place: the position is kept (no kick is applied), the matrix is
    the turned one and the rotation state steps by [dir] modulo 4. *)
Theorem playerRotate_in_place dir g :
  collide (grid g) (setMatrix (rotate (matrix (player g)) dir) (player g)) = false ->
  pos (player (playerRotate dir g)) = pos (player g) /\
  matrix (player (playerRotate dir g)) = rotate (matrix (player g)) dir /\
  rotationIndex (player (playerRotate dir g)) =
    Z.rem (rotationIndex (player g) + dir + 4) 4 /\
  grid (playerRotate dir g) = grid g.
Proof.
  intros Hfree.
  assert (Hfit : rotationFit dir g = Some (0, 0)).
  { unfold rotationFit.
    pose proof (kick_head (id (tetromino (player g))) (rotationIndex (player g)) dir)
      as Hhead.
    destruct (getKickData _ _ _) as [|k rest]; [done|].
    injection Hhead as ->. simpl.
    replace (movedBy 0 (- 0) _) with
      (setMatrix (rotate (matrix (player g)) dir) (player g)).
    - by rewrite Hfree.
    - unfold movedBy, setPos, setMatrix. simpl.
      destruct (pos (player g)) as [x y]. simpl. do 2 f_equal; lia. }
  rewrite (playerRotate_fits dir g (0, 0) Hfit). cbv zeta.
  destruct (isLocking g && (lockMoves g <? maxLockMoves)); simpl;
    (split; [destruct (pos (player g)) as [x y]; simpl; f_equal; lia|done]).
Qed.

Lemma playerRotate_in_place_witness :
  collide (grid started)
    (setMatrix (rotate (matrix (player started)) 1) (player started)) = false /\
  pos (player (playerRotate 1 started)) = pos (player started) /\
  matrix (player (playerRotate 1 started)) = rotate (matrix (player started)) 1 /\
  rotationIndex (player (playerRotate 1 started)) =
    Z.rem (rotationIndex (player started) + 1 + 4) 4 /\
  grid (playerRotate 1 started) = grid started.
Proof.
  assert (Hfree : collide (grid started)
            (setMatrix (rotate (matrix (player started)) 1) (player started)) = false)
    by (vm_compute; reflexivity).
  split; [exact Hfree|]. exact (playerRotate_in_place 1 started Hfree).
Defined.

(** X5: a piece that is free stays free through a horizontal move, a
    rotation, a gravity step and a soft-drop step, whether the operation
    succeeds or is undone; none of them writes the grid. *)
Theorem piece_stays_free g dir n :
  collide (grid g) (player g) = false ->
  square n (matrix (player g)) ->
  (collide (grid (playerMove dir g)) (player (playerMove dir g)) = false /\
   grid (playerMove dir g) = grid g) /\
  (dir <> 0 ->
   collide (grid (playerRotate dir g)) (player (playerRotate dir g)) = false /\
   grid (playerRotate dir g) = grid g) /\
  (collide (grid (playerDrop g)) (player (playerDrop g)) = false /\
   grid (playerDrop g) = grid g) /\
  (collide (grid (manualDrop g)) (player (manualDrop g)) = false /\
   grid (manualDrop g) = grid g).
Proof.
  intros Hfree Hsq.
  assert (Hback : movedBy 0 (-1) (movedBy 0 1 (player g)) = player g).
  { destruct (player g) as [[x y] m t r].
    unfold movedBy, setPos. simpl. do 2 f_equal; lia. }
  split; [|split; [|split]].
  - destruct (collide (grid g) (movedBy dir 0 (player g))) eqn:E.
    + by rewrite playerMove_blocked.
    + rewrite playerMove_free by done. cbv zeta.
      by destruct (isLocking g && (lockMoves g <? maxLockMoves)).
  - intros Hd. destruct (rotationFit dir g) as [kick|] eqn:E.
    + rewrite (playerRotate_fits dir g kick E). cbv zeta.
      apply firstFit_Some in E.
      by destruct (isLocking g && (lockMoves g <? maxLockMoves)).
    + by rewrite (playerRotate_fails dir g n).
  - unfold playerDrop. simpl.
    destruct (collide (grid g) (movedBy 0 1 (player g))) eqn:E; simpl.
    + destruct (isLocking g); simpl; by rewrite Hback.
    + done.
  - unfold manualDrop. simpl.
    destruct (collide (grid g) (movedBy 0 1 (player g))) eqn:E; simpl.
    + destruct (isLocking g); simpl; by rewrite Hback.
    + done.
Qed.

Lemma piece_stays_free_witness :
  collide (grid grounded) (player grounded) = false /\
  square 4 (matrix (player grounded)) /\
  collide (grid (playerDrop grounded)) (player (playerDrop grounded)) = false /\
  grid (playerDrop grounded) = grid grounded.
Proof.
  assert (Hfree : collide (grid grounded) (player grounded) = false)
    by (vm_compute; reflexivity).
  assert (Hsq : square 4 (matrix (player grounded))).
  { split; [vm_compute; reflexivity|]. vm_compute. repeat constructor. }
  split; [exact Hfree|]. split; [exact Hsq|].
  exact (proj1 (proj2 (proj2 (piece_stays_free grounded 1 4 Hfree Hsq)))).
Defined.

(** ** Gravity, soft drop and hard drop *)

Lemma fallenBy_down k pl : movedBy 0 1 (fallenBy k pl) = fallenBy (S k) pl.
Proof. unfold movedBy, fallenBy, setPos. simpl. do 2 f_equal; lia. Qed.

Lemma playerDrop_free g :
  collide (grid g) (movedBy 0 1 (player g)) = false ->
  player (playerDrop g) = movedBy 0 1 (player g) /\
  grid (playerDrop g) = grid g /\ score (playerDrop g) = score g /\
  isLocking (playerDrop g) = false.
Proof. intros H. unfold playerDrop. simpl. by rewrite H. Qed.

Lemma playerDrop_blocked g :
  collide (grid g) (movedBy 0 1 (player g)) = true ->
  player (playerDrop g) = player g /\
  grid (playerDrop g) = grid g /\ score (playerDrop g) = score g /\
  isLocking (playerDrop g) = true.
Proof.
  intros H. unfold playerDrop. simpl. rewrite H.
  destruct (isLocking g) eqn:E; simpl; rewrite movedBy_back; by rewrite ?E.
Qed.

(** The piece after [k] gravity steps through free positions. *)
Lemma playerDrop_free_steps k : forall g,
  (forall j, (j <= k)%nat -> collide (grid g) (fallenBy j (player g)) = false) ->
  player (Nat.iter k playerDrop g) = fallenBy k (player g) /\
  grid (Nat.iter k playerDrop g) = grid g /\
  score (Nat.iter k playerDrop g) = score g.
Proof.
  induction k as [|k IH]; intros g Hfree.
  - simpl. by rewrite fallenBy_0.
  - destruct (IH g) as (Hp & Hg & Hs); [intros j Hj; apply Hfree; lia|].
    change (Nat.iter (S k) playerDrop g)
      with (playerDrop (Nat.iter k playerDrop g)).
    destruct (playerDrop_free (Nat.iter k playerDrop g)) as (Hp' & Hg' & Hs' & _).
    { rewrite Hp, Hg, fallenBy_down. apply Hfree. lia. }
    rewrite Hp', Hg', Hs', Hp, fallenBy_down. by rewrite Hg, Hs.
Qed.

(** X6: gravity and the hard drop agree on the resting row.  If the piece is
    free down to [k] rows below its place and collides one row further,
    then [k + 1] gravity steps leave it [k] rows down with the lock delay
    armed, grid and score untouched, and the hard drop locks it on that same
    row, adding [2 * k] points. *)
Theorem gravity_and_hard_drop_agree g k :
  (forall j, (j <= k)%nat -> collide (grid g) (fallenBy j (player g)) = false) ->
  collide (grid g) (fallenBy (S k) (player g)) = true ->
  let g' := Nat.iter (S k) playerDrop g in
  player g' = fallenBy k (player g) /\
  isLocking g' = true /\ grid g' = grid g /\ score g' = score g /\
  playerHardDrop g =
    lockPiece (set_score (score g + 2 * Z.of_nat k)
                 (set_player (fallenBy k (player g)) g)).
Proof.
  intros Hfree Hhit. cbv zeta.
  destruct (playerDrop_free_steps k g Hfree) as (Hp & Hg & Hs).
  change (Nat.iter (S k) playerDrop g)
    with (playerDrop (Nat.iter k playerDrop g)).
  destruct (playerDrop_blocked (Nat.iter k playerDrop g)) as (Hp' & Hg' & Hs' & Hl').
  { by rewrite Hp, Hg, fallenBy_down. }
  rewrite Hp', Hg', Hs', Hl', Hp, Hg, Hs.
  split; [done|]. split; [done|]. split; [done|]. split; [done|].
  assert (Hocc : exists r c, occupied (matrix (player g)) r c).
  { apply collide_true in Hhit as (r & c & Hocc & _). by exists r, c. }
  destruct (dropLoop_enough_fuel (grid g) (player g) 0 Hocc) as [[pl' d'] Hloop].
  destruct (dropLoop_spec _ _ _ _ _ _ Hloop) as (k' & -> & -> & Hhit' & Hfree').
  assert (k' = S k) as ->.
  { destruct (decide (k' <= k)%nat) as [Hle|Hgt].
    - by rewrite (Hfree k' Hle) in Hhit'.
    - destruct (decide (S k < k')%nat) as [Hlt|?]; [|lia].
      by rewrite (Hfree' (S k) Hlt) in Hhit. }
  unfold playerHardDrop. rewrite Hloop, fallenBy_back. simpl.
  do 2 f_equal. lia.
Qed.

Lemma gravity_and_hard_drop_agree_witness :
  (forall j, (j <= 18)%nat ->
             collide (grid started) (fallenBy j (player started)) = false) /\
  collide (grid started) (fallenBy 19 (player started)) = true /\
  player (Nat.iter 19 playerDrop started) = fallenBy 18 (player started) /\
  isLocking (Nat.iter 19 playerDrop started) = true.
Proof.
  assert (Hfree : forall j, (j <= 18)%nat ->
            collide (grid started) (fallenBy j (player started)) = false).
  { intros j Hj. do 19 (destruct j as [|j]; [vm_compute; reflexivity|]). lia. }
  assert (Hhit : collide (grid started) (fallenBy 19 (player started)) = true)
    by (vm_compute; reflexivity).
  split; [exact Hfree|]. split; [exact Hhit|].
  destruct (gravity_and_hard_drop_agree started 18 Hfree Hhit) as (Hp & Hl & _).
  split; [exact Hp|exact Hl].
Defined.

(** X7: a soft-drop step is a gravity step that also pays one point when
    the piece advances: blocked, the two leave the same game. *)
Theorem manualDrop_is_playerDrop_plus_point g :
  manualDrop g =
  if collide (grid g) (movedBy 0 1 (player g)) then playerDrop g
  else set_score (score g + 1) (playerDrop g).
Proof.
  unfold manualDrop, playerDrop. simpl.
  destruct (collide (grid g) (movedBy 0 1 (player g))); [done|].
  by destruct g.
Qed.

(** ** What [merge] writes *)

Lemma at_cons {A} (v : A) rest i :
  at_ (v :: rest) i = if i =? 0 then Some v else at_ rest (i - 1).
Proof.
  unfold at_. destruct (Z.eqb_spec i 0) as [->|Hne]; [done|].
  destruct (Z.ltb_spec i 0), (Z.ltb_spec (i - 1) 0); try lia; [done|].
  replace (Z.to_nat i) with (S (Z.to_nat (i - 1))) by lia. done.
Qed.

Lemma storeCell_gridAt arena r c v arena' R C :
  storeCell arena r c v = Stored arena' ->
  gridAt arena' R C =
  if bool_decide (R = r /\ C = c) then Some v else gridAt arena R C.
Proof.
  unfold storeCell. destruct (at_ arena r) as [row|] eqn:Hrow; [|done].
  destruct ((0 <=? c) && (c <? Z.of_nat (length row))) eqn:Hc; [|done].
  intros [= <-]. apply andb_prop in Hc as [Hc1 Hc2].
  apply Z.leb_le in Hc1. apply Z.ltb_lt in Hc2.
  unfold at_ in Hrow. destruct (Z.ltb_spec r 0) as [|Hr]; [done|].
  unfold gridAt, at_. destruct (Z.ltb_spec R 0) as [HR|HR].
  { rewrite bool_decide_eq_false_2 by lia. done. }
  destruct (decide (R = r)) as [->|HRr].
  - rewrite list_lookup_insert_eq by (by eapply lookup_lt_Some).
    rewrite Hrow. simpl. destruct (Z.ltb_spec C 0) as [HC|HC].
    { rewrite bool_decide_eq_false_2 by lia. done. }
    destruct (decide (C = c)) as [->|HCc].
    + rewrite bool_decide_eq_true_2 by done.
      apply list_lookup_insert_eq. lia.
    + rewrite bool_decide_eq_false_2 by tauto.
      apply list_lookup_insert_ne. lia.
  - rewrite bool_decide_eq_false_2 by tauto.
    rewrite list_lookup_insert_ne by lia. done.
Qed.

Lemma mergeCells_gridAt cells colour r ox : forall arena x arena' R C,
  mergeCells arena cells x r ox colour = Stored arena' ->
  gridAt arena' R C =
  if bool_decide (R = r) &&
     match at_ cells (C - ox - Z.of_nat x) with
     | Some v => negb (v =? 0)
     | None => false
     end
  then Some (Colour colour) else gridAt arena R C.
Proof.
  induction cells as [|v rest IH]; intros arena x arena' R C; simpl.
  - intros [= <-]. unfold at_.
    destruct (_ <? 0); rewrite ?lookup_nil, andb_false_r; done.
  - rewrite at_cons.
    replace (C - ox - Z.of_nat x - 1) with (C - ox - Z.of_nat (S x)) by lia.
    destruct (Z.eqb_spec v 0) as [->|Hv].
    + intros H. rewrite (IH _ _ _ R C H).
      destruct (Z.eqb_spec (C - ox - Z.of_nat x) 0) as [H0|H0]; [|done].
      simpl. rewrite andb_false_r.
      unfold at_. destruct (Z.ltb_spec (C - ox - Z.of_nat (S x)) 0); [|lia].
      by rewrite andb_false_r.
    + destruct (storeCell arena r (Z.of_nat x + ox) (Colour colour))
        as [arena1| |] eqn:Hstore; [|done..].
      intros H. rewrite (IH _ _ _ R C H).
      rewrite (storeCell_gridAt _ _ _ _ _ R C Hstore).
      destruct (Z.eqb_spec (C - ox - Z.of_nat x) 0) as [H0|H0].
      * assert (negb (v =? 0) = true) as -> by (by apply negb_true_iff, Z.eqb_neq).
        unfold at_. destruct (Z.ltb_spec (C - ox - Z.of_nat (S x)) 0); [|lia].
        rewrite andb_false_r, andb_true_r.
        repeat case_bool_decide; try done; exfalso; intuition lia.
      * destruct (_ && _); [done|].
        rewrite bool_decide_eq_false_2; [done|lia].
Qed.

Lemma mergeRows_gridAt rows colour o : forall arena y arena' R C,
  mergeRows arena rows y o colour = Stored arena' ->
  gridAt arena' R C =
  if filledAt rows (R - o.2 - Z.of_nat y) (C - o.1)
  then Some (Colour colour) else gridAt arena R C.
Proof.
  induction rows as [|row rest IH]; intros arena y arena' R C; simpl.
  - intros [= <-]. unfold filledAt, at_.
    rewrite lookup_nil. by destruct (R - o.2 - Z.of_nat y <? 0).
  - destruct (mergeCells arena row 0 (Z.of_nat y + o.2) o.1 colour)
      as [arena1| |] eqn:Hcells; [|done..].
    intros H. rewrite (IH _ _ _ R C H).
    rewrite (mergeCells_gridAt _ _ _ _ _ _ _ R C Hcells).
    replace (C - o.1 - Z.of_nat 0) with (C - o.1) by lia.
    unfold filledAt at 2. rewrite at_cons.
    replace (R - o.2 - Z.of_nat y - 1) with (R - o.2 - Z.of_nat (S y)) by lia.
    destruct (Z.eqb_spec (R - o.2 - Z.of_nat y) 0) as [H0|H0].
    + rewrite bool_decide_eq_true_2 by lia. simpl.
      assert (filledAt rest (R - o.2 - Z.of_nat (S y)) (C - o.1) = false) as ->.
      { unfold filledAt, at_.
        destruct (Z.ltb_spec (R - o.2 - Z.of_nat (S y)) 0); [done|lia]. }
      done.
    + rewrite bool_decide_eq_false_2 by lia. simpl.
      fold (filledAt rest (R - o.2 - Z.of_nat (S y)) (C - o.1)). done.
Qed.

(** X8: a completed [merge] writes the piece and nothing else.  Afterwards
    a grid cell holds the colour of the piece where the matrix, laid at the
    position of the piece, has a non-zero cell, and what it held before
    everywhere else. *)
Theorem merge_writes_the_piece arena pl merged r c :
  merge arena pl = Stored merged ->
  gridAt merged r c =
  if filledAt (matrix pl) (r - (pos pl).2) (c - (pos pl).1)
  then Some (Colour (color (tetromino pl)))
  else gridAt arena r c.
Proof.
  unfold merge. intros H.
  rewrite (mergeRows_gridAt _ _ _ _ _ _ r c H).
  by replace (r - (pos pl).2 - Z.of_nat 0) with (r - (pos pl).2) by lia.
Qed.

Lemma merge_writes_the_piece_witness :
  exists merged,
    merge (grid grounded) (player grounded) = Stored merged /\
    gridAt merged 19 4 = Some (Colour "#00f0f0") /\
    gridAt merged 18 4 = Some Zero.
Proof.
  destruct (merge (grid grounded) (player grounded)) as [merged| |] eqn:H;
    [|vm_compute in H; discriminate H..].
  exists merged. split; [done|].
  split.
  - rewrite (merge_writes_the_piece _ _ _ 19 4 H). vm_compute. reflexivity.
  - rewrite (merge_writes_the_piece _ _ _ 18 4 H). vm_compute. reflexivity.
Defined.

(** ** Sweep and line clear *)

Lemma sweepFrom_elem arena n y :
  y ∈ sweepFrom arena n <->
  (y < n)%nat /\ exists row, arena !! y = Some row /\ isFull row = true.
Proof.
  induction n as [|n IH]; simpl.
  - rewrite elem_of_nil. split; [done|]. intros [? _]. lia.
  - destruct (arena !! n) as [row|] eqn:Hrow.
    + destruct (isFull row) eqn:Hfull.
      * rewrite elem_of_cons, IH. split.
        -- intros [->|[? ?]]; [|split; [lia|done]].
           split; [lia|]. by exists row.
        -- intros [Hlt Hy]. destruct (decide (y = n)) as [->|?]; [by left|].
           right. split; [lia|done].
      * rewrite IH. split.
        -- intros [? ?]. split; [lia|done].
        -- intros [Hlt (row' & Hy & Hf)]. split; [|by exists row'].
           destruct (decide (y = n)) as [->|?]; [|lia]. congruence.
    + rewrite IH. split.
      * intros [? ?]. split; [lia|done].
      * intros [Hlt (row' & Hy & Hf)]. split; [|by exists row'].
        destruct (decide (y = n)) as [->|?]; [|lia]. congruence.
Qed.

Lemma sweepFrom_descending arena n : descending (sweepFrom arena n).
Proof.
  induction n as [|n IH]; simpl; [constructor|].
  repeat case_match; try done. constructor; [done|]. apply sweepFrom_lt.
Qed.

Lemma descending_sorted rows : descending rows -> sortDescending rows = rows.
Proof.
  intros Hdesc.
  assert (Htrans : Transitive staysBefore) by (intros a b c; unfold staysBefore; lia).
  assert (Htotal : Total staysBefore) by (intros a b; unfold staysBefore; lia).
  assert (Hanti : AntiSymm (=) staysBefore) by (intros a b; unfold staysBefore; lia).
  apply (StronglySorted_unique staysBefore).
  - apply StronglySorted_merge_sort; done.
  - clear -Hdesc. induction Hdesc as [|a l Hl IH Ha]; constructor; [done|].
    eapply Forall_impl; [exact Ha|]. unfold staysBefore. simpl. lia.
  - apply merge_sort_Permutation.
Qed.

(** X9: the sweep lists the full rows, all of them and no other, from the
    bottom of the grid upwards, so that the sort in [completeClear] leaves
    the list as it is.  The clear animation is switched on when a row is
    listed, and the grid is not touched. *)
Theorem arenaSweep_lists_full_rows g :
  let rows := clearingLines (arenaSweep g) in
  (forall y, y ∈ rows <->
             exists row, grid g !! y = Some row /\ isFull row = true) /\
  descending rows /\
  sortDescending rows = rows /\
  isAnimatingClear (arenaSweep g) =
    (if bool_decide (rows = []) then isAnimatingClear g else true) /\
  grid (arenaSweep g) = grid g.
Proof.
  cbv zeta.
  assert (Hrows : clearingLines (arenaSweep g) =
                  sweepFrom (grid g) (length (grid g))).
  { unfold arenaSweep. simpl. by destruct (sweepFrom _ _). }
  rewrite Hrows. split; [|split; [|split; [|split]]].
  - intros y. rewrite sweepFrom_elem. split.
    + by intros [_ ?].
    + intros (row & Hy & Hf). split; [by eapply lookup_lt_Some|by exists row].
  - apply sweepFrom_descending.
  - apply descending_sorted, sweepFrom_descending.
  - unfold arenaSweep. simpl. by destruct (sweepFrom _ _).
  - apply arenaSweep_frame.
Qed.

Lemma keptRows_from l y : forall s,
  (filter (fun p : nat * list cell => p.1 ∉ [y]) (zip (seq s (length l)) l)).*2 =
  if decide (y < s)%nat then l else delete (y - s)%nat l.
Proof.
  induction l as [|row l IH]; intros s; simpl.
  - by case_decide.
  - rewrite filter_cons. simpl.
    destruct (decide (s ∉ [y])) as [Hs|Hs]; rewrite ?fmap_cons, (IH (S s)); simpl.
    + rewrite list_elem_of_singleton in Hs.
      repeat case_decide; try lia; [done|].
      replace (y - s)%nat with (S (y - S s)) by lia. done.
    + apply dec_stable in Hs. rewrite list_elem_of_singleton in Hs. subst s.
      repeat case_decide; try lia.
      by rewrite Nat.sub_diag.
Qed.

(** X10: one completed line is cleared as it should be.  With a single row
    listed, [completeClear] removes that row, puts an empty row on top and
    leaves the other rows in their order; it counts one line and adds
    [100 * level] to the score. *)
Theorem completeClear_single_row g y :
  clearingLines g = [y] -> (y < length (grid g))%nat ->
  grid (completeClear g) = expectedClear (grid g) [y] /\
  grid (completeClear g) = emptyRow :: delete y (grid g) /\
  lines (completeClear g) = lines g + 1 /\
  score (completeClear g) = score g + 100 * level g /\
  clearingLines (completeClear g) = [] /\
  isAnimatingClear (completeClear g) = false.
Proof.
  intros Hrows Hy.
  assert (Hgrid : grid (completeClear g) = emptyRow :: delete y (grid g)).
  { unfold completeClear. rewrite Hrows. simpl. by destruct (_ >? _). }
  split; [|split; [done|]].
  - rewrite Hgrid. unfold expectedClear, keptRows. simpl.
    rewrite (keptRows_from (grid g) y 0). simpl. by rewrite Nat.sub_0_r.
  - unfold completeClear. rewrite Hrows. simpl.
    destruct (_ >? _); simpl; repeat split; lia.
Qed.

Lemma completeClear_single_row_witness :
  grid (completeClear (set_clearingLines [19%nat] (set_grid stack started))) =
  emptyRow :: delete 19%nat stack.
Proof.
  apply (completeClear_single_row
           (set_clearingLines [19%nat] (set_grid stack started)) 19).
  - reflexivity.
  - vm_compute. lia.
Defined.

(** ** Drop interval *)

Lemma framesTable_range level v :
  framesTable level = Some v -> 0 <= level <= 19 /\ 3 <= v <= 48.
Proof.
  unfold framesTable. intros H.
  destruct level as [|p|p]; [by simplify_eq| |done].
  do 5 (try (destruct p as [p|p|]); simpl in H; try done;
        try (simplify_eq; lia)).
Qed.

Lemma frames_step level :
  0 <= level ->
  default (if 19 <? level + 1 then 2 else 4) (framesTable (level + 1)) <=
  default (if 19 <? level then 2 else 4) (framesTable level).
Proof.
  intros Hlevel.
  destruct (decide (level <= 19)) as [Hle|Hgt].
  - assert (Hcases : level = 0 \/ level = 1 \/ level = 2 \/ level = 3 \/
                     level = 4 \/ level = 5 \/ level = 6 \/ level = 7 \/
                     level = 8 \/ level = 9 \/ level = 10 \/ level = 11 \/
                     level = 12 \/ level = 13 \/ level = 14 \/ level = 15 \/
                     level = 16 \/ level = 17 \/ level = 18 \/ level = 19) by lia.
    repeat (destruct Hcases as [->|Hcases]; [vm_compute; discriminate|]).
    subst level. vm_compute. discriminate.
  - destruct (framesTable level) eqn:E1;
      [apply framesTable_range in E1; lia|].
    destruct (framesTable (level + 1)) eqn:E2;
      [apply framesTable_range in E2; lia|].
    destruct (Z.ltb_spec 19 level), (Z.ltb_spec 19 (level + 1)); simpl; lia.
Qed.

Lemma frames_antitone a b :
  0 <= a <= b ->
  2 <= default (if 19 <? b then 2 else 4) (framesTable b) <=
  default (if 19 <? a then 2 else 4) (framesTable a).
Proof.
  intros [Ha Hab]. split.
  - destruct (framesTable b) eqn:E; simpl.
    + apply framesTable_range in E. lia.
    + by destruct (19 <? b).
  - pose proof Hab as Hab'. revert Hab. pattern b.
    apply Zlt_lower_bound_ind with (z := a); [|lia].
    clear b Hab'. intros b IH _ Hab.
    destruct (decide (b = a)) as [->|Hne]; [lia|].
    replace b with ((b - 1) + 1) by lia.
    etrans; [apply frames_step; lia|]. apply IH; lia.
Qed.

(** X11: the game never slows down as the level rises.  From level 0
    upwards the drop interval is positive and does not grow with the level;
    beyond level 19 it stays at two frames. *)
Theorem getDropInterval_antitone a b :
  0 <= a <= b ->
  (0 < getDropInterval b)%Q /\
  (getDropInterval b <= getDropInterval a)%Q /\
  (19 < b -> getDropInterval b = (inject_Z 2 / 60 * 1000)%Q).
Proof.
  intros Hab. destruct (frames_antitone a b Hab) as [H2 Hle].
  unfold getDropInterval. cbv zeta.
  set (fb := default _ (framesTable b)) in *.
  set (fa := default _ (framesTable a)) in *.
  split; [|split].
  - unfold Qlt. simpl. lia.
  - unfold Qle. simpl. lia.
  - intros Hb. subst fb. destruct (framesTable b) eqn:E.
    + apply framesTable_range in E. lia.
    + simpl. destruct (Z.ltb_spec 19 b); [done|lia].
Qed.

Lemma getDropInterval_antitone_witness :
  (getDropInterval 9 <= getDropInterval 1)%Q.
Proof. apply (getDropInterval_antitone 1 9). lia. Defined.

(** ** Spawning and the start of a session *)

Lemma fillBag_sets g :
  exists b c, fillBag g = set_randomCalls c (set_bag b g) /\
              b ≡ₚ TETROMINOS <$> pieces.
Proof.
  unfold fillBag.
  pose proof (shuffle_Permutation (random g) (randomCalls g) pieces
                (length pieces - 1)) as Hperm.
  destruct (shuffle _ _ _ _) as [shuffled calls]. simpl in Hperm.
  exists (map TETROMINOS shuffled), calls. split; [done|].
  by apply fmap_Permutation.
Qed.

(** What [getNextFromBag] hands out and leaves: the last piece of the bag,
    of a fresh bag when the bag was empty. *)
Lemma getNextFromBag_sets g :
  exists t b c,
    getNextFromBag g = (Some t, set_randomCalls c (set_bag b g)) /\
    (bag g <> [] -> bag g = (b ++ [t])%list) /\
    (bag g = [] -> (b ++ [t])%list ≡ₚ TETROMINOS <$> pieces).
Proof.
  unfold getNextFromBag. destruct (bag g) as [|t0 rest] eqn:Hbag.
  - destruct (fillBag_sets g) as (b & c & -> & Hperm). simpl.
    assert (Hne : b <> []).
    { intros ->. by apply Permutation_nil_l in Hperm. }
    destruct (exists_last Hne) as (b' & t & ->).
    exists t, b', c. rewrite last_snoc, removelast_last.
    split; [done|]. split; [done|]. intros _. exact Hperm.
  - rewrite <- Hbag.
    assert (Hne : bag g <> []) by (by rewrite Hbag).
    destruct (exists_last Hne) as (b' & t & Hb).
    exists t, b', (randomCalls g). rewrite Hb, last_snoc, removelast_last.
    split; [by destruct g|]. split; [done|]. by intros [_ [=]]%app_eq_nil.
Qed.

(** [playerReset] with a piece in the queue. *)
Lemma playerReset_next g t :
  nextPiece g = Some t ->
  exists n b c,
    (bag g <> [] -> bag g = (b ++ [n])%list) /\
    (bag g = [] -> (b ++ [n])%list ≡ₚ TETROMINOS <$> pieces) /\
    playerReset g =
      let g5 :=
        set_lockMoves 0 (set_lockTimer 0%Q (set_isLocking false
          (set_nextPiece (Some n) (set_randomCalls c (set_bag b
             (set_player (spawnPiece t) g)))))) in
      if collide (grid g) (spawnPiece t) then gameOver g5 else g5.
Proof.
  intros Hnext. unfold playerReset. rewrite Hnext.
  destruct (getNextFromBag_sets (set_player (spawnPiece t) g))
    as (n & b & c & -> & Hb1 & Hb2).
  exists n, b, c. split; [exact Hb1|]. split; [exact Hb2|]. done.
Qed.

(** X12: with a piece in the queue, [playerReset] makes that piece the
    active one, centred on the top row in its catalogue orientation, draws
    the next piece and resets the lock delay.  The game is over exactly when
    the new piece collides where it spawns, and then the high score is the
    larger of score and former high score; otherwise state and high score
    stay. *)
Theorem playerReset_spawns_next g t :
  nextPiece g = Some t ->
  let g' := playerReset g in
  player g' = spawnPiece t /\ grid g' = grid g /\ score g' = score g /\
  is_Some (nextPiece g') /\
  isLocking g' = false /\ lockMoves g' = 0 /\
  (if collide (grid g) (spawnPiece t)
   then state g' = GAMEOVER /\ highScore g' = Z.max (score g) (highScore g)
   else state g' = state g /\ highScore g' = highScore g).
Proof.
  intros Hnext. cbv zeta.
  destruct (playerReset_next g t Hnext) as (n & b & c & _ & _ & ->).
  cbv zeta. unfold gameOver.
  destruct (collide (grid g) (spawnPiece t)); simpl.
  - destruct (Z.gtb_spec (score g) (highScore g)); simpl;
      (split; [done|]); (split; [done|]); (split; [done|]);
      (split; [by eexists|]); (split; [done|]); (split; [done|]);
      (split; [done|]); lia.
  - split; [done|]. split; [done|]. split; [done|].
    split; [by eexists|]. done.
Qed.

Lemma playerReset_spawns_next_witness :
  player (playerReset started) = spawnPiece (TETROMINOS Kind.Z) /\
  state (playerReset started) = PLAYING.
Proof.
  assert (Hnext : nextPiece started = Some (TETROMINOS Kind.Z))
    by (vm_compute; reflexivity).
  destruct (playerReset_spawns_next started _ Hnext)
    as (Hp & _ & _ & _ & _ & _ & Hs).
  split; [exact Hp|].
  assert (Hfree : collide (grid started) (spawnPiece (TETROMINOS Kind.Z)) = false)
    by (vm_compute; reflexivity).
  rewrite Hfree in Hs. destruct Hs as [-> _]. vm_compute. reflexivity.
Defined.

Lemma spawn_free_on_createGrid k :
  collide createGrid (spawnPiece (TETROMINOS k)) = false.
Proof. destruct k; vm_compute; reflexivity. Qed.

Lemma elem_of_catalogue t : t ∈ TETROMINOS <$> pieces -> exists k, t = TETROMINOS k.
Proof. intros (k & -> & _)%list_elem_of_fmap. by exists k. Qed.

(** What [start] leaves, whatever the object held before. *)
Lemma start_sets startLevel g0 :
  let g := start startLevel g0 in
  state g = PLAYING /\ grid g = createGrid /\
  score g = 0 /\ lines g = 0 /\ level g = startLevel /\
  dropInterval g = getDropInterval startLevel /\
  holdPiece g = None /\ canHold g = true /\ highScore g = highScore g0 /\
  isAnimatingClear g = false /\ clearingLines g = [] /\
  isLocking g = false /\ lockMoves g = 0 /\
  player g = spawnPiece (tetromino (player g)) /\
  collide (grid g) (player g) = false /\
  exists next,
    nextPiece g = Some next /\
    tetromino (player g) :: next :: bag g ≡ₚ TETROMINOS <$> pieces.
Proof.
  cbv zeta. unfold start. cbv zeta.
  set (g5 := set_clearingLines [] _).
  destruct (fillBag_sets g5) as (b6 & c6 & -> & Hperm).
  set (g6 := set_randomCalls c6 (set_bag b6 g5)).
  assert (Hne6 : bag g6 <> []).
  { simpl. intros ->. by apply Permutation_nil_l in Hperm. }
  destruct (getNextFromBag_sets g6) as (t & b7 & c7 & -> & Hb7 & _).
  specialize (Hb7 Hne6). simpl in Hb7.
  set (g7 := set_nextPiece (Some t) _).
  assert (Hne7 : bag g7 <> []).
  { simpl. intros ->. rewrite Hb7 in Hperm. by apply Permutation_length in Hperm. }
  destruct (playerReset_next g7 t eq_refl) as (n & b & c & Hb & _ & ->).
  specialize (Hb Hne7). simpl in Hb. cbv zeta.
  assert (Hcat : exists k, t = TETROMINOS k).
  { apply elem_of_catalogue. rewrite <- Hperm, Hb7.
    apply elem_of_app. right. by apply list_elem_of_singleton. }
  destruct Hcat as [k ->].
  assert (Hgrid : grid g7 = createGrid) by done. rewrite Hgrid.
  rewrite spawn_free_on_createGrid. simpl.
  split; [done|]. split; [done|]. split; [done|]. split; [done|].
  split; [done|]. split; [done|]. split; [done|]. split; [done|].
  split; [done|]. split; [done|]. split; [done|]. split; [done|].
  split; [done|]. split; [done|].
  split; [apply spawn_free_on_createGrid|].
  exists n. split; [done|].
  rewrite <- Hperm, Hb7, Hb.
  rewrite <- !app_assoc. simpl.
  rewrite (Permutation_app_comm b [n; TETROMINOS k]). simpl.
  apply perm_swap.
Qed.

(** X13: [start], from whatever the object held before, opens a session on
    an empty grid with score and lines at 0, the level and drop interval
    asked for, an empty hold slot and the high score kept.  The active
    piece, the next piece and the bag are together one fresh bag: each of
    the seven pieces once.  The active piece sits free at its spawn
    position and the state is [PLAYING]. *)
Theorem start_deals_fresh_bag startLevel g0 :
  let g := start startLevel g0 in
  state g = PLAYING /\ grid g = createGrid /\
  score g = 0 /\ lines g = 0 /\ level g = startLevel /\
  dropInterval g = getDropInterval startLevel /\
  holdPiece g = None /\ canHold g = true /\ highScore g = highScore g0 /\
  isAnimatingClear g = false /\ clearingLines g = [] /\
  isLocking g = false /\ lockMoves g = 0 /\
  player g = spawnPiece (tetromino (player g)) /\
  collide (grid g) (player g) = false /\
  exists next,
    nextPiece g = Some next /\
    tetromino (player g) :: next :: bag g ≡ₚ TETROMINOS <$> pieces.
Proof. apply start_sets. Qed.

(** ** Counters and queue in every reachable state *)

Lemma consistent_of g g' :
  0 <= lockMoves g' <= maxLockMoves ->
  matrix (player g') = matrix (player g) ->
  rotationIndex (player g') = rotationIndex (player g) ->
  tetromino (player g') = tetromino (player g) ->
  nextPiece g' = nextPiece g -> bag g' = bag g ->
  consistent g -> consistent g'.
Proof.
  intros Hl Hm Hr Ht Hn Hb (_ & Hrot & Hnext & Hbag).
  unfold consistent. by rewrite Hm, Hr, Ht, Hn, Hb.
Qed.

Lemma catalogue_square t : catalogue t -> exists n, square n (shape t).
Proof.
  intros [k ->]. exists (length (shape (TETROMINOS k))).
  destruct k; (split; [reflexivity|]); repeat constructor.
Qed.

Lemma turned_square {n} k s : square n s -> square n (turned k s).
Proof.
  intros Hs. induction k as [|k IH]; [done|]. by apply rotate_square.
Qed.

(** A quarter turn of a shape that is [k] quarter turns from the catalogue
    moves the rotation index as [playerRotate] does. *)
Lemma turned_rotate n k s dir :
  square n s -> (k < 4)%nat -> dir = 1 \/ dir = -1 ->
  exists k', (k' < 4)%nat /\
             Z.rem (Z.of_nat k + dir + 4) 4 = Z.of_nat k' /\
             rotate (turned k s) dir = turned k' s.
Proof.
  intros Hs Hk [-> | ->].
  - destruct (decide (k = 3%nat)) as [->|Hne].
    + exists 0%nat. split; [lia|]. split; [done|].
      apply (rotate_four n s 1 Hs).
    + exists (S k). split; [lia|]. split; [|done].
      do 3 (destruct k as [|k]; [done|]). lia.
  - destruct k as [|k].
    + exists 3%nat. split; [lia|]. split; [done|].
      rewrite <- (rotate_four n s 1 Hs) at 1.
      apply (rotate_back n (turned 3 s) 1); [by apply turned_square|done].
    + exists k. split; [lia|]. split.
      * do 3 (destruct k as [|k]; [done|]). lia.
      * apply (rotate_back n (turned k s) 1); [by apply turned_square|done].
Qed.

Lemma NoDup_ids :
  NoDup (id <$> (TETROMINOS <$> pieces)).
Proof. refine (bool_decide_unpack _ _). vm_compute. exact I. Qed.

Lemma NoDup_ids_front (b : list Tetromino) t :
  NoDup (id <$> (b ++ [t])%list) -> NoDup (id <$> b).
Proof. rewrite fmap_app. by intros [? _]%NoDup_app. Qed.

Lemma playerReset_consistent g : consistent g -> consistent (playerReset g).
Proof.
  intros (Hl & Hrot & [t Hnext] & Hbag).
  destruct (playerReset_next g t Hnext) as (n & b & c & Hb1 & Hb2 & ->).
  cbv zeta.
  assert (Hb : NoDup (id <$> b)).
  { destruct (bag g) as [|t0 rest] eqn:E.
    - apply (NoDup_ids_front b n). rewrite (Hb2 eq_refl). apply NoDup_ids.
    - apply (NoDup_ids_front b n). by rewrite <- Hb1. }
  assert (Hok : consistent
            (set_lockMoves 0 (set_lockTimer 0%Q (set_isLocking false
               (set_nextPiece (Some n) (set_randomCalls c (set_bag b
                  (set_player (spawnPiece t) g)))))))).
  { split; [simpl; unfold maxLockMoves; lia|].
    split; [by exists 0%nat; split; [lia|]|]. split; [by eexists|exact Hb]. }
  destruct (collide (grid g) (spawnPiece t)); [|exact Hok].
  revert Hok. generalize (set_lockMoves 0 (set_lockTimer 0%Q (set_isLocking false
               (set_nextPiece (Some n) (set_randomCalls c (set_bag b
                  (set_player (spawnPiece t) g))))))).
  intros g5 Hok. unfold gameOver. by destruct (_ >? _).
Qed.

Lemma playerMove_consistent dir g : consistent g -> consistent (playerMove dir g).
Proof.
  intros Hc. destruct (playerMove_lock dir g) as (_ & _ & Hl).
  cbv zeta in Hl.
  apply (consistent_of g); [..|exact Hc].
  - rewrite Hl. destruct Hc as [Hc _]. unfold maxLockMoves in *.
    destruct (negb _ && isLocking g && (lockMoves g <? 15)) eqn:E; [|lia].
    apply andb_prop in E as [_ E%Z.ltb_lt]. lia.
  - unfold playerMove. simpl. destruct (collide _ _); [done|]. by destruct (_ && _).
  - unfold playerMove. simpl. destruct (collide _ _); [done|]. by destruct (_ && _).
  - unfold playerMove. simpl. destruct (collide _ _); [done|]. by destruct (_ && _).
  - unfold playerMove. simpl. destruct (collide _ _); [done|]. by destruct (_ && _).
  - unfold playerMove. simpl. destruct (collide _ _); [done|]. by destruct (_ && _).
Qed.

Lemma playerDrop_consistent g : consistent g -> consistent (playerDrop g).
Proof.
  intros Hc. apply (consistent_of g); [..|exact Hc];
    unfold playerDrop; simpl;
    (destruct (collide _ _); [destruct (isLocking g)|]); simpl; try done;
    by destruct Hc.
Qed.

Lemma manualDrop_consistent g : consistent g -> consistent (manualDrop g).
Proof.
  intros Hc. apply (consistent_of g); [..|exact Hc];
    unfold manualDrop; simpl;
    (destruct (collide _ _); [destruct (isLocking g)|]); simpl; try done;
    by destruct Hc.
Qed.

Lemma playerRotate_piece dir g :
  tetromino (player (playerRotate dir g)) = tetromino (player g) /\
  nextPiece (playerRotate dir g) = nextPiece g /\
  bag (playerRotate dir g) = bag g /\
  (matrix (player (playerRotate dir g)) = rotate (matrix (player g)) dir /\
   rotationIndex (player (playerRotate dir g)) =
     Z.rem (rotationIndex (player g) + dir + 4) 4 \/
   matrix (player (playerRotate dir g)) =
     rotate (rotate (matrix (player g)) dir) (- dir) /\
   rotationIndex (player (playerRotate dir g)) = rotationIndex (player g)).
Proof.
  unfold playerRotate. cbv zeta. rewrite tryKicks_firstFit.
  destruct (firstFit _ _ _) as [kick|]; simpl.
  - destruct (_ && _); simpl; (split; [done|]); (split; [done|]);
      (split; [done|]); by left.
  - split; [done|]. split; [done|]. split; [done|]. by right.
Qed.

Lemma playerRotate_consistent dir g :
  dir = 1 \/ dir = -1 -> invariant g -> consistent g ->
  consistent (playerRotate dir g).
Proof.
  intros Hdir (_ & ([n Hsq] & _) & Hcat) (Hl & (k & Hk & Hr & Hm) & Hnext & Hbag).
  destruct (playerRotate_lock dir g) as (_ & _ & Hl').
  cbv zeta in Hl'.
  destruct (playerRotate_piece dir g) as (Ht & Hn & Hb & Hturn).
  split; [|split; [|split]].
  - rewrite Hl'. unfold maxLockMoves in *.
    destruct (bool_decide _ && isLocking g && (lockMoves g <? 15)) eqn:E; [|lia].
    apply andb_prop in E as [_ E%Z.ltb_lt]. lia.
  - rewrite Ht. destruct Hturn as [[Hm' Hr']|[Hm' Hr']].
    + destruct (catalogue_square _ Hcat) as [n' Hs].
      destruct (turned_rotate n' k _ dir Hs Hk Hdir) as (k' & Hk' & Hrem & Hrot).
      exists k'. split; [done|]. split.
      * by rewrite Hr', Hr.
      * by rewrite Hm', Hm.
    + exists k. split; [done|]. split; [by rewrite Hr'|].
      rewrite Hm', (rotate_back n _ dir Hsq); [done|]. lia.
  - by rewrite Hn.
  - by rewrite Hb.
Qed.

Lemma lockPiece_consistent g :
  consistent g ->
  match lockPiece g with
  | Returns g' | Throws g' => consistent g'
  | OffGrid | Diverges => True
  end.
Proof.
  intros Hc. unfold lockPiece.
  destruct (merge (grid g) (player g)) as [arena|arena|]; [| |done].
  - apply playerReset_consistent. unfold arenaSweep. simpl.
    by destruct (sweepFrom _ _).
  - done.
Qed.

Lemma playerHardDrop_consistent g :
  consistent g ->
  match playerHardDrop g with
  | Returns g' | Throws g' => consistent g'
  | OffGrid | Diverges => True
  end.
Proof.
  intros Hc. unfold playerHardDrop.
  destruct (dropLoop _ _ _ _) as [[pl' d']|] eqn:Hloop; [|done].
  destruct (dropLoop_spec _ _ _ _ _ _ Hloop) as (k & -> & _).
  apply lockPiece_consistent. by apply (consistent_of g); [destruct Hc|..].
Qed.

Lemma holdTetromino_consistent g : consistent g -> consistent (holdTetromino g).
Proof.
  intros Hc. unfold holdTetromino. destruct (_ || _); [done|].
  destruct (holdPiece g) as [held|].
  - destruct Hc as (Hl & _ & Hn & Hb).
    split; [done|]. split; [by exists 0%nat; split; [lia|]|]. done.
  - assert (H : consistent
              (playerReset (set_holdPiece (Some (tetromino (player g))) g)))
      by (by apply playerReset_consistent).
    done.
Qed.

Lemma completeClear_consistent g : consistent g -> consistent (completeClear g).
Proof. intros Hc. unfold completeClear. simpl. by destruct (_ >? _). Qed.

Lemma update_consistent time g :
  consistent g ->
  match update time g with
  | Returns g' | Throws g' => consistent g'
  | OffGrid | Diverges => True
  end.
Proof.
  intros Hc. unfold update.
  assert (H1 : consistent (set_lastTime time g)) by done.
  cbv zeta.
  destruct (GAME_STATE_eqb (state (set_lastTime time g)) PLAYING); [|exact H1].
  destruct (isAnimatingClear (set_lastTime time g)).
  - assert (H2 : consistent
              (set_clearAnimationFrame
                 (clearAnimationFrame (set_lastTime time g) + 1)
                 (set_lastTime time g))) by done.
    destruct (18 <=? _); [by apply completeClear_consistent|exact H2].
  - set (g2 := set_dropCounter _ _).
    assert (H2 : consistent g2) by done.
    set (g3 := if negb (Qle_bool (dropCounter g2) (dropInterval g2))
               then playerDrop g2 else g2).
    assert (H3 : consistent g3)
      by (unfold g3; destruct (negb _); [by apply playerDrop_consistent|done]).
    destruct (isLocking g3); [|exact H3].
    set (g4 := set_lockTimer _ _).
    assert (H4 : consistent g4) by done.
    destruct (Qle_bool lockDelay (lockTimer g4));
      [by apply lockPiece_consistent|exact H4].
Qed.

Lemma start_consistent startLevel g0 : consistent (start startLevel g0).
Proof.
  destruct (start_sets startLevel g0)
    as (_ & _ & _ & _ & _ & _ & _ & _ & _ & _ & _ & _ & Hl & Hp & _ &
        next & Hn & Hperm).
  revert Hl Hp Hn Hperm. generalize (start startLevel g0).
  intros g Hl Hp Hn Hperm.
  split; [rewrite Hl; unfold maxLockMoves; lia|].
  split; [exists 0%nat; split; [lia|]; by rewrite Hp|].
  split; [by eexists|].
  pose proof NoDup_ids as Hids. rewrite <- Hperm in Hids.
  rewrite !fmap_cons in Hids.
  by apply NoDup_cons in Hids as [_ [_ ?]%NoDup_cons].
Qed.

Lemma reset_consistent g : consistent g -> consistent (reset g).
Proof.
  intros (Hl & Hrot & Hn & _). split; [done|]. split; [done|].
  split; [done|]. constructor.
Qed.

Lemma togglePause_consistent g : consistent g -> consistent (togglePause g).
Proof. intros Hc. unfold togglePause. by destruct (state g). Qed.

Lemma keydown_consistent keyCode slider g :
  invariant g -> consistent g ->
  match keydown keyCode slider g with
  | Returns g' | Throws g' => consistent g'
  | OffGrid | Diverges => True
  end.
Proof.
  intros Hinv Hc. unfold keydown.
  pose proof (playerHardDrop_consistent g Hc) as Hdrop.
  pose proof (playerMove_consistent (-1) g Hc) as Hleft.
  pose proof (playerMove_consistent 1 g Hc) as Hright.
  pose proof (manualDrop_consistent g Hc) as Hdown.
  pose proof (playerRotate_consistent 1 g (or_introl eq_refl) Hinv Hc) as Hcw.
  pose proof (playerRotate_consistent (-1) g (or_intror eq_refl) Hinv Hc) as Hccw.
  pose proof (holdTetromino_consistent g Hc) as Hhold.
  pose proof (togglePause_consistent g Hc) as Hpause.
  pose proof (start_consistent slider g) as Hstart.
  pose proof (start_consistent 1 (reset g)) as Hrestart.
  destruct (state g).
  - destruct (keyCode =? 13); [exact Hstart|exact Hc].
  - destruct keyCode as [|p|p]; [exact Hc| |exact Hc].
    do 7 (try (destruct p as [p|p|]; try assumption)).
  - destruct ((keyCode =? 80) || (keyCode =? 27)); [exact Hpause|exact Hc].
  - destruct (keyCode =? 82); [exact Hrestart|exact Hc].
Qed.

Lemma perform_consistent o g :
  invariant g -> consistent g ->
  match perform o g with
  | Returns g' | Throws g' => consistent g'
  | OffGrid | Diverges => True
  end.
Proof.
  intros Hinv Hc. destruct o as [| | |[]| | | | | | | | | |]; simpl.
  - apply start_consistent.
  - by apply reset_consistent.
  - by apply playerMove_consistent.
  - apply playerRotate_consistent; [by left|done|done].
  - apply playerRotate_consistent; [by right|done|done].
  - by apply manualDrop_consistent.
  - by apply playerDrop_consistent.
  - by apply playerHardDrop_consistent.
  - by apply holdTetromino_consistent.
  - by apply togglePause_consistent.
  - by apply update_consistent.
  - by apply lockPiece_consistent.
  - by apply completeClear_consistent.
  - by apply keydown_consistent.
  - done.
Qed.

Lemma reachable_consistent g : reachable g -> consistent g.
Proof.
  induction 1 as [g0 lvl|g o g' Hg IH Hop|g o g' Hg IH Hop].
  - apply start_consistent.
  - pose proof (perform_consistent o g (reachable_inv g Hg) IH) as H.
    by rewrite Hop in H.
  - pose proof (perform_consistent o g (reachable_inv g Hg) IH) as H.
    by rewrite Hop in H.
Qed.

(** X14: in every reachable state the move-reset counter of the lock delay
    lies between 0 and its cap of 15: moves and rotations can put off the
    lock only so often. *)
Theorem lockMoves_within_cap g :
  reachable g -> 0 <= lockMoves g <= maxLockMoves.
Proof. intros Hg. by destruct (reachable_consistent g Hg). Qed.

Lemma lockMoves_within_cap_witness : 0 <= lockMoves started <= maxLockMoves.
Proof. apply (lockMoves_within_cap started). apply reach_start. Defined.

(** X15: in every reachable state the rotation index is one of 0..3 and
    says how the matrix of the piece lies: the matrix is the catalogue
    shape of its tetromino turned clockwise that many times.  The kick
    table is therefore always read for the orientation the piece has. *)
Theorem rotationIndex_tracks_matrix g :
  reachable g ->
  exists k, (k < 4)%nat /\ rotationIndex (player g) = Z.of_nat k /\
            matrix (player g) = turned k (shape (tetromino (player g))).
Proof. intros Hg. by destruct (reachable_consistent g Hg) as (_ & ? & _). Qed.

Lemma rotationIndex_tracks_matrix_witness :
  exists k, (k < 4)%nat /\ rotationIndex (player started) = Z.of_nat k /\
            matrix (player started) =
            turned k (shape (tetromino (player started))).
Proof. apply (rotationIndex_tracks_matrix started). apply reach_start. Defined.

(** X16: in every reachable state a next piece is queued, so that
    [playerReset] always finds a piece to spawn, and the bag holds no kind
    of piece twice. *)
Theorem queue_always_filled g :
  reachable g -> is_Some (nextPiece g) /\ NoDup (id <$> bag g).
Proof. intros Hg. by destruct (reachable_consistent g Hg) as (_ & _ & ? & ?). Qed.

Lemma queue_always_filled_witness :
  is_Some (nextPiece started) /\ NoDup (id <$> bag started).
Proof. apply (queue_always_filled started). apply reach_start. Defined.

(** ** The high score *)

Lemma kept_frame g g' :
  state g' = state g -> highScore g' = highScore g -> highScoreKept g g'.
Proof. intros Hs Hh. split; [lia|]. rewrite Hs. by intros. Qed.

Lemma gameOver_kept g0 g :
  highScore g = highScore g0 -> highScoreKept g0 (gameOver g).
Proof.
  intros Hh. unfold gameOver. simpl.
  destruct (Z.gtb_spec (score g) (highScore g)); split; simpl; lia.
Qed.

Lemma playerReset_kept g0 g :
  state g = state g0 -> highScore g = highScore g0 ->
  highScoreKept g0 (playerReset g).
Proof.
  intros Hs Hh.
  assert (Hspawn : forall t g1,
            state g1 = state g0 -> highScore g1 = highScore g0 ->
            highScoreKept g0
              (let g2 := set_player (spawnPiece t) g1 in
               let '(n, g3) := getNextFromBag g2 in
               let g4 := set_nextPiece n g3 in
               let g5 := set_lockMoves 0
                           (set_lockTimer 0%Q (set_isLocking false g4)) in
               if collide (grid g5) (player g5) then gameOver g5 else g5)).
  { intros t g1 Hs1 Hh1. cbv zeta.
    destruct (getNextFromBag_sets (set_player (spawnPiece t) g1))
      as (n & b & c & -> & _).
    destruct (collide _ _).
    - by apply gameOver_kept.
    - by apply kept_frame. }
  unfold playerReset. destruct (nextPiece g) as [t|].
  - by apply Hspawn.
  - destruct (getNextFromBag_sets g) as (t & b & c & -> & _).
    by apply Hspawn.
Qed.

Lemma lockPiece_kept g0 g :
  state g = state g0 -> highScore g = highScore g0 ->
  match lockPiece g with
  | Returns g' | Throws g' => highScoreKept g0 g'
  | OffGrid | Diverges => True
  end.
Proof.
  intros Hs Hh. unfold lockPiece.
  destruct (merge (grid g) (player g)) as [arena|arena|]; [| |done].
  - apply playerReset_kept; unfold arenaSweep; simpl; by destruct (sweepFrom _ _).
  - by apply kept_frame.
Qed.

Lemma playerHardDrop_kept g :
  match playerHardDrop g with
  | Returns g' | Throws g' => highScoreKept g g'
  | OffGrid | Diverges => True
  end.
Proof.
  unfold playerHardDrop.
  destruct (dropLoop _ _ _ _) as [[pl' d']|]; [|done].
  by apply lockPiece_kept.
Qed.

Lemma playerMove_same dir g :
  state (playerMove dir g) = state g /\
  highScore (playerMove dir g) = highScore g.
Proof.
  unfold playerMove. simpl. destruct (collide _ _); [done|].
  by destruct (_ && _).
Qed.

Lemma playerRotate_same dir g :
  state (playerRotate dir g) = state g /\
  highScore (playerRotate dir g) = highScore g.
Proof.
  unfold playerRotate. cbv zeta. destruct (tryKicks _ _ _); [|done].
  simpl. by destruct (_ && _).
Qed.

Lemma playerDrop_same g :
  state (playerDrop g) = state g /\ highScore (playerDrop g) = highScore g.
Proof.
  unfold playerDrop. simpl.
  by destruct (collide _ _); [destruct (isLocking g)|].
Qed.

Lemma manualDrop_same g :
  state (manualDrop g) = state g /\ highScore (manualDrop g) = highScore g.
Proof.
  unfold manualDrop. simpl.
  by destruct (collide _ _); [destruct (isLocking g)|].
Qed.

Lemma completeClear_same g :
  state (completeClear g) = state g /\
  highScore (completeClear g) = highScore g.
Proof. unfold completeClear. simpl. by destruct (_ >? _). Qed.

Lemma holdTetromino_kept g : highScoreKept g (holdTetromino g).
Proof.
  unfold holdTetromino. destruct (_ || _); [by apply kept_frame|].
  destruct (holdPiece g) as [held|]; [by apply kept_frame|].
  assert (H : highScoreKept g
            (playerReset (set_holdPiece (Some (tetromino (player g))) g)))
    by (by apply playerReset_kept).
  destruct H as [H1 H2]. split; [exact H1|exact H2].
Qed.

Lemma togglePause_kept g : highScoreKept g (togglePause g).
Proof.
  unfold togglePause, highScoreKept.
  destruct (state g) eqn:E; simpl; rewrite ?E; split; (lia || done).
Qed.

Lemma start_kept startLevel g0 g :
  highScore g = highScore g0 -> highScoreKept g0 (start startLevel g).
Proof.
  intros Hh.
  destruct (start_sets startLevel g)
    as (Hs & _ & _ & _ & _ & _ & _ & _ & Hh' & _).
  revert Hs Hh'. generalize (start startLevel g). intros g' Hs Hh'.
  split; [lia|]. by rewrite Hs.
Qed.

Lemma update_kept time g :
  match update time g with
  | Returns g' | Throws g' => highScoreKept g g'
  | OffGrid | Diverges => True
  end.
Proof.
  unfold update. cbv zeta.
  destruct (GAME_STATE_eqb (state (set_lastTime time g)) PLAYING);
    [|by apply kept_frame].
  destruct (isAnimatingClear (set_lastTime time g)).
  - destruct (18 <=? _); [|by apply kept_frame].
    apply kept_frame; by rewrite (proj1 (completeClear_same _)) ||
                          rewrite (proj2 (completeClear_same _)).
  - set (g2 := set_dropCounter _ _).
    set (g3 := if negb (Qle_bool (dropCounter g2) (dropInterval g2))
               then playerDrop g2 else g2).
    assert (H3 : state g3 = state g /\ highScore g3 = highScore g).
    { unfold g3. destruct (negb _); [|done].
      by destruct (playerDrop_same g2) as [-> ->]. }
    destruct H3 as [Hs Hh].
    destruct (isLocking g3); [|by apply kept_frame].
    destruct (Qle_bool lockDelay _); [|by apply kept_frame].
    by apply lockPiece_kept.
Qed.

Lemma keydown_kept keyCode slider g :
  match keydown keyCode slider g with
  | Returns g' | Throws g' => highScoreKept g g'
  | OffGrid | Diverges => True
  end.
Proof.
  unfold keydown.
  assert (Hsame : highScoreKept g g) by (by apply kept_frame).
  pose proof (playerHardDrop_kept g) as Hdrop.
  pose proof (kept_frame g _ (proj1 (playerMove_same (-1) g))
                (proj2 (playerMove_same (-1) g))) as Hleft.
  pose proof (kept_frame g _ (proj1 (playerMove_same 1 g))
                (proj2 (playerMove_same 1 g))) as Hright.
  pose proof (kept_frame g _ (proj1 (manualDrop_same g))
                (proj2 (manualDrop_same g))) as Hdown.
  pose proof (kept_frame g _ (proj1 (playerRotate_same 1 g))
                (proj2 (playerRotate_same 1 g))) as Hcw.
  pose proof (kept_frame g _ (proj1 (playerRotate_same (-1) g))
                (proj2 (playerRotate_same (-1) g))) as Hccw.
  pose proof (holdTetromino_kept g) as Hhold.
  pose proof (togglePause_kept g) as Hpause.
  pose proof (start_kept slider g g eq_refl) as Hstart.
  pose proof (start_kept 1 g (reset g) eq_refl) as Hrestart.
  destruct (state g).
  - destruct (keyCode =? 13); [exact Hstart|exact Hsame].
  - destruct keyCode as [|p|p]; [exact Hsame| |exact Hsame].
    do 7 (try (destruct p as [p|p|]; try assumption)).
  - destruct ((keyCode =? 80) || (keyCode =? 27)); [exact Hpause|exact Hsame].
  - destruct (keyCode =? 82); [exact Hrestart|exact Hsame].
Qed.

Lemma perform_kept o g :
  match perform o g with
  | Returns g' | Throws g' => highScoreKept g g'
  | OffGrid | Diverges => True
  end.
Proof.
  destruct o as [| | |[]| | | | | | | | | |]; simpl.
  - by apply start_kept.
  - by apply kept_frame.
  - apply kept_frame; apply playerMove_same.
  - apply kept_frame; apply playerRotate_same.
  - apply kept_frame; apply playerRotate_same.
  - apply kept_frame; apply manualDrop_same.
  - apply kept_frame; apply playerDrop_same.
  - apply playerHardDrop_kept.
  - apply holdTetromino_kept.
  - apply togglePause_kept.
  - apply update_kept.
  - by apply lockPiece_kept.
  - apply kept_frame; apply completeClear_same.
  - apply keydown_kept.
  - split; [simpl; lia|done].
Qed.

(** X17: no operation lowers the high score, and whenever an operation
    ends the game the score of that game is counted in: the high score is
    then at least the final score. *)
Theorem highScore_kept_by_every_operation o g g' :
  perform o g = Returns g' \/ perform o g = Throws g' ->
  highScore g <= highScore g' /\
  (state g' = GAMEOVER -> state g <> GAMEOVER -> score g' <= highScore g').
Proof.
  intros Hop. pose proof (perform_kept o g) as H.
  destruct Hop as [Hop|Hop]; rewrite Hop in H; exact H.
Qed.

Lemma highScore_kept_by_every_operation_witness :
  highScore started <= highScore (playerMove 1 started).
Proof.
  destruct (highScore_kept_by_every_operation
              (OpPlayerMove 1) started (playerMove 1 started)) as [H _].
  - left. reflexivity.
  - exact H.
Defined.

(** ** Frames of the game loop *)

Lemma runFrames_app times1 times2 : forall g,
  runFrames (times1 ++ times2) g =
  match runFrames times1 g with
  | Returns g' => runFrames times2 g'
  | stop => stop
  end.
Proof.
  induction times1 as [|t times1 IH]; intros g; simpl; [done|].
  destruct (update t g); done.
Qed.

Lemma last_cons_default {A} (l : list A) : forall t d,
  List.last (t :: l) d = List.last l t.
Proof.
  induction l as [|t' l IH]; intros t d; [done|].
  change (List.last (t :: t' :: l) d) with (List.last (t' :: l) d).
  by rewrite !IH.
Qed.

(** Frames outside [PLAYING] only move the time stamp. *)
Lemma runFrames_idle times : forall g,
  state g <> PLAYING ->
  runFrames times g = Returns (set_lastTime (List.last times (lastTime g)) g).
Proof.
  induction times as [|t times IH]; intros g Hstate.
  - simpl. by destruct g.
  - assert (Hupd : update t g = Returns (set_lastTime t g)).
    { unfold update. simpl. by destruct (state g). }
    cbn [runFrames]. rewrite Hupd, (IH (set_lastTime t g) Hstate).
    f_equal. simpl lastTime.
    by rewrite last_cons_default.
Qed.

(** X18: pausing loses nothing.  A game paused from [PLAYING], left for
    any number of frames and resumed is the game it was, but for the time
    stamp of the last frame: the piece has not fallen and no timer has
    run. *)
Theorem pause_frames_resume g times :
  state g = PLAYING ->
  exists paused,
    runFrames times (togglePause g) = Returns paused /\
    state paused = PAUSED /\
    togglePause paused = set_lastTime (List.last times (lastTime g)) g.
Proof.
  intros Hstate.
  assert (Hp : togglePause g = set_state PAUSED g)
    by (unfold togglePause; by rewrite Hstate).
  rewrite Hp. eexists. split; [by apply runFrames_idle|].
  split; [done|]. unfold togglePause. simpl.
  destruct g. simpl in *. by subst.
Qed.

Lemma pause_frames_resume_witness :
  exists paused,
    runFrames [16%Q; 33%Q; 50%Q] (togglePause started) = Returns paused /\
    state paused = PAUSED /\
    togglePause paused = set_lastTime 50%Q started.
Proof.
  assert (Hstate : state started = PLAYING) by (vm_compute; reflexivity).
  exact (pause_frames_resume started [16%Q; 33%Q; 50%Q] Hstate).
Defined.

(** Frames of the clear animation before the eighteenth. *)
Lemma runFrames_animating times : forall g,
  state g = PLAYING -> isAnimatingClear g = true ->
  clearAnimationFrame g + Z.of_nat (length times) < 18 ->
  runFrames times g =
  Returns (set_clearAnimationFrame
             (clearAnimationFrame g + Z.of_nat (length times))
             (set_lastTime (List.last times (lastTime g)) g)).
Proof.
  induction times as [|t times IH]; intros g Hstate Hanim Hlt.
  - simpl. rewrite Z.add_0_r. by destruct g.
  - assert (Hupd : update t g =
              Returns (set_clearAnimationFrame (clearAnimationFrame g + 1)
                         (set_lastTime t g))).
    { unfold update. simpl. rewrite Hstate, Hanim. simpl.
      destruct (Z.leb_spec 18 (clearAnimationFrame g + 1)); [|done].
      simpl in Hlt. lia. }
    cbn [runFrames]. rewrite Hupd, IH; [|done|done|simpl in *; lia].
    f_equal. simpl clearAnimationFrame. simpl lastTime.
    rewrite last_cons_default.
    replace (clearAnimationFrame g + 1 + Z.of_nat (length times))
      with (clearAnimationFrame g + Z.of_nat (length (t :: times)))
      by (simpl length; lia).
    done.
Qed.

(** X19: the clear animation lasts eighteen frames.  With the animation
    on and its counter at 0, as [arenaSweep] leaves them, seventeen frames
    change nothing but the counter and the time stamp, whatever time goes
    by, and the eighteenth frame clears the lines. *)
Theorem clear_animation_lasts_18_frames g times time :
  state g = PLAYING -> isAnimatingClear g = true ->
  clearAnimationFrame g = 0 -> length times = 17%nat ->
  runFrames times g =
    Returns (set_clearAnimationFrame 17
               (set_lastTime (List.last times (lastTime g)) g)) /\
  runFrames (times ++ [time]) g =
    Returns (completeClear (set_clearAnimationFrame 18 (set_lastTime time g))).
Proof.
  intros Hstate Hanim Hframe Hlen.
  assert (Hrun : runFrames times g =
            Returns (set_clearAnimationFrame 17
                       (set_lastTime (List.last times (lastTime g)) g))).
  { rewrite (runFrames_animating times g Hstate Hanim) by lia.
    by rewrite Hframe, Hlen. }
  split; [exact Hrun|].
  rewrite runFrames_app, Hrun. cbn [runFrames].
  unfold update. simpl. rewrite Hstate, Hanim. simpl. done.
Qed.

Lemma clear_animation_lasts_18_frames_witness :
  let g := set_clearAnimationFrame 0 (set_isAnimatingClear true started) in
  let times := replicate 17 0%Q in
  runFrames times g =
    Returns (set_clearAnimationFrame 17
               (set_lastTime (List.last times (lastTime g)) g)).
Proof.
  cbv zeta.
  assert (Hstate : state (set_clearAnimationFrame 0
                            (set_isAnimatingClear true started)) = PLAYING)
    by (vm_compute; reflexivity).
  destruct (clear_animation_lasts_18_frames
              (set_clearAnimationFrame 0 (set_isAnimatingClear true started))
              (replicate 17 0%Q) 0%Q Hstate eq_refl eq_refl eq_refl) as [H _].
  exact H.
Defined.

(** ** Hold *)

(** X20: with a piece in the hold slot, [holdTetromino] exchanges it for
    the active one: the held piece appears at the spawn position in its
    catalogue orientation and the active tetromino goes to the slot.  Grid,
    queue, score and lock delay are as before, the state stays [PLAYING]
    without a look at whether the new piece collides, and holding again
    does nothing until a lock allows it. *)
Theorem holdTetromino_swaps g held :
  state g = PLAYING -> canHold g = true -> holdPiece g = Some held ->
  let g' := holdTetromino g in
  player g' = spawnPiece held /\
  holdPiece g' = Some (tetromino (player g)) /\
  canHold g' = false /\ state g' = PLAYING /\
  grid g' = grid g /\ nextPiece g' = nextPiece g /\ bag g' = bag g /\
  score g' = score g /\
  isLocking g' = isLocking g /\ lockTimer g' = lockTimer g /\
  lockMoves g' = lockMoves g /\
  holdTetromino g' = g' /\
  tetromino (player (holdTetromino (set_canHold true g'))) =
    tetromino (player g).
Proof.
  intros Hstate Hcan Hheld. cbv zeta.
  assert (Hg' : holdTetromino g =
            set_canHold false
              (set_player (spawnPiece held)
                 (set_holdPiece (Some (tetromino (player g))) g))).
  { unfold holdTetromino. by rewrite Hcan, Hstate, Hheld. }
  rewrite Hg'. simpl.
  split; [done|]. split; [done|]. split; [done|]. split; [done|].
  split; [done|]. split; [done|]. split; [done|]. split; [done|].
  split; [done|]. split; [done|]. split; [done|]. split.
  - by apply holdTetromino_guard; left.
  - unfold holdTetromino. simpl. by rewrite Hstate.
Qed.

Lemma holdTetromino_swaps_witness :
  player (holdTetromino (set_holdPiece (Some (TETROMINOS Kind.T)) started)) =
  spawnPiece (TETROMINOS Kind.T).
Proof.
  assert (Hstate : state (set_holdPiece (Some (TETROMINOS Kind.T)) started)
                   = PLAYING) by (vm_compute; reflexivity).
  assert (Hcan : canHold (set_holdPiece (Some (TETROMINOS Kind.T)) started)
                 = true) by (vm_compute; reflexivity).
  destruct (holdTetromino_swaps
              (set_holdPiece (Some (TETROMINOS Kind.T)) started)
              (TETROMINOS Kind.T) Hstate Hcan eq_refl) as [H _].
  exact H.
Defined.

(** ** When locking throws *)

Lemma occupied_filledAt m r c :
  occupied m r c -> filledAt m (Z.of_nat r) (Z.of_nat c) = true.
Proof.
  intros (v & Hv & Hne). unfold filledAt, at_.
  destruct (Z.ltb_spec (Z.of_nat r) 0); [lia|].
  destruct (Z.ltb_spec (Z.of_nat c) 0); [lia|].
  rewrite !Nat2Z.id. unfold cellAt in Hv.
  destruct (m !! r) as [row|]; [|done]. simpl in *.
  rewrite Hv. by apply negb_true_iff, Z.eqb_neq.
Qed.

(** X21: in a reachable state [lockPiece] either returns, and then every
    occupied cell of the piece lay on a row of the grid, or it is aborted
    by the [TypeError] of a write above or below the grid, and then some
    occupied cell lay off the rows and nothing but the grid has changed:
    the piece is still the active one. *)
Theorem lockPiece_throws_off_the_rows g :
  reachable g ->
  match lockPiece g with
  | Returns g' =>
      forall r c, occupied (matrix (player g)) r c ->
                  0 <= Z.of_nat r + (pos (player g)).2 < ROWS
  | Throws g' =>
      (exists r c, occupied (matrix (player g)) r c /\
                   ~ (0 <= Z.of_nat r + (pos (player g)).2 < ROWS)) /\
      g' = set_grid (grid g') g
  | OffGrid | Diverges => False
  end.
Proof.
  intros Hg. destruct (reachable_inv g Hg) as ((Hgrid & _) & Hp & _).
  unfold lockPiece.
  pose proof (merge_in_bounds (grid g) (player g) Hgrid (proj2 (proj2 Hp))) as Hm.
  destruct (merge (grid g) (player g)) as [arena|arena|] eqn:E;
    simpl in Hm; [| |done].
  - intros r c Hocc. unfold merge in E.
    pose proof (mergeRows_gridAt _ _ _ _ _ _
                  (Z.of_nat r + (pos (player g)).2)
                  (Z.of_nat c + (pos (player g)).1) E) as Hcell.
    replace (Z.of_nat r + (pos (player g)).2 - (pos (player g)).2 - Z.of_nat 0)
      with (Z.of_nat r) in Hcell by lia.
    replace (Z.of_nat c + (pos (player g)).1 - (pos (player g)).1)
      with (Z.of_nat c) in Hcell by lia.
    rewrite (occupied_filledAt _ _ _ Hocc) in Hcell.
    assert (Hsome : is_Some (gridAt arena (Z.of_nat r + (pos (player g)).2)
                               (Z.of_nat c + (pos (player g)).1)))
      by (rewrite Hcell; by eexists).
    apply (gridAt_Some _ _ _ Hm) in Hsome. tauto.
  - destruct Hm as [_ Hout]. split; [exact Hout|done].
Qed.

Lemma lockPiece_throws_off_the_rows_witness :
  exists g', lockPiece started = Returns g' /\
             0 <= Z.of_nat 1 + (pos (player started)).2 < ROWS.
Proof.
  pose proof (lockPiece_throws_off_the_rows started
                (reach_start (newGame (fun _ => 0%nat)) 1)) as H.
  destruct (lockPiece started) as [g'| | |] eqn:E;
    [|vm_compute in E; discriminate E..].
  exists g'. split; [reflexivity|].
  apply (H 1%nat 0%nat). exists 1. split; [vm_compute; reflexivity|lia].
Defined.

Lemma mergeCells_above cells colour arena r ox : forall x,
  r < 0 -> (exists c v, cells !! c = Some v /\ v <> 0) ->
  mergeCells arena cells x r ox colour = TypeError arena.
Proof.
  induction cells as [|v cells IH]; intros x Hr (c & v' & Hc & Hne).
  - by rewrite lookup_nil in Hc.
  - simpl. destruct (Z.eqb_spec v 0) as [->|Hv].
    + apply IH; [done|]. destruct c as [|c]; [simpl in Hc; congruence|].
      by exists c, v'.
    + unfold storeCell, at_. by destruct (Z.ltb_spec r 0); [|lia].
Qed.

Lemma movedBy_up_score g :
  set_score (score g + Z.max 0 (0 - 1) * 2)
    (set_player (movedBy 0 (-1) (player g)) g) =
  set_player (movedBy 0 (-1) (player g)) g.
Proof. destruct g. simpl. by rewrite Z.add_0_r. Qed.

(** X22: a hard drop on a piece that collides where it is does not move
    it down: it lifts the piece one row and locks it there, for no points.
    When the piece stands on the top row with a cell in the first row of
    its matrix, as a hold swap or a spawn into a full stack leaves it,
    that lock writes above the grid: the hard drop is aborted by a
    [TypeError], with the grid as it was and the piece one row up. *)
Theorem hardDrop_on_blocked_piece g :
  collide (grid g) (player g) = true ->
  playerHardDrop g = lockPiece (set_player (movedBy 0 (-1) (player g)) g) /\
  ((pos (player g)).2 <= 0 ->
   (exists c, occupied (matrix (player g)) 0 c) ->
   playerHardDrop g = Throws (set_player (movedBy 0 (-1) (player g)) g)).
Proof.
  intros Hhit.
  assert (Hdrop : playerHardDrop g =
            lockPiece (set_player (movedBy 0 (-1) (player g)) g)).
  { unfold playerHardDrop.
    assert (Hloop : dropLoop (length (grid g)) (grid g) (player g) 0 =
                    Some (player g, 0))
      by (destruct (length (grid g)); simpl; by rewrite Hhit).
    rewrite Hloop. cbv zeta. simpl score. by rewrite movedBy_up_score. }
  split; [exact Hdrop|].
  intros Hy (c & v & Hv & Hne). rewrite Hdrop.
  unfold lockPiece, merge. simpl.
  unfold cellAt in Hv.
  destruct (matrix (player g)) as [|row rest]; [done|]. simpl in Hv.
  simpl. rewrite mergeCells_above; [|lia|by exists c, v].
  by destruct g.
Qed.

Lemma hardDrop_on_blocked_piece_witness :
  playerHardDrop toppedOut =
  Throws (set_player (movedBy 0 (-1) (player toppedOut)) toppedOut).
Proof.
  assert (Hhit : collide (grid toppedOut) (player toppedOut) = true)
    by (vm_compute; reflexivity).
  assert (Hy : (pos (player toppedOut)).2 <= 0)
    by (vm_compute; discriminate).
  assert (Hocc : exists c, occupied (matrix (player toppedOut)) 0 c).
  { exists 0%nat, 1. split; [vm_compute; reflexivity|lia]. }
  exact (proj2 (hardDrop_on_blocked_piece toppedOut Hhit) Hy Hocc).
Defined.
